(** * LightGaussian, [utils/pose_utils.py]: camera-path synthesis

    A shallow embedding of the pose utilities and of the path generators
    built on them.  The Python code computes on numpy [float64] arrays.
    Every function below is written once, over an abstract scalar type
    (class [Scalar]), and read at two instances:

    - [FScalar]: IEEE-754 binary64 (Rocq's primitive floats), which
      evaluates, with NaN and rounding as numpy has them;
    - [RScalar]: the real numbers, the exact arithmetic in which the
      algebraic laws of the code are proved.

    [np.linalg.inv] and [np.linalg.det] are modelled by cofactors, which
    is what LAPACK computes in exact arithmetic; at binary64 they are
    evaluated only on matrices whose entries are 0 or a power of two up
    to sign, where both agree, and on [coaxial_views], where the entries
    that reach the result are computed without rounding by both.
    [np.linalg.eig] is a parameter.  So are
    [np.percentile], [np.interp] and the numbers drawn by [np.random.rand],
    where a function calls them.

    Shapes are fixed by the code: a pose is a 3x4 or 4x4 matrix, stored
    row-major as numpy stores it.  Exceptions raised by numpy or Python
    are results of type [result]. *)

From Stdlib Require Import List ZArith Bool Lia Sorted.
From Stdlib Require Import Floats.
From Stdlib Require Import Reals Lra Psatz.
From Stdlib Require Ascii String.
Import ListNotations.

Set Implicit Arguments.

(** ** Exceptions *)

Inductive exn : Type :=
| ValueError      (* np.stack of no array, np.max of an empty array *)
| LinAlgError.    (* np.linalg.inv of a singular matrix *)

Inductive result (A : Type) : Type :=
| Ok (a : A)
| Raise (e : exn).
Arguments Ok {A} a.
Arguments Raise {A} e.

Definition bind {A B} (r : result A) (k : A -> result B) : result B :=
  match r with
  | Ok a => k a
  | Raise e => Raise e
  end.

Notation "x <- c ;; k" := (bind c (fun x => k))
  (at level 61, c at next level, right associativity).
Notation "' p <- c ;; k" := (bind c (fun p => k))
  (at level 61, p pattern, c at next level, right associativity).

Fixpoint mapM {A B} (f : A -> result B) (l : list A) : result (list B) :=
  match l with
  | [] => Ok []
  | a :: l' => b <- f a ;; bs <- mapM f l' ;; Ok (b :: bs)
  end.

(** ** Scalars *)

Declare Scope sc_scope.
Delimit Scope sc_scope with sc.

Class Scalar (T : Type) : Type := {
  sofZ : Z -> T;            (* an integer literal or a count, as a float *)
  sadd : T -> T -> T;
  ssub : T -> T -> T;
  smul : T -> T -> T;
  sdiv : T -> T -> T;
  sopp : T -> T;
  sabs : T -> T;            (* np.abs *)
  ssqrt : T -> T;           (* np.sqrt *)
  smax : T -> T -> T;       (* np.maximum, the step of np.max *)
  smin : T -> T -> T;       (* np.minimum *)
  sltb : T -> T -> bool;    (* x < y *)
  seqb : T -> T -> bool     (* x == y *)
}.

Infix "+" := sadd : sc_scope.
Infix "-" := ssub : sc_scope.
Infix "*" := smul : sc_scope.
Infix "/" := sdiv : sc_scope.
Notation "- x" := (sopp x) : sc_scope.
Notation "0" := (sofZ 0) : sc_scope.
Notation "1" := (sofZ 1) : sc_scope.

(** binary64.  [np.maximum] and [np.minimum] propagate NaN. *)
Definition float_ofZ (z : Z) : float :=
  match z with
  | Zneg p => PrimFloat.opp (PrimFloat.of_uint63 (Uint63.of_Z (Zpos p)))
  | _ => PrimFloat.of_uint63 (Uint63.of_Z z)
  end.

Definition float_max (a b : float) : float :=
  if PrimFloat.is_nan a then a
  else if PrimFloat.is_nan b then b
  else if PrimFloat.ltb a b then b else a.

Definition float_min (a b : float) : float :=
  if PrimFloat.is_nan a then a
  else if PrimFloat.is_nan b then b
  else if PrimFloat.ltb b a then b else a.

#[export] Instance FScalar : Scalar float := {|
  sofZ := float_ofZ;
  sadd := PrimFloat.add;
  ssub := PrimFloat.sub;
  smul := PrimFloat.mul;
  sdiv := PrimFloat.div;
  sopp := PrimFloat.opp;
  sabs := PrimFloat.abs;
  ssqrt := PrimFloat.sqrt;
  smax := float_max;
  smin := float_min;
  sltb := PrimFloat.ltb;
  seqb := PrimFloat.eqb
|}.

(** Exact arithmetic.  Division is [Rdiv], total ([x / 0 = 0]): a theorem
    that needs a quotient to mean something assumes the divisor non-zero. *)
Definition Rltb (x y : R) : bool := if Rlt_dec x y then true else false.
Definition Reqb (x y : R) : bool := if Req_dec_T x y then true else false.

#[export] Instance RScalar : Scalar R := {|
  sofZ := IZR;
  sadd := Rplus;
  ssub := Rminus;
  smul := Rmult;
  sdiv := Rdiv;
  sopp := Ropp;
  sabs := Rabs;
  ssqrt := sqrt;
  smax := Rmax;
  smin := Rmin;
  sltb := Rltb;
  seqb := Reqb
|}.

(** ** Vectors and matrices *)

Record vec3 (A : Type) : Type := V3 { vx : A; vy : A; vz : A }.
Record vec4 (A : Type) : Type := V4 { wx : A; wy : A; wz : A; ww : A }.
Arguments V3 {A} _ _ _.
Arguments V4 {A} _ _ _ _.

Definition map3 {A B} (f : A -> B) (v : vec3 A) : vec3 B :=
  V3 (f (vx v)) (f (vy v)) (f (vz v)).
Definition map4 {A B} (f : A -> B) (v : vec4 A) : vec4 B :=
  V4 (f (wx v)) (f (wy v)) (f (wz v)) (f (ww v)).
Definition zip3 {A B C} (f : A -> B -> C) (u : vec3 A) (v : vec3 B) : vec3 C :=
  V3 (f (vx u) (vx v)) (f (vy u) (vy v)) (f (vz u) (vz v)).
Definition zip4 {A B C} (f : A -> B -> C) (u : vec4 A) (v : vec4 B) : vec4 C :=
  V4 (f (wx u) (wx v)) (f (wy u) (wy v)) (f (wz u) (wz v)) (f (ww u) (ww v)).

(** A matrix is the vector of its rows. *)
Definition mat3 (T : Type) : Type := vec3 (vec3 T).
Definition mat34 (T : Type) : Type := vec3 (vec4 T).
Definition mat4 (T : Type) : Type := vec4 (vec4 T).

(** Columns of a matrix with three rows, and of one with four. *)
Definition cols33 {T} (m : mat3 T) : vec3 (vec3 T) :=
  V3 (map3 (@vx T) m) (map3 (@vy T) m) (map3 (@vz T) m).
Definition cols34 {T} (m : mat34 T) : vec4 (vec3 T) :=
  V4 (map3 (@wx T) m) (map3 (@wy T) m) (map3 (@wz T) m) (map3 (@ww T) m).
Definition cols44 {T} (m : mat4 T) : vec4 (vec4 T) :=
  V4 (map4 (@wx T) m) (map4 (@wy T) m) (map4 (@wz T) m) (map4 (@ww T) m).
(** [np.stack([a, b, c, d], 1)] of four 3-vectors: they become the columns. *)
Definition stack_cols {T} (a b c d : vec3 T) : mat34 T :=
  V3 (V4 (vx a) (vx b) (vx c) (vx d))
     (V4 (vy a) (vy b) (vy c) (vy d))
     (V4 (vz a) (vz b) (vz c) (vz d)).
(** [m[:3, :3]], the rotation block of a pose. *)
Definition rot_block {T} (m : mat34 T) : mat3 T :=
  map3 (fun r => V3 (wx r) (wy r) (wz r)) m.

Section Model.
Context {T : Type} `{Scalar T}.
Local Open Scope sc_scope.

Definition dot3 (u v : vec3 T) : T := vx u * vx v + vy u * vy v + vz u * vz v.
Definition dot4 (u v : vec4 T) : T :=
  wx u * wx v + wy u * wy v + wz u * wz v + ww u * ww v.

(** [np.cross] *)
Definition cross (a b : vec3 T) : vec3 T :=
  V3 (vy a * vz b - vz a * vy b)
     (vz a * vx b - vx a * vz b)
     (vx a * vy b - vy a * vx b).

(** [np.linalg.norm] of a vector *)
Definition norm (v : vec3 T) : T := ssqrt (dot3 v v).

(** [normalize(x)]: [x / np.linalg.norm(x)] *)
Definition normalize (v : vec3 T) : vec3 T :=
  let n := norm v in map3 (fun a => a / n) v.

(** [viewmatrix(z, up, pos)] *)
Definition viewmatrix (z up pos : vec3 T) : mat34 T :=
  let vec2 := normalize z in
  let vec1_avg := up in
  let vec0 := normalize (cross vec1_avg vec2) in
  let vec1 := normalize (cross vec2 vec0) in
  stack_cols vec0 vec1 vec2 pos.

(** *** Small dense linear algebra, as numpy's [@], [.T], [np.diag], [np.eye] *)

Definition v3add (u v : vec3 T) : vec3 T := zip3 sadd u v.
Definition v3sub (u v : vec3 T) : vec3 T := zip3 ssub u v.
Definition v3scale (k : T) (v : vec3 T) : vec3 T := map3 (fun a => a * k) v.
Definition v3opp (v : vec3 T) : vec3 T := map3 sopp v.

Definition mv33 (m : mat3 T) (v : vec3 T) : vec3 T := map3 (fun r => dot3 r v) m.
Definition mm33 (a b : mat3 T) : mat3 T :=
  map3 (fun r => map3 (dot3 r) (cols33 b)) a.
Definition mm33_34 (a : mat3 T) (b : mat34 T) : mat34 T :=
  map3 (fun r => map4 (dot3 r) (cols34 b)) a.
Definition mm34_44 (a : mat34 T) (b : mat4 T) : mat34 T :=
  map3 (fun r => map4 (dot4 r) (cols44 b)) a.
Definition mm44 (a b : mat4 T) : mat4 T :=
  map4 (fun r => map4 (dot4 r) (cols44 b)) a.

Definition transpose33 (m : mat3 T) : mat3 T := cols33 m.
Definition diag3 (a b c : T) : mat3 T :=
  V3 (V3 a 0 0) (V3 0 b 0) (V3 0 0 c).
Definition diag4 (a b c d : T) : mat4 T :=
  V4 (V4 a 0 0 0) (V4 0 b 0 0) (V4 0 0 c 0) (V4 0 0 0 d).
Definition eye3 : mat3 T := diag3 1 1 1.
Definition eye4 : mat4 T := diag4 1 1 1 1.

(** [np.linalg.det] of a 3x3 matrix (cofactor expansion; LAPACK factorises,
    which is the same number in exact arithmetic). *)
Definition det3 (m : mat3 T) : T :=
  let '(V3 (V3 a b c) (V3 d e f) (V3 g h i)) := m in
  a * (e * i - f * h) - b * (d * i - f * g) + c * (d * h - e * g).

(** [np.linalg.inv]: [LinAlgError] on a singular matrix, else the inverse
    (here the adjugate over the determinant). *)
Definition inv3 (m : mat3 T) : result (mat3 T) :=
  let '(V3 (V3 a b c) (V3 d e f) (V3 g h i)) := m in
  let dt := det3 m in
  if seqb dt 0 then Raise LinAlgError
  else Ok (V3 (V3 ((e * i - f * h) / dt) ((c * h - b * i) / dt) ((b * f - c * e) / dt))
              (V3 ((f * g - d * i) / dt) ((a * i - c * g) / dt) ((c * d - a * f) / dt))
              (V3 ((d * h - e * g) / dt) ((b * g - a * h) / dt) ((a * e - b * d) / dt))).

Inductive idx4 : Type := I0 | I1 | I2 | I3.

Definition drop4 {A} (i : idx4) (v : vec4 A) : vec3 A :=
  match i with
  | I0 => V3 (wy v) (wz v) (ww v)
  | I1 => V3 (wx v) (wz v) (ww v)
  | I2 => V3 (wx v) (wy v) (ww v)
  | I3 => V3 (wx v) (wy v) (wz v)
  end.
Definition tab4 {A} (f : idx4 -> A) : vec4 A := V4 (f I0) (f I1) (f I2) (f I3).
Definition odd4 (i : idx4) : bool :=
  match i with I1 | I3 => true | _ => false end.

Definition minor4 (m : mat4 T) (i j : idx4) : mat3 T := map3 (drop4 j) (drop4 i m).
Definition cofactor4 (m : mat4 T) (i j : idx4) : T :=
  let d := det3 (minor4 m i j) in
  if xorb (odd4 i) (odd4 j) then - d else d.
Definition det4 (m : mat4 T) : T :=
  let r := wx m in
  wx r * cofactor4 m I0 I0 + wy r * cofactor4 m I0 I1
  + wz r * cofactor4 m I0 I2 + ww r * cofactor4 m I0 I3.
Definition inv4 (m : mat4 T) : result (mat4 T) :=
  let dt := det4 m in
  if seqb dt 0 then Raise LinAlgError
  else Ok (tab4 (fun i => tab4 (fun j => cofactor4 m j i / dt))).

(** *** Reductions over the pose axis *)

Definition count {A} (l : list A) : T := sofZ (Z.of_nat (length l)).

(** [x.sum(0)] and [x.mean(0)] of an (N,3) array; the mean of no row is
    [0/0]. *)
Definition sum3 (l : list (vec3 T)) : vec3 T := fold_left v3add l (V3 0 0 0).
Definition mean3 (l : list (vec3 T)) : vec3 T :=
  map3 (fun s => s / count l) (sum3 l).
Definition sum1 (l : list T) : T := fold_left sadd l 0.
Definition mean1 (l : list T) : T := sum1 l / count l.
Definition mean33 (l : list (mat3 T)) : mat3 T :=
  map3 (fun r => map3 (fun s => s / count l) r)
       (fold_left (zip3 v3add) l (V3 (V3 0 0 0) (V3 0 0 0) (V3 0 0 0))).

(** [np.max] of a flattened array: [ValueError] when it is empty. *)
Definition amax (l : list T) : result T :=
  match l with
  | [] => Raise ValueError
  | a :: l' => Ok (fold_left smax l' a)
  end.

(** *** Poses *)

(** [p[:3, 1]], [p[:3, 2]], [p[:3, 3]]: the up axis, the viewing axis and
    the camera position of a pose. *)
Definition yaxis (p : mat34 T) : vec3 T := map3 (@wy T) p.
Definition zaxis (p : mat34 T) : vec3 T := map3 (@wz T) p.
Definition trans (p : mat34 T) : vec3 T := map3 (@ww T) p.

(** [pad_poses(p)] *)
Definition pad_poses (p : mat34 T) : mat4 T :=
  V4 (vx p) (vy p) (vz p) (V4 0 0 0 1).

(** [unpad_poses(p)]: [p[..., :3, :4]] *)
Definition unpad_poses (p : mat4 T) : mat34 T := V3 (wx p) (wy p) (wz p).

(** [average_pose(poses)] *)
Definition average_pose (poses : list (mat34 T)) : mat34 T :=
  let position := mean3 (map trans poses) in
  let z_axis := mean3 (map zaxis poses) in
  let up := mean3 (map yaxis poses) in
  let cam2world := viewmatrix z_axis up position in
  cam2world.

(** [np.eye(3) - d * d.T] for a column [d] *)
Definition axis_projector (d : vec3 T) : mat3 T :=
  zip3 (zip3 ssub) eye3 (map3 (fun di => map3 (fun dj => di * dj) d) d).

(** [focus_point_fn(poses)] *)
Definition focus_point_fn (poses : list (mat34 T)) : result (vec3 T) :=
  let m := map (fun p => axis_projector (zaxis p)) poses in
  let mt_m := map (fun mi => mm33 (transpose33 mi) mi) m in
  let mt_m_origins := map (fun p =>
        let mi := axis_projector (zaxis p) in
        mv33 (mm33 (transpose33 mi) mi) (trans p)) poses in
  minv <- inv3 (mean33 mt_m) ;;
  Ok (mv33 minv (mean3 mt_m_origins)).

(** *** [transform_poses_pca] *)

Inductive idx3 : Type := J0 | J1 | J2.
Definition get3 {A} (i : idx3) (v : vec3 A) : A :=
  match i with J0 => vx v | J1 => vy v | J2 => vz v end.
Definition tab3 {A} (f : idx3 -> A) : vec3 A := V3 (f J0) (f J1) (f J2).

(** [t.T @ t] for an (N,3) array [t] *)
Definition gram (t : list (vec3 T)) : mat3 T :=
  tab3 (fun i => tab3 (fun j => sum1 (map (fun v => get3 i v * get3 j v) t))).

(** [np.argsort(w)[::-1]] on three keys.  numpy sorts so short an array by
    insertion, each new index moving left past the strictly greater keys;
    the list is kept here in the reversed order, which is the result. *)
Fixpoint argsort_insert (key : idx3 -> T) (i : idx3) (revl : list idx3) : list idx3 :=
  match revl with
  | [] => [i]
  | k :: r =>
      if sltb (key i) (key k) then k :: argsort_insert key i r else i :: revl
  end.
Definition argsort_rev (w : vec3 T) : list idx3 :=
  fold_left (fun acc i => argsort_insert (fun j => get3 j w) i acc) [J0; J1; J2] [].

(** [eigvec[:, inds].T]: row [k] is the column [inds[k]] of [eigvec]. *)
Definition select_cols_T (inds : list idx3) (eigvec : mat3 T) : mat3 T :=
  let col k := get3 (nth k inds J0) (cols33 eigvec) in
  V3 (col 0%nat) (col 1%nat) (col 2%nat).

(** [np.concatenate([rot, col], -1)] *)
Definition hcat (rot : mat3 T) (col : vec3 T) : mat34 T :=
  zip3 (fun r c => V4 (vx r) (vy r) (vz r) c) rot col.

(** [p[:3, 3] *= k] *)
Definition scale_trans (k : T) (p : mat34 T) : mat34 T :=
  map3 (fun r => V4 (wx r) (wy r) (wz r) (ww r * k)) p.

(** [np.abs(poses[:, :3, 3])], flattened in numpy's order *)
Definition abs_translations (poses : list (mat34 T)) : list T :=
  flat_map (fun p => let t := trans p in [sabs (vx t); sabs (vy t); sabs (vz t)]) poses.

Section PCA.
(** [np.linalg.eig] is LAPACK's: the eigenvalues and, as columns, unit
    eigenvectors of its argument.  The model takes it as given. *)
Variable eig : mat3 T -> vec3 T * mat3 T.

(** [transform_poses_pca], up to the flip of its lines 287-289: the poses
    in the principal frame, not yet rescaled, and the transform so far.
    [transform] is 3x4 when it multiplies the padded poses, so the product
    is 3x4 and [unpad_poses] leaves it as it is. *)
Definition pca_align (poses : list (mat34 T)) : list (mat34 T) * mat4 T :=
  let t := map trans poses in
  let t_mean := mean3 t in
  let t := map (fun v => v3sub v t_mean) t in
  let '(eigval, eigvec) := eig (gram t) in
  let inds := argsort_rev eigval in
  let rot := select_cols_T inds eigvec in
  let rot := if sltb (det3 rot) 0 then mm33 (diag3 1 1 (sofZ (-1))) rot else rot in
  let transform := hcat rot (mv33 rot (v3opp t_mean)) in
  let poses_recentered := map (fun p => mm34_44 transform (pad_poses p)) poses in
  let transform := V4 (vx transform) (vy transform) (vz transform) (V4 0 0 0 1) in
  if sltb (mean1 (map (fun p => wy (vz p)) poses_recentered)) 0 then
    (map (mm33_34 (diag3 1 (sofZ (-1)) (sofZ (-1)))) poses_recentered,
     mm44 (diag4 1 (sofZ (-1)) (sofZ (-1)) 1) transform)
  else (poses_recentered, transform).

(** [transform_poses_pca(poses)] *)
Definition transform_poses_pca (poses : list (mat34 T))
  : result (list (mat34 T) * mat4 T) :=
  let '(poses_recentered, transform) := pca_align poses in
  m <- amax (abs_translations poses_recentered) ;;
  let scale_factor := 1 / m in
  let poses_recentered := map (scale_trans scale_factor) poses_recentered in
  let transform := mm44 (diag4 scale_factor scale_factor scale_factor 1) transform in
  Ok (poses_recentered, transform).
End PCA.

(** *** [integrate_weights_np], along the last axis *)

Fixpoint cumsum_from (acc : T) (l : list T) : list T :=
  match l with
  | [] => []
  | a :: l' => let s := acc + a in s :: cumsum_from s l'
  end.
(** [np.cumsum] *)
Definition cumsum (l : list T) : list T :=
  match l with
  | [] => []
  | a :: l' => a :: cumsum_from a l'
  end.

(** [integrate_weights_np(w)] *)
Definition integrate_weights_np (w : list T) : list T :=
  let cw := map (smin 1) (cumsum (removelast w)) in
  let cw0 := [0] ++ cw ++ [1] in
  cw0.

(** *** Views, and the conversion every generator starts with *)

Record View : Type := mkView {
  view_R : mat3 T;      (* view.R *)
  view_T : vec3 T;      (* view.T *)
  view_FoVx : T         (* view.FoVx *)
}.

(** [get_focal(camera)] *)
Definition get_focal (camera : View) : T :=
  let focal := view_FoVx camera in
  focal.

(** [m[:, 1:3] *= -1] on a 4x4 matrix *)
Definition flip_cols (m : mat4 T) : mat4 T :=
  map4 (fun r => V4 (wx r) (wy r * sofZ (-1)) (wz r * sofZ (-1)) (ww r)) m.
(** [m[:3, 1:3] *= -1]: the last row is left alone *)
Definition flip_cols_top (m : mat4 T) : mat4 T :=
  let f r := V4 (wx r) (wy r * sofZ (-1)) (wz r * sofZ (-1)) (ww r) in
  V4 (f (wx m)) (f (wy m)) (f (wz m)) (ww m).

(** The body of the loop over [views]. *)
Definition pose_of_view (view : View) : result (mat4 T) :=
  let tmp_view := pad_poses (hcat (transpose33 (view_R view)) (view_T view)) in
  tmp_view <- inv4 tmp_view ;;
  Ok (flip_cols tmp_view).

(** [np.stack(poses, 0)]: [ValueError] when there is nothing to stack. *)
Definition stack {A} (l : list A) : result (list A) :=
  match l with
  | [] => Raise ValueError
  | _ => Ok l
  end.

Definition poses_of_views (views : list View) : result (list (mat4 T)) :=
  poses <- mapM pose_of_view views ;;
  stack poses.

(** *** [generate_spiral_path] (the definition in force, at the end of the
    file): its focal depth, lines 565, 572 and 584.  [views[0]] is read
    inside the loop, so only when there is a view. *)
Definition spiral_focal (views : list View) : T :=
  let focal := fold_left (fun focal view => focal + get_focal (hd view views)) views 0 in
  focal / count views.

(** What the text says of it: the mean of [get_focal] over the views. *)
Definition mean_focal (views : list View) : T :=
  mean1 (map get_focal views).

(** *** [generate_ellipse_path], lines 354-367 *)

(** [np.sign] *)
Definition sign (a : T) : T :=
  if sltb a 0 then sofZ (-1)
  else if sltb 0 a then 1
  else if seqb a 0 then 0 else a.

(** [np.argmax] of three values: the first index of the greatest *)
Definition argmax3 (v : vec3 T) : idx3 :=
  let i := if sltb (vx v) (vy v) then J1 else J0 in
  if sltb (get3 i v) (vz v) then J2 else i.

(** Lines 355-358: the axis closest to the average up vector. *)
Definition ellipse_up (poses : list (mat34 T)) : vec3 T :=
  let avg_up := mean3 (map yaxis poses) in
  let n := norm avg_up in
  let avg_up := map3 (fun a => a / n) avg_up in
  let ind_up := argmax3 (map3 sabs avg_up) in
  v3scale (sign (get3 ind_up avg_up)) (get3 ind_up eye3).

(** The body of the loop over [positions], lines 362-366. *)
Definition ellipse_render_pose (transform : mat4 T) (center up p : vec3 T)
  : result (mat4 T) :=
  let render_pose := pad_poses (viewmatrix (v3sub p center) up p) in
  transform_inv <- inv4 transform ;;
  let render_pose := mm44 transform_inv render_pose in
  let render_pose := flip_cols_top render_pose in
  inv4 render_pose.

Section Ellipse.
Variable eig : mat3 T -> vec3 T * mat3 T.
(** Lines 320-352: the sample positions on the ellipse (percentile bounds,
    trigonometric interpolation, resampling at constant speed), computed
    from the recentered poses and the focus point for the given
    [n_frames], [const_speed], [z_variation] and [z_phase].  The model
    takes them as given: what is proved of the returned poses holds for
    any positions. *)
Variable ellipse_positions : list (mat34 T) -> vec3 T -> list (vec3 T).

(** [generate_ellipse_path(views, ...)] *)
Definition generate_ellipse_path (views : list View) : result (list (mat4 T)) :=
  poses <- poses_of_views views ;;
  ' (poses, transform) <- transform_poses_pca eig (map unpad_poses poses) ;;
  center <- focus_point_fn poses ;;
  let positions := ellipse_positions poses center in
  let up := ellipse_up poses in
  mapM (ellipse_render_pose transform center up) positions.
End Ellipse.

End Model.

(** ** [generate_spherify_path] *)

Class Trig (T : Type) : Type := {
  spi : T;             (* np.pi *)
  scos : T -> T;       (* np.cos *)
  ssin : T -> T        (* np.sin *)
}.

#[export] Instance RTrig : Trig R := {| spi := PI; scos := cos; ssin := sin |}.

Section Spherify.
Context {T : Type} `{Scalar T} `{Trig T}.
Local Open Scope sc_scope.

(** [np.linspace(start, stop, num)], endpoint included: [i * step + start],
    and [stop] itself at the end. *)
Definition linspace (start stop : T) (num : nat) : list T :=
  let step := (stop - start) / sofZ (Z.of_nat (num - 1)) in
  map (fun i => if Nat.eqb i (num - 1) then stop
                else sofZ (Z.of_nat i) * step + start)
      (seq 0 num).

(** [min_line_dist(rays_o, rays_d)], over the poses that hold both *)
Definition min_line_dist (poses : list (mat34 T)) : result (vec3 T) :=
  let A := map (fun p => axis_projector (zaxis p)) poses in
  let b := map (fun p => mv33 (map3 v3opp (axis_projector (zaxis p))) (trans p)) poses in
  m_inv <- inv3 (mean33 (map (fun A_i => mm33 (transpose33 A_i) A_i) A)) ;;
  Ok (mv33 (map3 v3opp m_inv) (mean3 b)).

(** Lines 371-416: the radius [rad] after rescaling, the height [zh] of
    the centroid and the radius [radcircle] of the orbit. *)
Definition spherify_orbit (views : list (@View T)) : result (T * T * T) :=
  poses <- poses_of_views views ;;
  let poses := map unpad_poses poses in
  pt_mindist <- min_line_dist poses ;;
  let center := pt_mindist in
  let up := mean3 (map (fun p => v3sub (trans p) center) poses) in
  let vec0 := normalize up in
  let vec1 := normalize (cross (V3 (1 / sofZ 10) (sofZ 2 / sofZ 10) (sofZ 3 / sofZ 10)) vec0) in
  let vec2 := normalize (cross vec0 vec1) in
  let pos := center in
  let c2w := stack_cols vec1 vec2 vec0 pos in
  c2w_inv <- inv4 (pad_poses c2w) ;;
  let poses_reset := map (fun p => unpad_poses (mm44 c2w_inv (pad_poses p))) poses in
  let rad := ssqrt (mean1 (map (fun p => dot3 (trans p) (trans p)) poses_reset)) in
  let sc := 1 / rad in
  let poses_reset := map (scale_trans sc) poses_reset in
  let rad := rad * sc in
  let centroid := mean3 (map trans poses_reset) in
  let zh := vz centroid in
  let radcircle := ssqrt (rad * rad - zh * zh) in
  Ok (rad, zh, radcircle).

(** The body of the loop over [th], lines 420-432. *)
Definition spherify_pose (radcircle zh th : T) : mat4 T :=
  let camorigin := V3 (radcircle * scos th) (radcircle * ssin th) zh in
  let up := V3 0 0 (sofZ (-1)) in
  let vec2 := normalize camorigin in
  let vec0 := normalize (cross vec2 up) in
  let vec1 := normalize (cross vec2 vec0) in
  let pos := camorigin in
  let p := stack_cols vec0 vec1 vec2 pos in
  pad_poses p.

(** [generate_spherify_path(views)] *)
Definition generate_spherify_path (views : list (@View T)) : result (list (mat4 T)) :=
  ' (rad, zh, radcircle) <- spherify_orbit views ;;
  Ok (map (spherify_pose radcircle zh) (linspace 0 (sofZ 2 * spi) 120)).

End Spherify.

(** ** The other functions of the file *)

(** [np.exp] *)
Class Exp (T : Type) : Type := { sexp : T -> T }.

#[export] Instance RExp : Exp R := {| sexp := exp |}.

Section Paths.
Context {T : Type} `{Scalar T} `{Trig T} `{Exp T}.
Local Open Scope sc_scope.

(** [recenter_poses(poses)] *)
Definition recenter_poses (poses : list (mat34 T))
  : result (list (mat34 T) * mat4 T) :=
  let cam2world := average_pose poses in
  transform <- inv4 (pad_poses cam2world) ;;
  let poses := map (fun p => mm44 transform (pad_poses p)) poses in
  Ok (map unpad_poses poses, transform).

(** [poses_avg(poses)], on the stack of 4x4 poses that the generators pass.
    The result is 3x5: the 3x4 matrix of [viewmatrix] and the column [hwf],
    kept here as a pair.  [None] is the [IndexError] of [poses[0]] when
    there is no pose. *)
Definition poses_avg (poses : list (mat4 T)) : option (mat34 T * vec3 T) :=
  match poses with
  | [] => None
  | p0 :: _ =>
      let hwf := trans (unpad_poses p0) in
      let center := mean3 (map (fun p => trans (unpad_poses p)) poses) in
      let vec2 := normalize (sum3 (map (fun p => zaxis (unpad_poses p)) poses)) in
      let up := sum3 (map (fun p => yaxis (unpad_poses p)) poses) in
      Some (viewmatrix vec2 up center, hwf)
  end.

(** [poses_avg_fixed_center(poses)] *)
Definition poses_avg_fixed_center (poses : list (mat4 T)) : option (mat34 T * vec3 T) :=
  match poses with
  | [] => None
  | p0 :: _ =>
      let hwf := trans (unpad_poses p0) in
      let center := mean3 (map (fun p => trans (unpad_poses p)) poses) in
      let vec2 := V3 1 0 0 in
      let up := V3 0 0 1 in
      Some (viewmatrix vec2 up center, hwf)
  end.

Section Rotation.
Import Ascii String.
Local Open Scope string_scope.

(** [get_rotation_matrix(axis, angle)].  [axis.lower()] acts here on the
    letters [A]-[Z]; no other character has [x], [y] or [z] as its lower
    case. *)
Definition lower_ascii (c : ascii) : ascii :=
  let n := nat_of_ascii c in
  if Nat.leb 65 n && Nat.leb n 90 then ascii_of_nat (n + 32) else c.
Fixpoint lower (s : string) : string :=
  match s with
  | EmptyString => EmptyString
  | String c s' => String (lower_ascii c) (lower s')
  end.

Definition get_rotation_matrix (axis : string) (angle : T) : result (mat3 T) :=
  let axis := lower axis in
  let cos_angle := scos angle in
  let sin_angle := ssin angle in
  if String.eqb axis "x" then
    Ok (V3 (V3 1 0 0)
           (V3 0 cos_angle (- sin_angle))
           (V3 0 sin_angle cos_angle))
  else if String.eqb axis "y" then
    Ok (V3 (V3 cos_angle 0 sin_angle)
           (V3 0 1 0)
           (V3 (- sin_angle) 0 cos_angle))
  else if String.eqb axis "z" then
    Ok (V3 (V3 cos_angle (- sin_angle) 0)
           (V3 sin_angle cos_angle 0)
           (V3 0 0 1))
  else Raise ValueError.

(** The names that [get_rotation_matrix] takes for an axis. *)
Definition accepted_axes : list string := ["x"; "X"; "y"; "Y"; "z"; "Z"].

(** The rotation that [gaussian_poses] composes from three angles:
    [np.matmul(rot_z, np.matmul(rot_y, rot_x))]. *)
Definition combined_rot (angle_x angle_y angle_z : T) : result (mat3 T) :=
  rot_x <- get_rotation_matrix "x" angle_x ;;
  rot_y <- get_rotation_matrix "y" angle_y ;;
  rot_z <- get_rotation_matrix "z" angle_z ;;
  Ok (mm33 rot_z (mm33 rot_y rot_x)).
End Rotation.

(** [np.linspace(start, stop, num)] as numpy computes it: [i * step + start]
    (or [i / div * delta + start] when the step is zero), then [stop] written
    over the last entry when there are at least two. *)
Definition np_linspace (start stop : T) (num : nat) : list T :=
  let div := (num - 1)%nat in
  let delta := stop - start in
  let step := delta / sofZ (Z.of_nat div) in
  map (fun i =>
         if Nat.ltb 1 num && Nat.eqb i (num - 1) then stop
         else if Nat.ltb 0 div then
           (if seqb step 0 then sofZ (Z.of_nat i) / sofZ (Z.of_nat div) * delta
            else sofZ (Z.of_nat i) * step) + start
         else sofZ (Z.of_nat i) * delta + start)
      (seq 0 num).

(** A point in homogeneous coordinates: [np.array([x, y, z, 1.0])] *)
Definition hom (p : vec3 T) : vec4 T := V4 (vx p) (vy p) (vz p) 1.

(** [np.dot(c2w[:3, :4], v)] *)
Definition mv34 (m : mat34 T) (v : vec4 T) : vec3 T := map3 (fun r => dot4 r v) m.

(** The last four lines of the loop body of the spiral and spherical
    generators: the pose [viewmatrix(z, up, c)] padded, its second and third
    columns negated, inverted. *)
Definition look_at (z up c : vec3 T) : result (mat4 T) :=
  let render_pose := pad_poses (viewmatrix z up c) in
  let render_pose := flip_cols_top render_pose in
  inv4 render_pose.

(** The body of the loop over [theta] in [generate_spiral_path] and
    [render_path_spiral]. *)
Definition spiral_render_pose (c2w : mat34 T) (up : vec3 T) (rads : vec4 T)
    (focal zrate theta : T) : result (mat4 T) :=
  let c := mv34 c2w (zip4 smul
                       (V4 (scos theta) (- ssin theta) (- ssin (theta * zrate)) 1)
                       rads) in
  let z := normalize (v3sub c (mv34 c2w (V4 0 0 (- focal) 1))) in
  look_at z up c.

(** The body of the inner loop of [generate_spherical_sample_path]. *)
Definition spherical_render_pose (c2w : mat34 T) (up : vec3 T) (rads : vec4 T)
    (focal theta phi : T) : result (mat4 T) :=
  let c := mv34 c2w (zip4 smul rads
                       (V4 (ssin phi * scos theta) (ssin phi * ssin theta)
                           (scos phi) 1)) in
  let z := normalize (v3sub c (mv34 c2w (V4 0 0 (- focal) 1))) in
  look_at z up c.

Section Spiral.
(** [np.percentile(a, 90, 0)] of an (N,3) array: taken as given. *)
Variable percentile90 : list (vec3 T) -> vec3 T.

(** [rads = np.array(list(np.percentile(np.abs(poses[:, :3, 3]), 90, 0)) + [1.0])] *)
Definition spiral_rads (poses : list (mat4 T)) : vec4 T :=
  let rads := percentile90 (map (fun p => map3 sabs (trans (unpad_poses p))) poses) in
  V4 (vx rads) (vy rads) (vz rads) 1.

(** [np.linspace(0.0, stop, N + 1)[:-1]], the angles of a loop *)
Definition angles (stop : T) (N : nat) : list T :=
  removelast (np_linspace 0 stop (N + 1)).

(** [render_path_spiral(views, focal, zrate, rots, N)].  [poses_avg] reads
    [poses[0]] of the stack, which has a pose once [np.stack] has returned. *)
Definition render_path_spiral (views : list View) (focal zrate rots : T) (N : nat)
  : result (list (mat4 T)) :=
  poses <- poses_of_views views ;;
  match poses_avg poses with
  | None => Raise ValueError   (* not reached: [np.stack] has raised on no pose *)
  | Some (c2w, _) =>
      let up := normalize (sum3 (map (fun p => yaxis (unpad_poses p)) poses)) in
      let rads := spiral_rads poses in
      mapM (spiral_render_pose c2w up rads focal zrate)
           (angles (sofZ 2 * spi * rots) N)
  end.

(** [generate_spiral_path(views, focal, zrate, rots, N)], the definition in
    force.  The argument [focal] is overwritten at line 565 before it is
    read. *)
Definition generate_spiral_path (views : list View) (focal zrate rots : T) (N : nat)
  : result (list (mat4 T)) :=
  poses <- poses_of_views views ;;
  match poses_avg poses with
  | None => Raise ValueError   (* not reached: [np.stack] has raised on no pose *)
  | Some (c2w, _) =>
      let up := normalize (sum3 (map (fun p => yaxis (unpad_poses p)) poses)) in
      let rads := spiral_rads poses in
      let focal := spiral_focal views in
      mapM (spiral_render_pose c2w up rads focal zrate)
           (angles (sofZ 2 * spi * rots) N)
  end.

(** [generate_spherical_sample_path(views, azimuthal_rots, polar_rots, N)]:
    [index] counts the pairs [(theta, phi)] in the order of the two loops. *)
Definition generate_spherical_sample_path (views : list View)
    (azimuthal_rots polar_rots : T) (N : nat) : result (list (mat4 T)) :=
  poses <- poses_of_views views ;;
  match poses_avg poses with
  | None => Raise ValueError   (* not reached: [np.stack] has raised on no pose *)
  | Some (c2w, _) =>
      let up := normalize (sum3 (map (fun p => yaxis (unpad_poses p)) poses)) in
      let rads := spiral_rads poses in
      let focal_range := np_linspace (1 / sofZ 2) (sofZ 3) (N * N + 1) in
      let thetas := angles (sofZ 2 * spi * azimuthal_rots) N in
      let phis := angles (spi * polar_rots) N in
      mapM (fun '(index, (theta, phi)) =>
              spherical_render_pose c2w up rads (nth index focal_range 0) theta phi)
           (combine (seq 0 (length thetas * length phis)) (list_prod thetas phis))
  end.
End Spiral.

(** [np.exp(w_logits) / np.exp(w_logits).sum(axis=-1, keepdims=True)],
    the weights of [invert_cdf_np] *)
Definition softmax (w_logits : list T) : list T :=
  let e := map sexp w_logits in
  map (fun a => a / sum1 e) e.

(** [np.finfo(np.float32).eps], which is 2^-23 *)
Definition eps32 : T := 1 / sofZ 8388608.

(** Lines 90-104 of [sample_np]: the quantiles [u], along the last axis.
    [noise] stands for the [d] numbers that [np.random.rand] draws, one when
    [single_jitter] is set and [num_samples] otherwise.  [None] is the
    [ZeroDivisionError] of line 93 when [num_samples] is 0. *)
Definition sample_u (rand : bool) (noise : list T) (num_samples : nat)
    (single_jitter deterministic_center : bool) : option (list T) :=
  let eps := eps32 in
  if negb rand then
    if deterministic_center then
      match num_samples with
      | O => None
      | _ =>
          let pad := 1 / sofZ (2 * Z.of_nat num_samples) in
          Some (np_linspace pad (1 - pad - eps) num_samples)
      end
    else Some (np_linspace 0 (1 - eps) num_samples)
  else
    let u_max := eps + (1 - eps) / sofZ (Z.of_nat num_samples) in
    let max_jitter := (1 - u_max) / sofZ (Z.of_nat num_samples - 1) - eps in
    let base := np_linspace 0 (1 - u_max) num_samples in
    if single_jitter then
      Some (map (fun b => b + hd 0 noise * max_jitter) base)
    else Some (map (fun '(b, r) => b + r * max_jitter) (combine base noise)).

Section Sampling.
(** [np.interp(u, cw, t)]: taken as given. *)
Variable interp : list T -> list T -> list T -> list T.

(** [invert_cdf_np(u, t, w_logits)] *)
Definition invert_cdf_np (u t w_logits : list T) : list T :=
  let w := softmax w_logits in
  let cw := integrate_weights_np w in
  let t_new := interp u cw t in
  t_new.

(** [sample_np(rand, t, w_logits, num_samples, single_jitter,
    deterministic_center)] *)
Definition sample_np (rand : bool) (noise t w_logits : list T) (num_samples : nat)
    (single_jitter deterministic_center : bool) : option (list T) :=
  match sample_u rand noise num_samples single_jitter deterministic_center with
  | None => None
  | Some u => Some (invert_cdf_np u t w_logits)
  end.
End Sampling.

End Paths.

(** ** Inputs used in examples *)

Section Rig.
Context {T : Type} `{Scalar T}.
Local Open Scope sc_scope.

(** What [np.linalg.eig] returns on a diagonal matrix: the diagonal, and
    the identity as eigenvectors. *)
Definition eig_diag (m : mat3 T) : vec3 T * mat3 T :=
  (V3 (vx (vx m)) (vy (vy m)) (vz (vz m)), eye3).

(** Two poses with identity rotation, at [(a,0,0)] and [(-a,0,0)]. *)
Definition axis_pair (a : T) : list (mat34 T) :=
  [ V3 (V4 1 0 0 a) (V4 0 1 0 0) (V4 0 0 1 0);
    V3 (V4 1 0 0 (- a)) (V4 0 1 0 0) (V4 0 0 1 0) ].

Definition ratio (a b : Z) : T := sofZ a / sofZ b.

(** Two views whose cameras sit at [(2,0,0)] and [(-2,0,0)], up along
    [y], with viewing axes [(3/5,0,4/5)] and [(-3/5,0,4/5)]; the axes meet
    at [(0,0,-8/3)].  [FoVx] is 1 for the first and 3 for the second. *)
Definition rig_views : list View :=
  [ mkView (V3 (V3 (ratio 4 5) 0 (ratio (-3) 5))
               (V3 0 (sofZ (-1)) 0)
               (V3 (ratio (-3) 5) 0 (ratio (-4) 5)))
           (V3 (ratio (-8) 5) 0 (ratio 6 5)) 1;
    mkView (V3 (V3 (ratio 4 5) 0 (ratio 3 5))
               (V3 0 (sofZ (-1)) 0)
               (V3 (ratio 3 5) 0 (ratio (-4) 5)))
           (V3 (ratio 8 5) 0 (ratio 6 5)) (sofZ 3) ].

(** The poses [poses_of_views] makes of them. *)
Definition rig_poses : list (mat4 T) :=
  [ V4 (V4 (ratio 4 5) 0 (ratio 3 5) (sofZ 2))
       (V4 0 1 0 0)
       (V4 (ratio (-3) 5) 0 (ratio 4 5) 0)
       (V4 0 0 0 1);
    V4 (V4 (ratio 4 5) 0 (ratio (-3) 5) (sofZ (-2)))
       (V4 0 1 0 0)
       (V4 (ratio 3 5) 0 (ratio 4 5) 0)
       (V4 0 0 0 1) ].

(** Four cameras at the corners of the unit square of the plane [z = 0],
    each built by [viewmatrix] to look at the origin: its viewing axis
    (the camera looks along its own -Z) is the direction from the origin
    to the camera. *)
Definition square_pose (x y : T) : mat34 T :=
  viewmatrix (V3 x y 0) (V3 0 0 1) (V3 x y 0).
Definition square_poses : list (mat34 T) :=
  [ square_pose (ratio 1 2) (ratio 1 2);
    square_pose (ratio (-1) 2) (ratio 1 2);
    square_pose (ratio (-1) 2) (ratio (-1) 2);
    square_pose (ratio 1 2) (ratio (-1) 2) ].
End Rig.

(** ** Vocabulary of the statements *)

Definition zero3 : vec3 R := V3 0%R 0%R 0%R.

(** The columns of [m] are unit vectors, orthogonal to each other. *)
Definition orthonormal_cols (m : mat3 R) : Prop :=
  let c := cols33 m in
  dot3 (vx c) (vx c) = 1%R /\ dot3 (vy c) (vy c) = 1%R /\ dot3 (vz c) (vz c) = 1%R /\
  dot3 (vx c) (vy c) = 0%R /\ dot3 (vx c) (vz c) = 0%R /\ dot3 (vy c) (vz c) = 0%R.

(** [m.T @ m]: the matrix of the dot products of the columns of [m]. *)
Definition gram_cols (m : mat3 R) : mat3 R := mm33 (transpose33 m) m.

Definition m3scale (k : R) (m : mat3 R) : mat3 R := map3 (v3scale k) m.

(** The pose [[A | b]] applied to a pose [p]: [[A | b] @ pad_poses(p)]. *)
Definition affine (A : mat3 R) (b : vec3 R) (p : mat34 R) : mat34 R :=
  mm34_44 (hcat A b) (pad_poses p).

Definition adj3 (m : mat3 R) : mat3 R :=
  let '(V3 (V3 a b c) (V3 d e f) (V3 g h i)) := m in
  V3 (V3 (e * i - f * h)%R (c * h - b * i)%R (b * f - c * e)%R)
     (V3 (f * g - d * i)%R (a * i - c * g)%R (c * d - a * f)%R)
     (V3 (d * h - e * g)%R (b * g - a * h)%R (a * e - b * d)%R).
Definition adj4 (m : mat4 R) : mat4 R :=
  tab4 (fun i => tab4 (fun j => cofactor4 m j i)).

Definition nondecreasing (l : list R) : Prop :=
  forall i j, (i <= j < length l)%nat -> (nth i l 0 <= nth j l 0)%R.

Definition nan34 : mat34 float :=
  V3 (V4 nan nan nan nan) (V4 nan nan nan nan) (V4 nan nan nan nan).
Definition nan33 : mat3 float :=
  V3 (V3 nan nan nan) (V3 nan nan nan) (V3 nan nan nan).

(** Two views whose cameras sit on the third axis, at [(0,0,5)] and
    [(0,0,5 (1 + 2^-30))], and look along it: the viewing axes are
    [(0, e1, 1)] and [(0, -e2, 1)] with [e1 = 5 (1 + 2^-30) 2^-32] and
    [e2 = 5 * 2^-32], about 1.2e-9.  [T] is [- R.T @ position]; its second
    entry is [25 (1 + 2^-30) 2^-32] up to sign. *)
Definition coaxial_views : list (@View float) :=
  [ mkView (V3 (V3 1 0 0)
               (V3 0 (-1) (-0x1.40000005p-30))
               (V3 0 0x1.40000005p-30 (-1)))
           (V3 0 (-0x1.900000064p-28) 5) 1;
    mkView (V3 (V3 1 0 0)
               (V3 0 (-1) 0x1.4p-30)
               (V3 0 (-0x1.4p-30) (-1)))
           (V3 0 0x1.900000064p-28 0x1.40000005p+2) 1 ]%float.

Local Open Scope R_scope.

(** The inverse of a padded pose with orthonormal rotation block. *)
Definition rigid_inverse (v : mat34 R) : mat4 R :=
  let vt := transpose33 (rot_block v) in
  pad_poses (hcat vt (v3opp (mv33 vt (trans v)))).


(** The poses of [rig_views] in the principal frame, before and after the
    rescaling, and the transform returned with them. *)
Definition rig_aligned : list (mat34 R) :=
  [ V3 (V4 (4 / 5) 0 (3 / 5) 2) (V4 (3 / 5) 0 (-4 / 5) 0) (V4 0 1 0 0);
    V3 (V4 (4 / 5) 0 (-3 / 5) (-2)) (V4 (-3 / 5) 0 (-4 / 5) 0) (V4 0 1 0 0) ].

Definition rig_recentered : list (mat34 R) :=
  [ V3 (V4 (4 / 5) 0 (3 / 5) 1) (V4 (3 / 5) 0 (-4 / 5) 0) (V4 0 1 0 0);
    V3 (V4 (4 / 5) 0 (-3 / 5) (-1)) (V4 (-3 / 5) 0 (-4 / 5) 0) (V4 0 1 0 0) ].

Definition rig_transform : mat4 R :=
  V4 (V4 (1 / 2) 0 0 0) (V4 0 0 (-1 / 2) 0) (V4 0 (1 / 2) 0 0) (V4 0 0 0 1).

Unset Implicit Arguments.

(** ** Exact arithmetic: unfolding and small facts *)

(** Unfold the matrix operators down to real arithmetic. *)
Ltac vunf :=
  cbv [map3 map4 zip3 zip4 cols33 cols34 cols44 stack_cols rot_block dot3 dot4
       cross v3add v3sub v3scale v3opp mv33 mm33 mm33_34 mm34_44 mm44
       transpose33 diag3 diag4 eye3 eye4 det3 det4 cofactor4 minor4 drop4 tab4
       tab3 get3 odd4 xorb adj3 adj4 m3scale affine gram_cols axis_projector
       yaxis zaxis trans pad_poses unpad_poses hcat scale_trans flip_cols
       flip_cols_top zero3 ratio vx vy vz wx wy wz ww
       sofZ sadd ssub smul sdiv sopp sabs ssqrt smax smin sltb seqb RScalar] in *.

Lemma V3_eq {A} (a a' b b' c c' : A) :
  a = a' -> b = b' -> c = c' -> V3 a b c = V3 a' b' c'.
Proof. congruence. Qed.

Lemma V4_eq {A} (a a' b b' c c' d d' : A) :
  a = a' -> b = b' -> c = c' -> d = d' -> V4 a b c d = V4 a' b' c' d'.
Proof. congruence. Qed.

(** Equality of vectors and matrices, entry by entry. *)
Ltac vec_eq := repeat first [apply V3_eq | apply V4_eq].

Lemma Reqb_false x y : x <> y -> Reqb x y = false.
Proof. intros Hxy. unfold Reqb. now destruct (Req_dec_T x y). Qed.

Lemma Rltb_true x y : x < y -> Rltb x y = true.
Proof. intros Hxy. unfold Rltb. destruct (Rlt_dec x y); [reflexivity | contradiction]. Qed.

Lemma Rltb_false x y : y <= x -> Rltb x y = false.
Proof. intros Hxy. unfold Rltb. destruct (Rlt_dec x y); [lra | reflexivity]. Qed.

Lemma vec3_eta {A} (v : vec3 A) : V3 (vx v) (vy v) (vz v) = v.
Proof. now destruct v. Qed.

(** *** Norms and [normalize] *)

Lemma dot3_self_nonneg (v : vec3 R) : 0 <= dot3 v v.
Proof. destruct v; vunf. nra. Qed.

Lemma dot3_self_pos (v : vec3 R) : v <> zero3 -> 0 < dot3 v v.
Proof.
  destruct v as [a b c]; vunf; intros Hv.
  destruct (Req_dec a 0) as [->|]; [|nra].
  destruct (Req_dec b 0) as [->|]; [|nra].
  destruct (Req_dec c 0) as [->|]; [|nra].
  now contradiction Hv.
Qed.

Lemma norm_pos (v : vec3 R) : v <> zero3 -> 0 < norm v.
Proof.
  intros Hv. unfold norm; cbn [ssqrt RScalar].
  apply sqrt_lt_R0. now apply dot3_self_pos.
Qed.

Lemma norm_sqr (v : vec3 R) : norm v * norm v = dot3 v v.
Proof. unfold norm; cbn [ssqrt RScalar]. apply sqrt_sqrt, dot3_self_nonneg. Qed.

Lemma normalize_as_scale (v : vec3 R) : normalize v = v3scale (/ norm v) v.
Proof. now destruct v. Qed.

Lemma normalize_unit (v : vec3 R) :
  v <> zero3 -> dot3 (normalize v) (normalize v) = 1.
Proof.
  intros Hv. pose proof (norm_pos v Hv) as Hn. pose proof (norm_sqr v) as Hs.
  rewrite normalize_as_scale. set (n := norm v) in *. clearbody n.
  destruct v as [a b c]; vunf.
  replace (a * / n * (a * / n) + b * / n * (b * / n) + c * / n * (c * / n))
    with ((a * a + b * b + c * c) / (n * n)) by (field; lra).
  rewrite <- Hs. field. lra.
Qed.

Lemma normalize_of_unit (v : vec3 R) : dot3 v v = 1 -> normalize v = v.
Proof.
  intros Hv. unfold normalize, norm. rewrite Hv. cbn [ssqrt RScalar].
  rewrite sqrt_1. destruct v; vunf. vec_eq; field.
Qed.

Lemma norm_scale (k : R) (v : vec3 R) : 0 <= k -> norm (v3scale k v) = k * norm v.
Proof.
  intros Hk. unfold norm. cbn [ssqrt RScalar].
  replace (dot3 (v3scale k v) (v3scale k v)) with (k * k * dot3 v v)
    by (destruct v; vunf; ring).
  rewrite sqrt_mult_alt by nra. now rewrite sqrt_square by lra.
Qed.

Lemma normalize_scale (k : R) (v : vec3 R) :
  0 < k -> v <> zero3 -> normalize (v3scale k v) = normalize v.
Proof.
  intros Hk Hv. pose proof (norm_pos v Hv) as Hn.
  rewrite !normalize_as_scale, norm_scale by lra.
  set (n := norm v) in *. clearbody n.
  destruct v; vunf. vec_eq; field; lra.
Qed.

Lemma cross_scale_l k (u v : vec3 R) : cross (v3scale k u) v = v3scale k (cross u v).
Proof. destruct u, v; vunf. vec_eq; ring. Qed.

Lemma cross_scale_r k (u v : vec3 R) : cross u (v3scale k v) = v3scale k (cross u v).
Proof. destruct u, v; vunf. vec_eq; ring. Qed.

Lemma v3scale_nonzero k (v : vec3 R) : k <> 0 -> v <> zero3 -> v3scale k v <> zero3.
Proof.
  intros Hk Hv E. apply Hv. destruct v as [a b c]; vunf.
  injection E as E1 E2 E3. vec_eq; nra.
Qed.

Lemma cross_nonzero_r (u v : vec3 R) : cross u v <> zero3 -> v <> zero3.
Proof. intros Hc ->. apply Hc. destruct u; vunf. vec_eq; ring. Qed.

Lemma cross_nonzero_l (u v : vec3 R) : cross u v <> zero3 -> u <> zero3.
Proof. intros Hc ->. apply Hc. destruct v; vunf. vec_eq; ring. Qed.

(** Two orthogonal unit vectors [v0], [v2] and [v2 x v0] make a
    right-handed orthonormal frame. *)
Lemma frame_of_units (v0 v2 : vec3 R) :
  dot3 v0 v0 = 1 -> dot3 v2 v2 = 1 -> dot3 v0 v2 = 0 ->
  let v1 := cross v2 v0 in
  dot3 v1 v1 = 1 /\ dot3 v0 v1 = 0 /\ dot3 v1 v2 = 0 /\
  det3 (V3 (V3 (vx v0) (vx v1) (vx v2))
           (V3 (vy v0) (vy v1) (vy v2))
           (V3 (vz v0) (vz v1) (vz v2))) = 1.
Proof.
  destruct v0 as [a b c], v2 as [d e f]; vunf. intros H0 H2 H02.
  assert (L : (d*d + e*e + f*f) * (a*a + b*b + c*c)
              - (a*d + b*e + c*f) * (a*d + b*e + c*f) = 1)
    by (rewrite H0, H2, H02; ring).
  repeat split; try ring; rewrite <- L; ring.
Qed.

(** The frame [viewmatrix] builds, when the up hint is not along [z]. *)
Lemma viewmatrix_frame (z up : vec3 R) :
  cross up z <> zero3 ->
  let vec2 := normalize z in
  let vec0 := normalize (cross up vec2) in
  let vec1 := cross vec2 vec0 in
  dot3 vec0 vec0 = 1 /\ dot3 vec2 vec2 = 1 /\ dot3 vec0 vec2 = 0 /\
  normalize vec1 = vec1 /\ cross up vec2 <> zero3.
Proof.
  intros Hc. cbv zeta.
  assert (Hz : z <> zero3) by (eapply cross_nonzero_r; eauto).
  pose proof (norm_pos z Hz) as Hnz.
  assert (Hc0 : cross up (normalize z) <> zero3).
  { rewrite normalize_as_scale, cross_scale_r. apply v3scale_nonzero; auto.
    apply Rinv_neq_0_compat; lra. }
  pose proof (normalize_unit z Hz) as H2.
  pose proof (normalize_unit _ Hc0) as H0.
  assert (H02 : dot3 (normalize (cross up (normalize z))) (normalize z) = 0).
  { rewrite (normalize_as_scale (cross _ _)).
    destruct (normalize z) as [d e f], up as [a b c]; vunf. ring. }
  destruct (frame_of_units _ _ H0 H2 H02) as (H1 & _).
  repeat split; auto using normalize_of_unit.
Qed.

(** The rotation block of [viewmatrix]: orthonormal and right-handed. *)
Lemma viewmatrix_rotation (z up pos : vec3 R) :
  cross up z <> zero3 ->
  orthonormal_cols (rot_block (viewmatrix z up pos))
  /\ det3 (rot_block (viewmatrix z up pos)) = 1.
Proof.
  intros Hc.
  destruct (viewmatrix_frame z up Hc) as (H0 & H2 & H02 & Hn1 & Hc0).
  destruct (frame_of_units _ _ H0 H2 H02) as (H1 & H01 & H12 & Hdet).
  unfold viewmatrix. rewrite Hn1. split.
  - unfold orthonormal_cols.
    unfold rot_block, stack_cols, cols33, map3. cbn [vx vy vz wx wy wz].
    rewrite !vec3_eta. tauto.
  - exact Hdet.
Qed.

(** ** [viewmatrix] *)

(** C3.  For a forward vector [z] and an up hint [up] that are non-zero
    and not parallel ([up x z <> 0]), the rotation block of
    [viewmatrix z up pos] has orthonormal columns and determinant 1; its
    up axis is the normalised component of [up] orthogonal to the forward
    axis; and rescaling [z] and [up] by positive factors leaves the
    matrix unchanged. *)
Theorem viewmatrix_orthonormal (z up pos : vec3 R) :
  cross up z <> zero3 ->
  let m := rot_block (viewmatrix z up pos) in
  orthonormal_cols m /\ det3 m = 1
  /\ yaxis (viewmatrix z up pos)
     = normalize (v3sub up (v3scale (dot3 up (normalize z)) (normalize z)))
  /\ zaxis (viewmatrix z up pos) = normalize z
  /\ (forall a b, 0 < a -> 0 < b ->
        viewmatrix (v3scale a z) (v3scale b up) pos = viewmatrix z up pos).
Proof.
  intros Hc.
  assert (Hz : z <> zero3) by (eapply cross_nonzero_r; eauto).
  destruct (viewmatrix_frame z up Hc) as (H0 & H2 & H02 & Hn1 & Hc0).
  destruct (frame_of_units _ _ H0 H2 H02) as (H1 & H01 & H12 & Hdet).
  cbv zeta.
  split; [apply (viewmatrix_rotation z up pos Hc)|].
  split; [apply (viewmatrix_rotation z up pos Hc)|].
  unfold viewmatrix. rewrite Hn1.
  split; [|split].
  - replace (yaxis (stack_cols _ _ _ pos)) with
      (cross (normalize z) (normalize (cross up (normalize z))))
      by (destruct (cross (normalize z) _), pos; reflexivity).
    set (v2 := normalize z) in *.
    set (P := v3sub up (v3scale (dot3 up v2) v2)).
    assert (HP : P = v3sub (v3scale (dot3 v2 v2) up) (v3scale (dot3 up v2) v2)).
    { rewrite H2. subst P. destruct up, v2; vunf. vec_eq; ring. }
    assert (HPn : norm P = norm (cross up v2)).
    { unfold norm. f_equal.
      transitivity (dot3 v2 v2 * dot3 (cross up v2) (cross up v2)).
      - rewrite HP. destruct up, v2; vunf. ring.
      - rewrite H2. vunf. ring. }
    rewrite (normalize_as_scale P), HPn, normalize_as_scale, cross_scale_r.
    f_equal. rewrite HP. destruct up, v2; vunf. vec_eq; ring.
  - destruct (normalize z); reflexivity.
  - intros a b Ha Hb. rewrite normalize_scale by auto. rewrite cross_scale_l.
    rewrite normalize_scale by auto. now rewrite Hn1.
Qed.

(** C3 at [z = (0,0,1)], [up = (0,1,0)]. *)
Lemma viewmatrix_orthonormal_witness :
  cross (V3 0 1 0) (V3 0 0 1) <> zero3 /\
  det3 (rot_block (viewmatrix (V3 0 0 1) (V3 0 1 0) zero3)) = 1.
Proof.
  assert (Hc : cross (V3 0 1 0) (V3 0 0 1) <> zero3).
  { vunf. intros E. injection E as E. lra. }
  split; [exact Hc|].
  exact (proj1 (proj2 (viewmatrix_orthonormal (V3 0 0 1) (V3 0 1 0) zero3 Hc))).
Defined.

(** ** [integrate_weights_np] *)

Lemma cumsum_from_ge (acc : R) (l : list R) :
  Forall (fun a => 0 <= a) l -> Forall (fun c => acc <= c) (cumsum_from acc l).
Proof.
  revert acc. induction l as [|a l IH]; intros acc Hl; cbn [cumsum_from].
  - constructor.
  - inversion Hl as [|? ? Ha Hl']; subst. cbn [sadd RScalar].
    constructor; [lra|].
    eapply Forall_impl; [|apply IH, Hl']. cbn beta. intros c Hc. lra.
Qed.

Lemma cumsum_from_sorted (acc : R) (l : list R) :
  Forall (fun a => 0 <= a) l -> StronglySorted Rle (cumsum_from acc l).
Proof.
  revert acc. induction l as [|a l IH]; intros acc Hl; cbn [cumsum_from].
  - constructor.
  - inversion Hl as [|? ? Ha Hl']; subst.
    constructor; [now apply IH | now apply cumsum_from_ge].
Qed.

Lemma cumsum_sorted (l : list R) :
  Forall (fun a => 0 <= a) l ->
  StronglySorted Rle (cumsum l) /\ Forall (fun c => 0 <= c) (cumsum l).
Proof.
  destruct l as [|a l]; intros Hl; cbn [cumsum].
  - split; constructor.
  - inversion Hl as [|? ? Ha Hl']; subst.
    pose proof (cumsum_from_ge a l Hl') as Hge.
    split; constructor; auto using cumsum_from_sorted.
    eapply Forall_impl; [|exact Hge]. cbn beta. intros c Hc. lra.
Qed.

Lemma clamp_sorted (l : list R) :
  StronglySorted Rle l -> StronglySorted Rle (map (Rmin 1) l).
Proof.
  induction 1 as [|a l Hs IH Ha]; cbn [map]; constructor; auto.
  rewrite Forall_map. eapply Forall_impl; [|exact Ha]. cbn beta.
  intros c Hc. apply Rle_min_compat_l, Hc.
Qed.

Lemma sorted_snoc (l : list R) (b : R) :
  StronglySorted Rle l -> Forall (fun c => c <= b) l -> StronglySorted Rle (l ++ [b]).
Proof.
  induction 1 as [|a l Hs IH Ha]; intros Hb; cbn [app].
  - repeat constructor.
  - inversion Hb as [|? ? Hab Hb']; subst.
    constructor; auto. apply Forall_app. split; auto.
Qed.

Lemma sorted_nondecreasing (l : list R) : StronglySorted Rle l -> nondecreasing l.
Proof.
  induction 1 as [|a l Hs IH Ha]; intros i j Hij; cbn [length] in Hij.
  - lia.
  - destruct i as [|i], j as [|j]; cbn [nth]; try lia.
    + lra.
    + rewrite Forall_forall in Ha. apply Ha, nth_In. lia.
    + apply IH. lia.
Qed.

Lemma removelast_Forall {A} (P : A -> Prop) (l : list A) :
  Forall P l -> Forall P (removelast l).
Proof.
  induction 1 as [|a l Ha Hl IH]; cbn [removelast]; [constructor|].
  destruct l; [constructor|]. constructor; auto.
Qed.

Lemma removelast_length {A} (l : list A) :
  l <> [] -> S (length (removelast l)) = length l.
Proof.
  induction l as [|a l IH]; intros Hl; [congruence|].
  cbn [removelast]. destruct l as [|b l]; [reflexivity|].
  cbn [length] in *. f_equal. apply IH. discriminate.
Qed.

Lemma cumsum_from_length (acc : R) (l : list R) :
  length (cumsum_from acc l) = length l.
Proof. revert acc. induction l; intros; cbn [cumsum_from length]; auto. Qed.

Lemma cumsum_length (l : list R) : length (cumsum l) = length l.
Proof. destruct l; cbn [cumsum length]; auto using cumsum_from_length. Qed.

(** C4.  For weights that are non-negative and sum to 1, the CDF of
    [integrate_weights_np] is non-decreasing, its first entry is 0, its
    last entry is 1, and it has one entry more than there are weights. *)
Theorem integrate_weights_cdf (w : list R) :
  Forall (fun a => 0 <= a) w -> sum1 w = 1 ->
  let cw0 := integrate_weights_np w in
  nondecreasing cw0 /\ hd_error cw0 = Some 0 /\ last cw0 0 = 1
  /\ length cw0 = S (length w).
Proof.
  intros Hw Hsum. cbv zeta. unfold integrate_weights_np.
  cbn [sofZ smin RScalar app].
  destruct (cumsum_sorted _ (removelast_Forall _ _ Hw)) as [Hs Hpos].
  split; [|split; [|split]].
  - apply sorted_nondecreasing. constructor.
    + apply sorted_snoc; [now apply clamp_sorted|].
      rewrite Forall_map. apply Forall_forall. intros c _. apply Rmin_l.
    + apply Forall_app. split.
      * rewrite Forall_map. eapply Forall_impl; [|exact Hpos]. cbn beta.
        intros c Hc. apply Rmin_glb; lra.
      * repeat constructor. lra.
  - reflexivity.
  - change (0 :: ?l ++ [1]) with ((0 :: l) ++ [1]). apply last_last.
  - cbn [length]. rewrite length_app, length_map, cumsum_length. cbn [length].
    rewrite Nat.add_1_r. f_equal. apply removelast_length.
    intros ->. cbv in Hsum. lra.
Qed.

(** C4 at the weights [1/2, 1/4, 1/4]. *)
Lemma integrate_weights_cdf_witness :
  nondecreasing (integrate_weights_np [1 / 2; 1 / 4; 1 / 4]).
Proof.
  refine (proj1 (integrate_weights_cdf [1 / 2; 1 / 4; 1 / 4] _ _)).
  - repeat constructor; lra.
  - cbv [sum1 fold_left sadd sofZ RScalar]. lra.
Defined.

(** ** Evaluating the model on rational inputs *)

(** Unfold the list reductions of the model. *)
Ltac lunf :=
  cbv [map fold_left flat_map app length mean3 sum3 sum1 mean1 mean33 count gram
       abs_translations amax bind Z.of_nat Pos.of_succ_nat Pos.succ
       axis_pair eig_diag select_cols_T nth argsort_rev argsort_insert] in *.

(** Closed rational arithmetic. *)
Ltac rarith := first [lra | nra | field; lra].

(** Decide the comparisons of the code between closed rational terms. *)
Ltac rdecide :=
  change (@sltb R RScalar) with Rltb in *;
  change (@seqb R RScalar) with Reqb in *;
  repeat match goal with
  | |- context [Rltb ?a ?b] =>
      first [rewrite (Rltb_true a b) by (vunf; rarith)
            | rewrite (Rltb_false a b) by (vunf; rarith)]
  | |- context [Reqb ?a ?b] => rewrite (Reqb_false a b) by (vunf; rarith)
  end.

(** Evaluate [np.abs] and [np.maximum] on closed rational terms. *)
Ltac rabsmax :=
  repeat match goal with
  | |- context [Rabs ?a] =>
      first [rewrite (Rabs_pos_eq a) by rarith | rewrite (Rabs_left a) by rarith]
  | |- context [Rmax ?a ?b] =>
      first [rewrite (Rmax_left a b) by rarith | rewrite (Rmax_right a b) by rarith]
  end.

(** Close an equation between explicit vectors, matrices or lists of them. *)
Ltac reval :=
  lunf; vunf; rabsmax; repeat (progress (rdecide; vunf; rabsmax));
  repeat match goal with
  | |- (_, _) = (_, _) => apply f_equal2
  | |- _ :: _ = _ :: _ => apply f_equal2
  | |- Ok _ = Ok _ => apply f_equal
  | |- @nil _ = @nil _ => reflexivity
  end;
  vec_eq; rarith.

(** [pca_align], one binding of the source at a time. *)
Lemma pca_align_steps eig (poses : list (mat34 R))
  t_mean eigval eigvec rot0 rot transform recd :
  mean3 (map trans poses) = t_mean ->
  eig (gram (map (fun v => v3sub v t_mean) (map trans poses))) = (eigval, eigvec) ->
  select_cols_T (argsort_rev eigval) eigvec = rot0 ->
  (if Rltb (det3 rot0) 0 then mm33 (diag3 1 1 (-1)) rot0 else rot0) = rot ->
  hcat rot (mv33 rot (v3opp t_mean)) = transform ->
  map (fun p => mm34_44 transform (pad_poses p)) poses = recd ->
  pca_align eig poses
  = if Rltb (mean1 (map (fun p => wy (vz p)) recd)) 0
    then (map (mm33_34 (diag3 1 (-1) (-1))) recd,
          mm44 (diag4 1 (-1) (-1) 1)
               (V4 (vx transform) (vy transform) (vz transform) (V4 0 0 0 1)))
    else (recd, V4 (vx transform) (vy transform) (vz transform) (V4 0 0 0 1)).
Proof.
  intros Hm He H0 Hr Ht Hrec. unfold pca_align.
  rewrite Hm, He, H0.
  change (@sltb R RScalar) with Rltb.
  change (sofZ (-1)) with (-1). change (sofZ 1) with 1. change (sofZ 0) with 0.
  rewrite Hr, Ht, Hrec. reflexivity.
Qed.

Lemma axis_pair_align :
  pca_align eig_diag (axis_pair 2)
  = ([V3 (V4 1 0 0 2) (V4 0 0 (-1) 0) (V4 0 1 0 0);
      V3 (V4 1 0 0 (-2)) (V4 0 0 (-1) 0) (V4 0 1 0 0)],
     V4 (V4 1 0 0 0) (V4 0 0 (-1) 0) (V4 0 1 0 0) (V4 0 0 0 1)).
Proof.
  rewrite (pca_align_steps eig_diag (axis_pair 2)
             zero3 (V3 8 0 0) eye3
             (V3 (V3 1 0 0) (V3 0 0 1) (V3 0 1 0))
             (V3 (V3 1 0 0) (V3 0 0 1) (V3 0 (-1) 0))
             (V3 (V4 1 0 0 0) (V4 0 0 1 0) (V4 0 (-1) 0 0))
             ([V3 (V4 1 0 0 2) (V4 0 0 1 0) (V4 0 (-1) 0 0);
               V3 (V4 1 0 0 (-2)) (V4 0 0 1 0) (V4 0 (-1) 0 0)]));
    reval.
Qed.

(** ** [transform_poses_pca] *)

(** Whatever [np.linalg.eig] returns, the aligned poses are the images of
    the input poses under one affine map, which is the transform. *)
Lemma pca_align_affine eig (poses : list (mat34 R)) :
  exists A b,
    pca_align eig poses = (map (affine A b) poses, pad_poses (hcat A b)).
Proof.
  unfold pca_align.
  destruct (eig _) as [eigval eigvec].
  match goal with
  | |- context [hcat ?r (mv33 _ (v3opp ?t))] => set (rot := r); set (tm := t)
  end.
  clearbody rot tm.
  destruct (sltb _ _).
  - exists (mm33 (diag3 1 (-1) (-1)) rot),
           (mv33 (mm33 (diag3 1 (-1) (-1)) rot) (v3opp tm)).
    f_equal.
    + rewrite map_map. apply map_ext. intros p.
      destruct rot as [[] [] []], tm, p as [[] [] []]. vunf. vec_eq; ring.
    + destruct rot as [[] [] []], tm. vunf. vec_eq; ring.
  - exists rot, (mv33 rot (v3opp tm)). f_equal.
    destruct rot as [[] [] []], tm. vunf. reflexivity.
Qed.

Lemma rescaled_pose_factor (A : mat3 R) (b : vec3 R) (m : R) (p : mat34 R) :
  m <> 0 ->
  pad_poses (scale_trans (1 / m) (affine A b p))
  = mm44 (mm44 (diag4 (1 / m) (1 / m) (1 / m) 1) (pad_poses (hcat A b)))
         (pad_poses (hcat (m3scale m (rot_block p)) (trans p))).
Proof.
  intros Hm. destruct A as [[] [] []], b, p as [[] [] []]. vunf.
  vec_eq; field; assumption.
Qed.

Lemma mm44_assoc (a b c : mat4 R) : mm44 (mm44 a b) c = mm44 a (mm44 b c).
Proof.
  destruct a as [[] [] [] []], b as [[] [] [] []], c as [[] [] [] []]. vunf.
  vec_eq; ring.
Qed.

Lemma mm44_eye_l (a : mat4 R) : mm44 eye4 a = a.
Proof. destruct a as [[] [] [] []]. vunf. vec_eq; ring. Qed.

Lemma mm44_eye_r (a : mat4 R) : mm44 a eye4 = a.
Proof. destruct a as [[] [] [] []]. vunf. vec_eq; ring. Qed.

Lemma transform_poses_pca_ok eig (poses : list (mat34 R)) (m : R) :
  amax (abs_translations (fst (pca_align eig poses))) = Ok m ->
  transform_poses_pca eig poses
  = Ok (map (scale_trans (1 / m)) (fst (pca_align eig poses)),
        mm44 (diag4 (1 / m) (1 / m) (1 / m) 1) (snd (pca_align eig poses))).
Proof.
  intros Hmax. unfold transform_poses_pca.
  destruct (pca_align eig poses) as [rec0 tr0]. cbn [fst snd] in *.
  now rewrite Hmax.
Qed.

(** C1, as the code has it.  Let [m] be the greatest absolute coordinate
    of the aligned camera positions, so that [scale_factor = 1/m], and
    let [tinv] invert the returned transform.  Applied to the padded
    recentered poses, [tinv] gives back every translation column as it
    was, and every rotation block multiplied by [m]. *)
Theorem pca_round_trip eig (poses recd : list (mat34 R)) (tr tinv : mat4 R) (m : R) :
  amax (abs_translations (fst (pca_align eig poses))) = Ok m ->
  m <> 0 ->
  transform_poses_pca eig poses = Ok (recd, tr) ->
  mm44 tinv tr = eye4 ->
  map (fun r => mm44 tinv (pad_poses r)) recd
  = map (fun p => pad_poses (hcat (m3scale m (rot_block p)) (trans p))) poses.
Proof.
  intros Hmax Hm Htr Hinv.
  rewrite (transform_poses_pca_ok eig poses m Hmax) in Htr.
  destruct (pca_align_affine eig poses) as (A & b & E). rewrite E in Htr.
  cbn [fst snd] in Htr. injection Htr as <- <-.
  rewrite !map_map. apply map_ext. intros p.
  rewrite rescaled_pose_factor by assumption.
  rewrite <- mm44_assoc, Hinv. apply mm44_eye_l.
Qed.

Lemma axis_pair_amax :
  amax (abs_translations (fst (pca_align eig_diag (axis_pair 2)))) = Ok 2.
Proof.
  rewrite axis_pair_align. cbn [fst]. reval.
Qed.

(** C1 on cameras at [(2,0,0)] and [(-2,0,0)]: [m = 2], and the inverse
    of the transform is written out. *)
Lemma pca_round_trip_witness :
  map (fun r => mm44 (V4 (V4 2 0 0 0) (V4 0 0 2 0) (V4 0 (-2) 0 0) (V4 0 0 0 1))
                     (pad_poses r))
      [V3 (V4 1 0 0 1) (V4 0 0 (-1) 0) (V4 0 1 0 0);
       V3 (V4 1 0 0 (-1)) (V4 0 0 (-1) 0) (V4 0 1 0 0)]
  = map (fun p => pad_poses (hcat (m3scale 2 (rot_block p)) (trans p)))
        (axis_pair 2).
Proof.
  apply (pca_round_trip eig_diag (axis_pair 2) _ 
           (V4 (V4 (1/2) 0 0 0) (V4 0 0 (-1/2) 0) (V4 0 (1/2) 0 0) (V4 0 0 0 1)) _ 2).
  - exact axis_pair_amax.
  - lra.
  - rewrite (transform_poses_pca_ok _ _ 2 axis_pair_amax), axis_pair_align.
    cbn [fst snd]. reval.
  - reval.
Defined.

Lemma abs_translations_nonneg (poses : list (mat34 R)) :
  Forall (fun a => 0 <= a) (abs_translations poses).
Proof.
  unfold abs_translations. induction poses as [|p poses IH]; cbn [flat_map app].
  - constructor.
  - repeat (constructor; [apply Rabs_pos|]). exact IH.
Qed.

Lemma abs_translations_scale (k : R) (poses : list (mat34 R)) :
  0 <= k ->
  abs_translations (map (scale_trans k) poses)
  = map (fun a => a * k) (abs_translations poses).
Proof.
  intros Hk. unfold abs_translations.
  induction poses as [|p poses IH]; cbn [map flat_map app]; [reflexivity|].
  rewrite IH. destruct p as [[] [] []]. vunf.
  rewrite !Rabs_mult, (Rabs_pos_eq k) by assumption. reflexivity.
Qed.

Lemma fold_max_ge (l : list R) (a : R) : a <= fold_left Rmax l a.
Proof.
  revert a. induction l as [|b l IH]; intros a; cbn [fold_left]; [lra|].
  eapply Rle_trans; [apply Rmax_l | apply IH].
Qed.

Lemma fold_max_scale (k : R) (l : list R) (a : R) :
  0 <= k ->
  fold_left Rmax (map (fun c => c * k) l) (a * k) = fold_left Rmax l a * k.
Proof.
  intros Hk. revert a. induction l as [|b l IH]; intros a; cbn [map fold_left].
  - reflexivity.
  - rewrite <- IH. f_equal. rewrite !(Rmult_comm _ k). now apply RmaxRmult.
Qed.

Lemma amax_scale (k m : R) (l : list R) :
  0 <= k -> amax l = Ok m -> amax (map (fun c => c * k) l) = Ok (m * k).
Proof.
  intros Hk. destruct l as [|a l]; cbn [amax map]; [discriminate|].
  intros E. injection E as <-. f_equal.
  change (@smax R RScalar) with Rmax. now apply fold_max_scale.
Qed.

Lemma amax_nonneg (m : R) (l : list R) :
  Forall (fun a => 0 <= a) l -> amax l = Ok m -> 0 <= m.
Proof.
  destruct l as [|a l]; cbn [amax]; [discriminate|].
  intros Hl E. injection E as <-. inversion Hl; subst.
  change (@smax R RScalar) with Rmax.
  eapply Rle_trans; [eassumption | apply fold_max_ge].
Qed.

(** C2, in exact arithmetic.  When the aligned camera positions are not
    all at the origin ([m], their greatest absolute coordinate, is not 0),
    [transform_poses_pca] returns, and the greatest absolute coordinate
    of the translations it returns is 1. *)
Theorem pca_scale_normalized eig (poses : list (mat34 R)) (m : R) :
  amax (abs_translations (fst (pca_align eig poses))) = Ok m ->
  m <> 0 ->
  exists recd tr,
    transform_poses_pca eig poses = Ok (recd, tr) /\
    amax (abs_translations recd) = Ok 1.
Proof.
  intros Hmax Hm.
  pose proof (amax_nonneg m _ (abs_translations_nonneg _) Hmax) as Hpos.
  do 2 eexists. split; [exact (transform_poses_pca_ok eig poses m Hmax)|].
  assert (Hk : 0 <= 1 / m) by (apply Rlt_le, Rdiv_lt_0_compat; lra).
  rewrite abs_translations_scale by exact Hk.
  rewrite (amax_scale (1 / m) m _ Hk Hmax). f_equal. now field.
Qed.

(** C2 on cameras at [(2,0,0)] and [(-2,0,0)]. *)
Lemma pca_scale_normalized_witness :
  exists recd tr,
    transform_poses_pca eig_diag (axis_pair 2) = Ok (recd, tr) /\
    amax (abs_translations recd) = Ok 1.
Proof.
  apply (pca_scale_normalized eig_diag (axis_pair 2) 2).
  - exact axis_pair_amax.
  - lra.
Defined.

(** ** binary64: what the code does where exact arithmetic does not show it *)

(** C1 as stated fails.  Two cameras at [(2,0,0)] and [(-2,0,0)] with
    identity rotations: the inverse of the returned transform, applied to
    the recentered poses, gives back the translations [(2,0,0)] and
    [(-2,0,0)], but rotation blocks equal to twice the identity. *)
Lemma pca_round_trip_rotation_counterexample :
  exists recd tr tinv,
    transform_poses_pca eig_diag (axis_pair (sofZ 2)) = Ok (recd, tr) /\
    inv4 tr = Ok tinv /\
    map (fun r => unpad_poses (mm44 tinv (pad_poses r))) recd
    = [ V3 (V4 2 0 0 2) (V4 0 2 0 0) (V4 0 0 2 0);
        V3 (V4 2 0 0 (-2)) (V4 0 2 0 0) (V4 0 0 2 0) ]%float /\
    axis_pair (sofZ 2)
    = [ V3 (V4 1 0 0 2) (V4 0 1 0 0) (V4 0 0 1 0);
        V3 (V4 1 0 0 (-2)) (V4 0 1 0 0) (V4 0 0 1 0) ]%float.
Proof.
  do 3 eexists. split; [vm_compute; reflexivity|].
  split; [vm_compute; reflexivity|].
  split; vm_compute; reflexivity.
Qed.

(** C2 as stated fails.  Two cameras at [(49,0,0)] and [(-49,0,0)]:
    [scale_factor] is [1/49] rounded, and [49 * scale_factor] rounds to
    [1 - 2^-53], so the greatest absolute coordinate returned is below 1. *)
Lemma pca_scale_counterexample :
  exists recd tr,
    transform_poses_pca eig_diag (axis_pair (sofZ 49)) = Ok (recd, tr) /\
    amax (abs_translations recd) = Ok (1 - 0x1p-53)%float /\
    PrimFloat.ltb (1 - 0x1p-53) 1 = true.
Proof.
  do 2 eexists. split; [vm_compute; reflexivity|].
  split; vm_compute; reflexivity.
Qed.

(** ** [generate_spiral_path]: the focal depth *)

Lemma fold_add_const (c : R) {A} (l : list A) (a : R) :
  fold_left (fun focal _ => focal + c) l a = a + INR (length l) * c.
Proof.
  revert a. induction l as [|x l IH]; intros a.
  - cbn. ring.
  - cbn [fold_left]. rewrite IH. cbn [length]. rewrite S_INR. ring.
Qed.

(** C7, as the code has it.  The loop adds [get_focal(views[0])] once per
    view, so in exact arithmetic the focal depth is the focal value of the
    first view, whatever the others are; on the two views of [rig_views]
    ([FoVx] 1 and 3) binary64 gives 1, and the mean of the per-view
    values is 2. *)
Theorem spiral_focal_is_first_view :
  (forall (v : @View R) (vs : list View), spiral_focal (v :: vs) = get_focal v)
  /\ spiral_focal (@rig_views float _) = 1%float
  /\ mean_focal (@rig_views float _) = 2%float.
Proof.
  split; [|split; vm_compute; reflexivity].
  intros v vs. unfold spiral_focal, count. cbn [hd].
  change (fold_left _ (v :: vs) (sofZ 0))
    with (fold_left (fun focal _ => focal + get_focal v) (v :: vs) 0).
  rewrite fold_add_const. cbn [sdiv RScalar sofZ].
  rewrite <- INR_IZR_INZ.
  assert (0 < INR (length (v :: vs))) by (apply lt_0_INR; cbn; lia).
  field. lra.
Qed.

(** ** Zero poses *)

(** C8 as stated fails: on no pose [average_pose] raises nothing; it
    returns the pose whose twelve entries are NaN. *)
Lemma average_pose_empty_counterexample :
  average_pose (@nil (mat34 float)) = nan34.
Proof. vm_compute. reflexivity. Qed.

(** C8, as the code has it.  None of the three functions tests for an
    empty input.  On no pose, [average_pose] returns an all-NaN pose;
    [transform_poses_pca] raises the [ValueError] of [np.max] on an empty
    array, whatever [np.linalg.eig] returned; and [focus_point_fn] goes on
    to invert an all-NaN matrix. *)
Theorem empty_input_not_rejected :
  average_pose (@nil (mat34 float)) = nan34
  /\ (forall eig, transform_poses_pca eig (@nil (mat34 float)) = Raise ValueError)
  /\ focus_point_fn (@nil (mat34 float))
     = (minv <- inv3 nan33 ;; Ok (mv33 minv (V3 nan nan nan))).
Proof.
  split; [vm_compute; reflexivity|]. split.
  - intros eig. unfold transform_poses_pca, pca_align. cbn [map].
    destruct (eig _) as [eigval eigvec].
    destruct (sltb _ _); reflexivity.
  - unfold focus_point_fn. cbn [map].
    replace (mean33 (@nil (mat3 float))) with nan33 by (vm_compute; reflexivity).
    replace (mean3 (@nil (vec3 float))) with (V3 nan nan nan)
      by (vm_compute; reflexivity).
    reflexivity.
Qed.

(** ** [focus_point_fn] *)

Lemma viewmatrix_zaxis (z up pos : vec3 R) : zaxis (viewmatrix z up pos) = normalize z.
Proof. unfold viewmatrix. destruct (normalize z); reflexivity. Qed.

Lemma viewmatrix_trans (z up pos : vec3 R) : trans (viewmatrix z up pos) = pos.
Proof. unfold viewmatrix. destruct pos; reflexivity. Qed.

(** The projector [I - d d^T] of a normalised axis, without the root. *)
Lemma axis_projector_normalize (o : vec3 R) :
  o <> zero3 ->
  axis_projector (normalize o)
  = zip3 (zip3 Rminus) eye3
      (map3 (fun oi => map3 (fun oj => oi * oj / dot3 o o) o) o).
Proof.
  intros Ho. pose proof (norm_pos o Ho) as Hn. pose proof (norm_sqr o) as Hs.
  rewrite normalize_as_scale. rewrite <- Hs.
  set (n := norm o) in *. clearbody n. clear Hs.
  destruct o as [a b c]. vunf. vec_eq; field; lra.
Qed.

Lemma square_projector (x y : R) :
  x * x = 1 / 4 -> y * y = 1 / 4 ->
  axis_projector (zaxis (square_pose x y))
  = V3 (V3 (1 / 2) (- (2 * x * y)) 0) (V3 (- (2 * x * y)) (1 / 2) 0) (V3 0 0 1).
Proof.
  intros Hx Hy. unfold square_pose. rewrite viewmatrix_zaxis.
  rewrite axis_projector_normalize.
  - vunf. replace (x * x + y * y + 0 * 0) with (1 / 2) by lra.
    vec_eq; try (field_simplify; lra); try lra.
  - intros E. injection E as E1 E2. subst. lra.
Qed.

(** C5.  Four cameras at the corners [(+-1/2, +-1/2, 0)] of the unit square
    of the XY plane, each looking at the origin along its own -Z: the
    focus point is the origin, exactly. *)
Theorem focus_point_unit_square :
  focus_point_fn (@square_poses R _) = Ok zero3.
Proof.
  unfold focus_point_fn, square_poses. cbn [map].
  rewrite !square_projector by (vunf; lra).
  unfold square_pose. rewrite !viewmatrix_trans. cbv zeta.
  match goal with
  | |- context [mean33 ?l] =>
      assert (Em : mean33 l = diag3 (1 / 2) (1 / 2) 1) by reval;
      rewrite Em; clear Em
  end.
  match goal with
  | |- context [mean3 ?l] =>
      assert (Eo : mean3 l = zero3) by reval; rewrite Eo; clear Eo
  end.
  unfold inv3. cbn [diag3]. rdecide. cbn [bind]. reval.
Qed.

(** ** [np.linalg.inv] in exact arithmetic *)

Lemma inv4_ok (m : mat4 R) :
  det4 m <> 0 -> inv4 m = Ok (map4 (map4 (fun a => a / det4 m)) (adj4 m)).
Proof.
  intros Hd. unfold inv4. change (@seqb R RScalar) with Reqb.
  change (sofZ 0) with 0. now rewrite Reqb_false.
Qed.

Lemma inv4_left (m : mat4 R) :
  det4 m <> 0 -> mm44 (map4 (map4 (fun a => a / det4 m)) (adj4 m)) m = eye4.
Proof.
  intros Hd. set (d := det4 m) in *.
  assert (Hd' : d = det4 m) by reflexivity. clearbody d.
  destruct m as [[] [] [] []]. vunf. vec_eq; field_simplify_eq; try assumption;
    rewrite ?Hd'; ring.
Qed.

Lemma inv4_right (m : mat4 R) :
  det4 m <> 0 -> mm44 m (map4 (map4 (fun a => a / det4 m)) (adj4 m)) = eye4.
Proof.
  intros Hd. set (d := det4 m) in *.
  assert (Hd' : d = det4 m) by reflexivity. clearbody d.
  destruct m as [[] [] [] []]. vunf. vec_eq; field_simplify_eq; try assumption;
    rewrite ?Hd'; ring.
Qed.

Lemma det4_mul (a b : mat4 R) : det4 (mm44 a b) = det4 a * det4 b.
Proof. destruct a as [[] [] [] []], b as [[] [] [] []]. vunf. ring. Qed.

Lemma det4_eye : det4 eye4 = 1.
Proof. vunf. ring. Qed.

Lemma det4_of_left_inverse (m n : mat4 R) : mm44 n m = eye4 -> det4 m <> 0.
Proof.
  intros E Hd. pose proof (det4_mul n m) as Hm.
  rewrite E, det4_eye, Hd in Hm. lra.
Qed.

(** A left inverse is what [np.linalg.inv] returns. *)
Lemma inv4_of_left_inverse (m n : mat4 R) : mm44 n m = eye4 -> inv4 m = Ok n.
Proof.
  intros E. pose proof (det4_of_left_inverse m n E) as Hd.
  rewrite inv4_ok by assumption. apply f_equal.
  rewrite <- (mm44_eye_l (map4 _ (adj4 m))), <- E, mm44_assoc.
  rewrite inv4_right by assumption. apply mm44_eye_r.
Qed.

Lemma inv3_ok (m : mat3 R) :
  det3 m <> 0 -> inv3 m = Ok (map3 (map3 (fun a => a / det3 m)) (adj3 m)).
Proof.
  intros Hd. unfold inv3. destruct m as [[a b c] [d e f] [g h i]].
  change (@seqb R RScalar) with Reqb. change (sofZ 0) with 0.
  rewrite Reqb_false by assumption. reflexivity.
Qed.

Lemma mm33_assoc (a b c : mat3 R) : mm33 (mm33 a b) c = mm33 a (mm33 b c).
Proof. destruct a as [[] [] []], b as [[] [] []], c as [[] [] []]. vunf. vec_eq; ring. Qed.

Lemma mm33_eye_l (a : mat3 R) : mm33 eye3 a = a.
Proof. destruct a as [[] [] []]. vunf. vec_eq; ring. Qed.

Lemma mm33_eye_r (a : mat3 R) : mm33 a eye3 = a.
Proof. destruct a as [[] [] []]. vunf. vec_eq; ring. Qed.

Lemma det3_mul (a b : mat3 R) : det3 (mm33 a b) = det3 a * det3 b.
Proof. destruct a as [[] [] []], b as [[] [] []]. vunf. ring. Qed.

Lemma adj3_right (m : mat3 R) :
  mm33 m (adj3 m) = diag3 (det3 m) (det3 m) (det3 m).
Proof. destruct m as [[] [] []]. vunf. vec_eq; ring. Qed.

(** For square matrices a left inverse is a right inverse. *)
Lemma mm33_inverse_comm (a b : mat3 R) : mm33 a b = eye3 -> mm33 b a = eye3.
Proof.
  intros E.
  assert (Hd : det3 b <> 0).
  { intros Hd. pose proof (det3_mul a b) as Hm. rewrite E, Hd in Hm.
    revert Hm. vunf. lra. }
  set (c := map3 (map3 (fun x => x / det3 b)) (adj3 b)).
  assert (Hbc : mm33 b c = eye3).
  { subst c. pose proof (adj3_right b) as Ha. set (d := det3 b) in *.
    clearbody d. destruct b as [[] [] []]. vunf.
    injection Ha as E1 E2 E3 E4 E5 E6 E7 E8 E9.
    vec_eq; field_simplify_eq; try assumption; lra. }
  assert (Hac : a = c).
  { rewrite <- (mm33_eye_r a), <- Hbc, <- mm33_assoc, E. apply mm33_eye_l. }
  now rewrite Hac.
Qed.

(** ** [generate_spherify_path] *)

Lemma fold_add_shift (l : list R) (a : R) :
  fold_left Rplus l a = a + fold_left Rplus l 0.
Proof.
  revert a. induction l as [|x l IH]; intros a; cbn [fold_left].
  - ring.
  - rewrite IH, (IH (0 + x)). ring.
Qed.

Lemma sum1_cons (x : R) (l : list R) : sum1 (x :: l) = x + sum1 l.
Proof.
  unfold sum1. cbn [fold_left]. change (@sadd R RScalar) with Rplus.
  change (sofZ 0) with 0. rewrite fold_add_shift. ring.
Qed.

Lemma sum1_nil : sum1 (@nil R) = 0.
Proof. reflexivity. Qed.

Lemma sum3_vz_shift (l : list (vec3 R)) (a : vec3 R) :
  vz (fold_left v3add l a) = vz a + sum1 (map (@vz R) l).
Proof.
  revert a. induction l as [|x l IH]; intros a; cbn [fold_left map].
  - rewrite sum1_nil. ring.
  - rewrite IH, sum1_cons. destruct a, x. vunf. ring.
Qed.

Lemma count_INR {A} (l : list A) : count (T := R) l = INR (length l).
Proof. unfold count. cbn [sofZ RScalar]. now rewrite <- INR_IZR_INZ. Qed.

Lemma sum1_nonneg (l : list R) : Forall (fun a => 0 <= a) l -> 0 <= sum1 l.
Proof.
  induction 1 as [|a l Ha Hl IH]; [rewrite sum1_nil; lra|].
  rewrite sum1_cons. lra.
Qed.

(** Cauchy-Schwarz against the constant vector. *)
Lemma sum1_square_le (l : list R) :
  sum1 l * sum1 l <= INR (length l) * sum1 (map (fun x => x * x) l).
Proof.
  induction l as [|a l IH].
  - cbn [map length]. rewrite sum1_nil. cbn. lra.
  - cbn [map]. rewrite !sum1_cons. change (length (a :: l)) with (S (length l)).
    rewrite S_INR.
    set (n := INR (length l)) in *. set (s := sum1 l) in *.
    set (q := sum1 (map (fun x => x * x) l)) in *.
    assert (Hn : 0 <= n) by apply pos_INR.
    assert (Hq : 0 <= q).
    { apply sum1_nonneg. rewrite Forall_map. apply Forall_forall.
      intros x _. nra. }
    destruct (Req_dec n 0) as [Hz|Hz].
    + assert (Hs : s * s <= 0) by (rewrite Hz in IH; lra).
      assert (Hs0 : s = 0).
      { apply Rsqr_0_uniq. unfold Rsqr. pose proof (Rle_0_sqr s) as Hp.
        unfold Rsqr in Hp. lra. }
      rewrite Hs0, Hz. nra.
    + pose proof (Rle_0_sqr (n * a - s)) as Hsq. unfold Rsqr in Hsq.
      assert (H2 : n * (2 * a * s) <= n * (n * (a * a) + q)) by nra.
      assert (H3 : 2 * a * s <= n * (a * a) + q) by (apply (Rmult_le_reg_l n); lra).
      nra.
Qed.

Lemma sum1_le (l : list (mat34 R)) :
  sum1 (map (fun x => x * x) (map (fun p => vz (trans p)) l))
  <= sum1 (map (fun p => dot3 (trans p) (trans p)) l).
Proof.
  induction l as [|p l IH]; cbn [map].
  - lra.
  - rewrite !sum1_cons. destruct p as [[] [] []]. vunf. nra.
Qed.

Lemma sum1_scale (k : R) (l : list R) :
  sum1 (map (fun x => x * k) l) = sum1 l * k.
Proof.
  induction l as [|a l IH]; cbn [map].
  - rewrite sum1_nil. ring.
  - rewrite !sum1_cons, IH. ring.
Qed.

(** Lines 408-416 on any poses: the rescaled radius bounds the height of
    the centroid. *)
Lemma spherify_radius_bound (poses_reset : list (mat34 R)) :
  let rad := sqrt (mean1 (map (fun p => dot3 (trans p) (trans p)) poses_reset)) in
  let sc := 1 / rad in
  let zh := vz (mean3 (map trans (map (scale_trans sc) poses_reset))) in
  zh * zh <= rad * sc * (rad * sc).
Proof.
  cbv zeta.
  set (S2 := sum1 (map (fun p => dot3 (trans p) (trans p)) poses_reset)).
  set (rad := sqrt _). set (sc := 1 / rad).
  assert (Hzh : vz (mean3 (map trans (map (scale_trans sc) poses_reset)))
                = sum1 (map (fun p => vz (trans p)) poses_reset) * sc
                  / INR (length poses_reset)).
  { unfold mean3. rewrite count_INR, !length_map.
    change (vz (map3 ?f ?v)) with (f (vz v)). unfold sum3.
    rewrite sum3_vz_shift. cbn [vz sofZ RScalar sdiv]. rewrite !map_map.
    rewrite <- sum1_scale, map_map. rewrite Rplus_0_l. reflexivity. }
  rewrite Hzh. clear Hzh.
  set (S1 := sum1 (map (fun p => vz (trans p)) poses_reset)).
  set (n := INR (length poses_reset)).
  assert (Hn : 0 <= n) by apply pos_INR.
  assert (HS2 : 0 <= S2).
  { apply sum1_nonneg. rewrite Forall_map. apply Forall_forall.
    intros p _. apply dot3_self_nonneg. }
  assert (Hcs : S1 * S1 <= n * S2).
  { pose proof (sum1_square_le (map (fun p => vz (trans p)) poses_reset)) as Hc.
    rewrite length_map in Hc. pose proof (sum1_le poses_reset) as Hl.
    fold S1 n in Hc. fold S2 in Hl. nra. }
  assert (Hrad0 : 0 <= rad) by apply sqrt_pos.
  assert (Hrr : rad * rad = S2 / n).
  { unfold rad, mean1. rewrite count_INR, length_map. fold S2 n.
    apply sqrt_sqrt.
    destruct (Req_dec n 0) as [->|Hz]; [unfold Rdiv; rewrite Rinv_0; lra|].
    apply Rmult_le_pos; [assumption|]. apply Rlt_le, Rinv_0_lt_compat. lra. }
  assert (Hsc : sc = 1 / rad) by reflexivity.
  clearbody sc rad S1 S2 n. subst sc.
  destruct (Req_dec rad 0) as [Hr|Hr].
  - rewrite Hr. unfold Rdiv. rewrite Rinv_0.
    replace (S1 * (1 * 0) * / n) with 0 by ring. lra.
  - replace (rad * (1 / rad)) with 1 by (field; assumption).
    destruct (Req_dec n 0) as [Hz|Hz].
    + rewrite Hz. unfold Rdiv. rewrite Rinv_0. lra.
    + assert (Hnpos : 0 < n) by lra.
      assert (HS2pos : 0 < S2).
      { assert (Hp : 0 < rad * rad) by nra. rewrite Hrr in Hp.
        destruct (Req_dec S2 0) as [E|E]; [|lra].
        rewrite E in Hp. unfold Rdiv in Hp. lra. }
      replace (S1 * (1 / rad) / n * (S1 * (1 / rad) / n))
        with (S1 * S1 / (rad * rad * (n * n))) by (field; auto).
      rewrite Hrr. replace (S2 / n * (n * n)) with (S2 * n) by (field; lra).
      apply (Rmult_le_reg_r (S2 * n)); [nra|].
      replace (S1 * S1 / (S2 * n) * (S2 * n)) with (S1 * S1) by (field; lra).
      lra.
Qed.

(** What [spherify_orbit] returns is lines 408-416 on some poses. *)
Lemma spherify_orbit_inv (views : list (@View R)) (rad zh radcircle : R) :
  spherify_orbit views = Ok (rad, zh, radcircle) ->
  exists poses_reset : list (mat34 R),
    let rad0 := sqrt (mean1 (map (fun p => dot3 (trans p) (trans p)) poses_reset)) in
    let sc := 1 / rad0 in
    rad = rad0 * sc
    /\ zh = vz (mean3 (map trans (map (scale_trans sc) poses_reset)))
    /\ radcircle = sqrt (rad * rad - zh * zh).
Proof.
  unfold spherify_orbit. intros E.
  destruct (poses_of_views views) as [poses|]; [|discriminate].
  cbn [bind] in E.
  destruct (min_line_dist _) as [center|]; [|discriminate]. cbn [bind] in E.
  destruct (inv4 _) as [c2w_inv|]; [|discriminate]. cbn [bind] in E.
  injection E as <- <- <-.
  eexists. cbv zeta. repeat split.
Qed.

Lemma spherify_orbit_bound (views : list (@View R)) (rad zh radcircle : R) :
  spherify_orbit views = Ok (rad, zh, radcircle) ->
  0 <= rad /\ zh * zh <= rad * rad /\ radcircle = sqrt (rad * rad - zh * zh).
Proof.
  intros E. destruct (spherify_orbit_inv views rad zh radcircle E)
    as (poses_reset & Hrad & Hzh & Hrc).
  split; [|split; [|exact Hrc]].
  - rewrite Hrad. set (r0 := sqrt _).
    assert (H0 : 0 <= r0) by apply sqrt_pos.
    destruct (Req_dec r0 0) as [->|Hr]; [lra|].
    replace (r0 * (1 / r0)) with 1 by (field; assumption). lra.
  - rewrite Hrad, Hzh. apply spherify_radius_bound.
Qed.

(** C9, on the code (binary64).  In exact arithmetic the argument of the
    square root of line 416 is never negative ([spherify_orbit_bound]);
    with rounding it can be.  The cameras of [coaxial_views] sit on
    the third axis at heights 5 and [5 (1 + 2^-30)], their viewing axes a
    billionth of a radian off it.  Lines 371-416 complete: [b_i.mean(0)] is
    exactly 0, so the fitted centre is the origin, [up] is along the third
    axis and the recentred cameras are at [(0,0,5)] and
    [(0,0,5 (1 + 2^-30))].  Their RMS distance rounds so that, after the
    rescaling, [rad = 1 - 2^-53] while the height of the centroid is
    [zh = 1]: [rad < zh], the argument of the square root is [-2^-52] and
    [radcircle] is NaN.  Nothing tests for it: [generate_spherify_path]
    raises nothing and returns its 120 poses, built on the NaN radius,
    whatever [np.cos] and [np.sin] compute.

    The entries of the three inverses that reach [rad] and [zh] are 0, 1 or
    a camera height: the products and differences that give them are
    exact, by cofactors and by an LU factorisation alike. *)
Theorem spherify_radius_imaginary :
  exists rad zh radcircle : float,
    spherify_orbit coaxial_views = Ok (rad, zh, radcircle)
    /\ PrimFloat.ltb rad zh = true
    /\ PrimFloat.is_nan radcircle = true
    /\ forall trig : Trig float,
       exists new_poses,
         generate_spherify_path coaxial_views = Ok new_poses
         /\ length new_poses = 120%nat.
Proof.
  exists 0x1.fffffffffffffp-1%float, 1%float, nan.
  assert (E : spherify_orbit coaxial_views
              = Ok (0x1.fffffffffffffp-1%float, 1%float, nan))
    by (vm_compute; reflexivity).
  split; [exact E|]. split; [reflexivity|]. split; [reflexivity|].
  intros trig. unfold generate_spherify_path. rewrite E. cbn [bind].
  eexists. split; [reflexivity|].
  unfold linspace. now rewrite !length_map, length_seq.
Qed.

Lemma nth_map_in {A B} (f : A -> B) (l : list A) (i : nat) (d : B) (d' : A) :
  (i < length l)%nat -> nth i (map f l) d = f (nth i l d').
Proof.
  intros Hi. rewrite (nth_indep _ d (f d')) by now rewrite length_map.
  apply map_nth.
Qed.

Lemma linspace_length (start stop : R) (num : nat) :
  length (linspace start stop num) = num.
Proof. unfold linspace. now rewrite length_map, length_seq. Qed.

Lemma linspace_first (start stop : R) (num : nat) :
  (2 <= num)%nat -> nth 0 (linspace start stop num) 0 = start.
Proof.
  intros Hn. unfold linspace.
  rewrite (nth_map_in _ _ _ _ 0%nat) by (rewrite length_seq; lia).
  rewrite seq_nth by lia. cbn [Nat.add].
  destruct (Nat.eqb_spec 0 (num - 1)); [lia|].
  cbn [sofZ sadd smul ssub sdiv RScalar Z.of_nat]. ring.
Qed.

Lemma linspace_last (start stop : R) (num : nat) :
  (1 <= num)%nat -> nth (num - 1) (linspace start stop num) 0 = stop.
Proof.
  intros Hn. unfold linspace.
  rewrite (nth_map_in _ _ _ _ 0%nat) by (rewrite length_seq; lia).
  rewrite seq_nth by lia. cbn [Nat.add]. now rewrite Nat.eqb_refl.
Qed.

Lemma spherify_pose_period (radcircle zh : R) :
  spherify_pose radcircle zh (2 * PI) = spherify_pose radcircle zh 0.
Proof.
  unfold spherify_pose. cbn [scos ssin RTrig].
  now rewrite cos_2PI, sin_2PI, cos_0, sin_0.
Qed.

(** C10.  Whenever the orbit of lines 371-416 is computed (there is a
    view and the three matrix inversions succeed), [generate_spherify_path]
    returns exactly 120 poses, whatever the number of views, and the last
    of them is the first again. *)
Theorem spherify_path_frames (views : list (@View R)) (orbit : R * R * R) :
  spherify_orbit views = Ok orbit ->
  exists new_poses,
    generate_spherify_path views = Ok new_poses
    /\ length new_poses = 120%nat
    /\ nth 119 new_poses eye4 = nth 0 new_poses eye4.
Proof.
  intros E. unfold generate_spherify_path. rewrite E.
  destruct orbit as [[rad zh] radcircle]. cbn [bind].
  eexists. split; [reflexivity|]. split.
  - now rewrite length_map, linspace_length.
  - rewrite !(nth_map_in _ _ _ _ 0) by (rewrite linspace_length; lia).
    change 119%nat with (120 - 1)%nat.
    rewrite linspace_last, linspace_first by lia.
    cbn [sofZ smul RScalar spi RTrig]. apply spherify_pose_period.
Qed.

(** ** [generate_ellipse_path]: the poses it returns *)

Lemma det4_pad (m : mat34 R) : det4 (pad_poses m) = det3 (rot_block m).
Proof. destruct m as [[] [] []]. vunf. ring. Qed.

(** The inverse of an affine matrix is affine. *)
Lemma inverse_affine (m n : mat4 R) :
  ww m = V4 0 0 0 1 -> mm44 n m = eye4 -> ww n = V4 0 0 0 1.
Proof.
  intros Hm E.
  set (n2 := V4 (wx n) (wy n) (wz n) (V4 0 0 0 1)).
  assert (E2 : mm44 n2 m = eye4).
  { subst n2. destruct m as [m0 m1 m2 r]. cbn [ww] in Hm. subst r.
    destruct n as [n0 n1 n2 n3]. destruct m0, m1, m2, n0, n1, n2, n3.
    revert E. vunf. intros E.
    injection E as E1 E2 E3 E4 E5 E6 E7 E8 E9 E10 E11 E12 E13 E14 E15 E16.
    vec_eq; try assumption; ring. }
  pose proof (inv4_of_left_inverse m n E) as H1.
  pose proof (inv4_of_left_inverse m n2 E2) as H2.
  rewrite H1 in H2. injection H2 as H2. now rewrite H2.
Qed.

Lemma flip_cols_top_affine (m : mat4 R) :
  ww m = V4 0 0 0 1 -> flip_cols_top m = mm44 m (diag4 1 (-1) (-1) 1).
Proof.
  destruct m as [r0 r1 r2 r]. cbn [ww]. intros ->.
  destruct r0, r1, r2. vunf. vec_eq; ring.
Qed.

Lemma mm44_affine (a b : mat4 R) :
  ww a = V4 0 0 0 1 -> ww b = V4 0 0 0 1 -> ww (mm44 a b) = V4 0 0 0 1.
Proof.
  destruct a as [a0 a1 a2 ra], b as [b0 b1 b2 rb]. cbn [ww]. intros -> ->.
  destruct a0, a1, a2, b0, b1, b2. vunf. vec_eq; ring.
Qed.

Lemma rot_block_mm44 (a b : mat4 R) :
  ww a = V4 0 0 0 1 -> ww b = V4 0 0 0 1 ->
  rot_block (unpad_poses (mm44 a b))
  = mm33 (rot_block (unpad_poses a)) (rot_block (unpad_poses b)).
Proof.
  destruct a as [a0 a1 a2 ra], b as [b0 b1 b2 rb]. cbn [ww]. intros -> ->.
  destruct a0, a1, a2, b0, b1, b2. vunf. vec_eq; ring.
Qed.

Lemma gram_cols_mm33 (x a : mat3 R) :
  gram_cols (mm33 x a) = mm33 (transpose33 a) (mm33 (gram_cols x) a).
Proof. destruct x as [[] [] []], a as [[] [] []]. vunf. vec_eq; ring. Qed.

Lemma orthonormal_gram (m : mat3 R) : orthonormal_cols m -> gram_cols m = eye3.
Proof.
  destruct m as [[] [] []]. unfold orthonormal_cols. vunf.
  intros (H1 & H2 & H3 & H4 & H5 & H6). vec_eq; lra.
Qed.

Lemma rigid_inverse_left (v : mat34 R) :
  gram_cols (rot_block v) = eye3 -> mm44 (rigid_inverse v) (pad_poses v) = eye4.
Proof.
  destruct v as [[] [] []]. unfold rigid_inverse. vunf.
  intros E. injection E as E1 E2 E3 E4 E5 E6 E7 E8 E9.
  vec_eq; nra.
Qed.

(** Lines 362-366: for a non-degenerate view direction and an invertible
    affine [transform], the loop body returns a pose, and the dot products
    of the columns of its rotation block are those of the columns of the
    rotation block of [transform]. *)
Lemma ellipse_render_pose_gram (transform : mat4 R) (center up p : vec3 R) :
  det4 transform <> 0 -> ww transform = V4 0 0 0 1 ->
  cross up (v3sub p center) <> zero3 ->
  exists render_pose,
    ellipse_render_pose transform center up p = Ok render_pose /\
    gram_cols (rot_block (unpad_poses render_pose))
    = gram_cols (rot_block (unpad_poses transform)).
Proof.
  intros Hd Haff Hc. unfold ellipse_render_pose.
  set (v := viewmatrix (v3sub p center) up p).
  assert (Hv : gram_cols (rot_block v) = eye3).
  { apply orthonormal_gram. apply (viewmatrix_rotation (v3sub p center) up p Hc). }
  rewrite inv4_ok by assumption. cbn [bind].
  set (tinv := map4 _ (adj4 transform)).
  assert (Hl : mm44 tinv transform = eye4) by (apply inv4_left; assumption).
  assert (Hr : mm44 transform tinv = eye4) by (apply inv4_right; assumption).
  assert (Htinv : ww tinv = V4 0 0 0 1) by (eapply inverse_affine; eauto).
  assert (Hpad : ww (pad_poses v) = V4 0 0 0 1) by reflexivity.
  rewrite flip_cols_top_affine by (apply mm44_affine; assumption).
  set (D := diag4 1 (-1) (-1) 1).
  assert (HD : mm44 D D = eye4) by (subst D; vunf; vec_eq; ring).
  set (n := mm44 (mm44 D (rigid_inverse v)) transform).
  assert (Hn : mm44 n (mm44 (mm44 tinv (pad_poses v)) D) = eye4).
  { subst n. rewrite !mm44_assoc.
    rewrite <- (mm44_assoc transform tinv), Hr, mm44_eye_l.
    rewrite <- (mm44_assoc (rigid_inverse v)), (rigid_inverse_left v Hv), mm44_eye_l.
    exact HD. }
  exists n. split; [now apply inv4_of_left_inverse|].
  subst n.
  assert (Hri : ww (rigid_inverse v) = V4 0 0 0 1) by reflexivity.
  assert (HDa : ww D = V4 0 0 0 1) by reflexivity.
  rewrite rot_block_mm44 by (try apply mm44_affine; assumption).
  rewrite gram_cols_mm33.
  replace (gram_cols (rot_block (unpad_poses (mm44 D (rigid_inverse v))))) with eye3.
  - now rewrite mm33_eye_l.
  - symmetry. rewrite rot_block_mm44 by assumption.
    apply mm33_inverse_comm in Hv. revert Hv. fold (transpose33 (rot_block v)).
    unfold rigid_inverse. subst D. generalize (rot_block v). intros [[] [] []].
    vunf. intros E. injection E as E1 E2 E3 E4 E5 E6 E7 E8 E9.
    vec_eq; nra.
Qed.

(** ** The two-camera rig, evaluated in exact arithmetic *)

Lemma rig_poses_of_views : poses_of_views (@rig_views R _) = Ok rig_poses.
Proof.
  unfold poses_of_views, rig_views, rig_poses. cbn [mapM]. unfold pose_of_view.
  cbn [view_R view_T].
  rewrite (inv4_of_left_inverse _
    (V4 (V4 (4 / 5) 0 (-3 / 5) 2) (V4 0 (-1) 0 0) (V4 (-3 / 5) 0 (-4 / 5) 0)
        (V4 0 0 0 1))) by reval.
  rewrite (inv4_of_left_inverse _
    (V4 (V4 (4 / 5) 0 (3 / 5) (-2)) (V4 0 (-1) 0 0) (V4 (3 / 5) 0 (-4 / 5) 0)
        (V4 0 0 0 1))) by reval.
  cbn [bind stack]. reval.
Qed.

Lemma rig_align :
  pca_align eig_diag (map unpad_poses rig_poses)
  = (rig_aligned,
     V4 (V4 1 0 0 0) (V4 0 0 (-1) 0) (V4 0 1 0 0) (V4 0 0 0 1)).
Proof.
  rewrite (pca_align_steps eig_diag _
             zero3 (V3 8 0 0) eye3
             (V3 (V3 1 0 0) (V3 0 0 1) (V3 0 1 0))
             (V3 (V3 1 0 0) (V3 0 0 1) (V3 0 (-1) 0))
             (V3 (V4 1 0 0 0) (V4 0 0 1 0) (V4 0 (-1) 0 0))
             ([V3 (V4 (4 / 5) 0 (3 / 5) 2) (V4 (-3 / 5) 0 (4 / 5) 0) (V4 0 (-1) 0 0);
               V3 (V4 (4 / 5) 0 (-3 / 5) (-2)) (V4 (3 / 5) 0 (4 / 5) 0) (V4 0 (-1) 0 0)]));
    unfold rig_poses, rig_aligned; reval.
Qed.

Lemma rig_amax :
  amax (abs_translations (fst (pca_align eig_diag (map unpad_poses rig_poses))))
  = Ok 2.
Proof. rewrite rig_align. cbn [fst]. unfold rig_aligned. reval. Qed.

Lemma rig_pca :
  transform_poses_pca eig_diag (map unpad_poses rig_poses)
  = Ok (rig_recentered, rig_transform).
Proof.
  rewrite (transform_poses_pca_ok _ _ 2 rig_amax), rig_align. cbn [fst snd].
  unfold rig_aligned, rig_recentered, rig_transform. reval.
Qed.

Lemma rig_focus_point : focus_point_fn rig_recentered = Ok (V3 0 (4 / 3) 0).
Proof.
  unfold focus_point_fn, rig_recentered. cbn [map]. cbv zeta.
  match goal with
  | |- context [mean33 ?l] =>
      assert (Em : mean33 l = diag3 (16 / 25) (9 / 25) 1) by reval;
      rewrite Em; clear Em
  end.
  match goal with
  | |- context [mean3 ?l] =>
      assert (Eo : mean3 l = V3 0 (12 / 25) 0) by reval; rewrite Eo; clear Eo
  end.
  unfold inv3. cbn [diag3]. rdecide. cbn [bind]. reval.
Qed.

Lemma rig_up : ellipse_up rig_recentered = V3 0 0 1.
Proof.
  unfold ellipse_up, rig_recentered. cbn [map].
  match goal with
  | |- context [mean3 ?l] =>
      assert (Eo : mean3 l = V3 0 0 1) by reval; rewrite Eo; clear Eo
  end.
  replace (norm (V3 0 0 1)) with 1.
  - unfold argmax3, sign. reval.
  - unfold norm. cbn [ssqrt RScalar]. vunf.
    replace (0 * 0 + 0 * 0 + 1 * 1) with 1 by ring. now rewrite sqrt_1.
Qed.

Lemma rig_min_line_dist :
  min_line_dist (map unpad_poses rig_poses) = Ok (V3 0 0 (-8 / 3)).
Proof.
  unfold min_line_dist, rig_poses. cbn [map]. 
  match goal with
  | |- context [mean33 ?l] =>
      assert (Em : mean33 l = diag3 (16 / 25) 1 (9 / 25)) by reval;
      rewrite Em; clear Em
  end.
  match goal with
  | |- context [mean3 ?l] =>
      assert (Eo : mean3 l = V3 0 0 (24 / 25)) by reval; rewrite Eo; clear Eo
  end.
  unfold inv3. cbn [diag3]. rdecide. cbn [bind]. reval.
Qed.

(** When the poses are read and the least-squares centre is found, the
    frame of lines 400-404 is a [viewmatrix] frame, which is invertible as
    soon as the mean offset is not along [(0.1, 0.2, 0.3)]. *)
Lemma spherify_orbit_returns (views : list (@View R)) poses center :
  poses_of_views views = Ok poses ->
  min_line_dist (map unpad_poses poses) = Ok center ->
  cross (V3 (1 / 10) (2 / 10) (3 / 10))
        (mean3 (map (fun p => v3sub (trans p) center) (map unpad_poses poses)))
    <> zero3 ->
  exists orbit, spherify_orbit views = Ok orbit.
Proof.
  intros Hp Hc Hup. unfold spherify_orbit.
  rewrite Hp. cbn [bind]. rewrite Hc. cbn [bind].
  set (up := mean3 _) in *.
  change (stack_cols _ _ _ center)
    with (viewmatrix up (V3 (1 / 10) (2 / 10) (3 / 10)) center).
  rewrite inv4_ok.
  - cbn [bind]. eexists. reflexivity.
  - rewrite det4_pad.
    rewrite (proj2 (viewmatrix_rotation up _ center Hup)). lra.
Qed.

Lemma rig_orbit : exists orbit, spherify_orbit (@rig_views R _) = Ok orbit.
Proof.
  apply (spherify_orbit_returns rig_views rig_poses (V3 0 0 (-8 / 3))).
  - exact rig_poses_of_views.
  - exact rig_min_line_dist.
  - assert (E : mean3 (map (fun p => v3sub (trans p) (V3 0 0 (-8 / 3)))
                        (map unpad_poses rig_poses)) = V3 0 0 (8 / 3))
      by (unfold rig_poses; reval).
    rewrite E. vunf. intros H. injection H as H1 H2. lra.
Qed.

(** C10 on the two views of [rig_views]. *)
Lemma spherify_path_frames_witness :
  exists new_poses,
    generate_spherify_path (@rig_views R _) = Ok new_poses
    /\ length new_poses = 120%nat
    /\ nth 119 new_poses eye4 = nth 0 new_poses eye4.
Proof.
  destruct rig_orbit as [orbit E].
  exact (spherify_path_frames rig_views orbit E).
Defined.

(** *** The ellipse path *)

Lemma mapM_Forall {A B} (f : A -> result B) (Q : B -> Prop) (l : list A) :
  Forall (fun a => exists b, f a = Ok b /\ Q b) l ->
  exists bs, mapM f l = Ok bs /\ length bs = length l /\ Forall Q bs.
Proof.
  induction 1 as [|a l (b & Hb & HQ) Hl (bs & Hbs & Hlen & HQs)]; cbn [mapM].
  - exists []. repeat split. constructor.
  - rewrite Hb. cbn [bind]. rewrite Hbs. cbn [bind].
    exists (b :: bs). repeat split; [cbn [length]; now f_equal | now constructor].
Qed.

Lemma rig_transform_gram :
  gram_cols (rot_block (unpad_poses rig_transform)) = diag3 (1 / 4) (1 / 4) (1 / 4).
Proof. unfold rig_transform. reval. Qed.

(** C6, on the code.  For the two views of [rig_views] (cameras at
    [(2,0,0)] and [(-2,0,0)], so [scale_factor = 1/2]) and any sample
    positions not on the vertical through the focus point,
    [generate_ellipse_path] returns one pose per position, and the columns
    of the rotation block of every returned pose are orthogonal of
    squared length 1/4: the block is a rotation scaled by [scale_factor],
    not an orthonormal matrix. *)
Theorem ellipse_path_rotation_scaled
  (ellipse_positions : list (mat34 R) -> vec3 R -> list (vec3 R)) :
  Forall (fun p => cross (V3 0 0 1) (v3sub p (V3 0 (4 / 3) 0)) <> zero3)
         (ellipse_positions rig_recentered (V3 0 (4 / 3) 0)) ->
  exists render_poses,
    generate_ellipse_path eig_diag ellipse_positions rig_views = Ok render_poses
    /\ length render_poses
       = length (ellipse_positions rig_recentered (V3 0 (4 / 3) 0))
    /\ Forall (fun render_pose =>
                 gram_cols (rot_block (unpad_poses render_pose))
                 = diag3 (1 / 4) (1 / 4) (1 / 4)) render_poses.
Proof.
  intros Hpos. unfold generate_ellipse_path.
  rewrite rig_poses_of_views. cbn [bind]. rewrite rig_pca. cbn [bind].
  rewrite rig_focus_point. cbn [bind]. rewrite rig_up.
  apply mapM_Forall. eapply Forall_impl; [|exact Hpos]. cbn beta.
  intros p Hp. rewrite <- rig_transform_gram.
  apply ellipse_render_pose_gram; [|reflexivity|exact Hp].
  unfold rig_transform. vunf. lra.
Qed.

(** C6 with the single sample position [(1,0,0)]. *)
Lemma ellipse_path_rotation_scaled_witness :
  exists render_poses,
    generate_ellipse_path eig_diag (fun _ _ => [V3 1 0 0]) rig_views
    = Ok render_poses
    /\ length render_poses = 1%nat
    /\ Forall (fun render_pose =>
                 gram_cols (rot_block (unpad_poses render_pose))
                 = diag3 (1 / 4) (1 / 4) (1 / 4)) render_poses.
Proof.
  apply (ellipse_path_rotation_scaled (fun _ _ => [V3 1 0 0])).
  repeat constructor. vunf. intros H. injection H as H1 H2. lra.
Defined.

(** * Further properties of the code *)

(** ** [normalize] and [viewmatrix] *)

Lemma sum_squares_zero (a b c : R) : a * a + b * b + c * c = 0 -> a = 0 /\ b = 0 /\ c = 0.
Proof.
  intros H. assert (Ha : a * a = 0) by nra. assert (Hb : b * b = 0) by nra.
  assert (Hc : c * c = 0) by nra.
  repeat split; apply Rsqr_0_uniq; assumption.
Qed.

(** A unit vector that has unit triple product with two orthogonal unit
    vectors is their cross product. *)
Lemma cross_of_frame (x y z : vec3 R) :
  dot3 x x = 1 -> dot3 y y = 1 -> dot3 z z = 1 -> dot3 y z = 0 ->
  dot3 x (cross y z) = 1 -> cross y z = x.
Proof.
  destruct x as [a d g], y as [b e h], z as [c f i]. vunf. intros Hx Hy Hz Hyz Hd.
  assert (E : (e * i - h * f - a) * (e * i - h * f - a)
            + (h * c - b * i - d) * (h * c - b * i - d)
            + (b * f - e * c - g) * (b * f - e * c - g)
            = (b * b + e * e + h * h) * (c * c + f * f + i * i)
              - (b * c + e * f + h * i) * (b * c + e * f + h * i)
              - 2 * (a * (e * i - h * f) + d * (h * c - b * i) + g * (b * f - e * c))
              + (a * a + d * d + g * g)) by ring.
  rewrite Hx, Hy, Hz, Hyz, Hd in E.
  replace (1 * 1 - 0 * 0 - 2 * 1 + 1) with 0 in E by ring.
  apply sum_squares_zero in E. destruct E as (E1 & E2 & E3).
  vec_eq; lra.
Qed.

Lemma frame_cross (m : mat3 R) :
  orthonormal_cols m -> det3 m = 1 ->
  cross (vy (cols33 m)) (vz (cols33 m)) = vx (cols33 m) /\
  cross (vz (cols33 m)) (vx (cols33 m)) = vy (cols33 m).
Proof.
  destruct m as [[a b c] [d e f] [g h i]]. unfold orthonormal_cols.
  intros (H1 & H2 & H3 & H4 & H5 & H6) Hd. split.
  - apply cross_of_frame; try assumption. 
    + rewrite <- Hd. vunf. ring.
  - apply cross_of_frame; try assumption.
    + rewrite <- H5. vunf. ring.
    + rewrite <- Hd. vunf. ring.
Qed.

Lemma viewmatrix_of_frame (p : mat34 R) :
  orthonormal_cols (rot_block p) -> det3 (rot_block p) = 1 ->
  viewmatrix (zaxis p) (yaxis p) (trans p) = p.
Proof.
  intros Ho Hd. destruct (frame_cross _ Ho Hd) as [Hx Hy].
  destruct Ho as (H1 & H2 & H3 & _).
  destruct p as [[a b c t1] [d e f t2] [g h i t3]].
  cbv [cols33 rot_block map3 vx vy vz wx wy wz ww] in H1, H2, H3, Hx, Hy.
  cbv [viewmatrix zaxis yaxis trans map3 vx vy vz wx wy wz ww].
  rewrite (normalize_of_unit (V3 c f i)) by assumption.
  rewrite Hx, (normalize_of_unit (V3 a d g)) by assumption.
  rewrite Hy, (normalize_of_unit (V3 b e h)) by assumption.
  reflexivity.
Qed.

Lemma sum3_shift (l : list (vec3 R)) (a : vec3 R) :
  fold_left v3add l a = v3add a (sum3 l).
Proof.
  unfold sum3. revert a. induction l as [|x l IH]; intros a; cbn [fold_left].
  - destruct a. vunf. vec_eq; ring.
  - rewrite IH, (IH (v3add _ x)). destruct a, x, (fold_left v3add l _). vunf.
    vec_eq; ring.
Qed.

Lemma sum3_cons (x : vec3 R) (l : list (vec3 R)) : sum3 (x :: l) = v3add x (sum3 l).
Proof.
  unfold sum3 at 1. cbn [fold_left]. rewrite sum3_shift.
  destruct x, (sum3 l). vunf. vec_eq; ring.
Qed.

Lemma sum3_nil : sum3 (@nil (vec3 R)) = zero3.
Proof. reflexivity. Qed.

Lemma sum3_repeat (v : vec3 R) (n : nat) : sum3 (repeat v n) = v3scale (INR n) v.
Proof.
  induction n as [|n IH].
  - cbn [repeat INR]. rewrite sum3_nil. destruct v. vunf. vec_eq; ring.
  - cbn [repeat]. rewrite sum3_cons, IH, S_INR. destruct v. vunf. vec_eq; ring.
Qed.

Lemma mean3_repeat (v : vec3 R) (n : nat) : mean3 (repeat v (S n)) = v.
Proof.
  unfold mean3. rewrite sum3_repeat, count_INR, repeat_length.
  pose proof (pos_INR n) as Hn. rewrite S_INR. destruct v. vunf.
  vec_eq; field; lra.
Qed.

(** X1. [viewmatrix] applied to the viewing axis, the up axis and the
    position of a pose whose rotation block is orthonormal and right-handed
    gives back that pose: on such poses the frame construction of lines
    11-17 changes nothing. *)
Theorem viewmatrix_rebuilds_pose (p : mat34 R) :
  orthonormal_cols (rot_block p) -> det3 (rot_block p) = 1 ->
  viewmatrix (zaxis p) (yaxis p) (trans p) = p.
Proof. exact (viewmatrix_of_frame p). Qed.

(** X2. The average of one pose, or of any positive number of copies of one
    pose, is that pose when its rotation block is orthonormal and
    right-handed. *)
Theorem average_pose_of_copies (p : mat34 R) (n : nat) :
  orthonormal_cols (rot_block p) -> det3 (rot_block p) = 1 ->
  average_pose (repeat p (S n)) = p.
Proof.
  intros Ho Hd. unfold average_pose. rewrite !map_repeat, !mean3_repeat.
  now apply viewmatrix_of_frame.
Qed.

Lemma viewmatrix_rebuilds_pose_witness :
  viewmatrix (V3 (3 / 5) (-4 / 5) 0) (V3 0 0 1) (V3 1 0 0)
  = V3 (V4 (4 / 5) 0 (3 / 5) 1) (V4 (3 / 5) 0 (-4 / 5) 0) (V4 0 1 0 0).
Proof.
  apply (viewmatrix_rebuilds_pose
           (V3 (V4 (4 / 5) 0 (3 / 5) 1) (V4 (3 / 5) 0 (-4 / 5) 0) (V4 0 1 0 0))).
  - unfold orthonormal_cols. vunf. repeat split; lra.
  - vunf. lra.
Defined.

Lemma average_pose_of_copies_witness :
  average_pose (repeat (V3 (V4 (4 / 5) 0 (3 / 5) 1) (V4 (3 / 5) 0 (-4 / 5) 0) (V4 0 1 0 0)) 3)
  = V3 (V4 (4 / 5) 0 (3 / 5) 1) (V4 (3 / 5) 0 (-4 / 5) 0) (V4 0 1 0 0).
Proof.
  apply (average_pose_of_copies
           (V3 (V4 (4 / 5) 0 (3 / 5) 1) (V4 (3 / 5) 0 (-4 / 5) 0) (V4 0 1 0 0)) 2).
  - unfold orthonormal_cols. vunf. repeat split; lra.
  - vunf. lra.
Defined.

(** ** [focus_point_fn] and [min_line_dist] *)

Lemma Reqb_true x : Reqb x x = true.
Proof. unfold Reqb. now destruct (Req_dec_T x x). Qed.

Lemma sum33_shift (l : list (mat3 R)) (a : mat3 R) :
  fold_left (zip3 v3add) l a
  = zip3 v3add a (fold_left (zip3 v3add) l (V3 zero3 zero3 zero3)).
Proof.
  revert a. induction l as [|x l IH]; intros a; cbn [fold_left].
  - destruct a as [[] [] []]. vunf. vec_eq; ring.
  - rewrite IH, (IH (zip3 _ _ x)).
    destruct a as [[] [] []], x as [[] [] []], (fold_left _ l _) as [[] [] []].
    vunf. vec_eq; ring.
Qed.

(** The mean of matrix-vector products with one vector is the product of
    the mean matrix with it. *)
Lemma mean3_mv33 {A} (f : A -> mat3 R) (x : vec3 R) (l : list A) :
  mean3 (map (fun p => mv33 (f p) x) l) = mv33 (mean33 (map f l)) x.
Proof.
  unfold mean3, mean33. rewrite !count_INR, !length_map.
  set (c := INR (length l)). clearbody c.
  assert (E : sum3 (map (fun p => mv33 (f p) x) l)
              = mv33 (fold_left (zip3 v3add) (map f l) (V3 zero3 zero3 zero3)) x).
  { induction l as [|p l IH]; cbn [map fold_left].
    - rewrite sum3_nil. destruct x. vunf. vec_eq; ring.
    - rewrite sum3_cons, IH, (sum33_shift _ (zip3 _ _ _)).
      destruct (f p) as [[] [] []], (fold_left _ _ _) as [[] [] []], x.
      vunf. vec_eq; ring. }
  rewrite E. change (V3 (sofZ 0) (sofZ 0) (sofZ 0)) with zero3.
  destruct (fold_left _ _ _) as [[] [] []], x. vunf. vec_eq; unfold Rdiv; ring.
Qed.

Lemma mean3_opp (l : list (vec3 R)) : mean3 (map v3opp l) = v3opp (mean3 l).
Proof.
  unfold mean3. rewrite !count_INR, !length_map.
  set (c := INR (length l)). clearbody c.
  assert (E : sum3 (map v3opp l) = v3opp (sum3 l)).
  { induction l as [|p l IH]; cbn [map].
    - rewrite sum3_nil. vunf. vec_eq; ring.
    - rewrite !sum3_cons, IH. destruct p, (sum3 l). vunf. vec_eq; ring. }
  rewrite E. destruct (sum3 l). vunf. vec_eq; unfold Rdiv; ring.
Qed.

(** For a unit axis [d] the matrix [I - d d^T] is a symmetric projector. *)
Lemma axis_projector_idem (d : vec3 R) :
  dot3 d d = 1 ->
  mm33 (transpose33 (axis_projector d)) (axis_projector d) = axis_projector d.
Proof.
  destruct d as [a b c]. vunf. intros Hd.
  assert (Haa : a * a * (a * a + b * b + c * c) = a * a) by (rewrite Hd; ring).
  assert (Hab : a * b * (a * a + b * b + c * c) = a * b) by (rewrite Hd; ring).
  assert (Hac : a * c * (a * a + b * b + c * c) = a * c) by (rewrite Hd; ring).
  assert (Hbb : b * b * (a * a + b * b + c * c) = b * b) by (rewrite Hd; ring).
  assert (Hbc : b * c * (a * a + b * b + c * c) = b * c) by (rewrite Hd; ring).
  assert (Hcc : c * c * (a * a + b * b + c * c) = c * c) by (rewrite Hd; ring).
  vec_eq; lra.
Qed.

Lemma axis_projector_det (d : vec3 R) : det3 (axis_projector d) = 1 - dot3 d d.
Proof. destruct d as [a b c]. vunf. ring. Qed.

Lemma axis_projector_opp (d : vec3 R) : axis_projector (v3opp d) = axis_projector d.
Proof. destruct d as [a b c]. vunf. vec_eq; ring. Qed.

(** [I - d d^T] maps the multiples of the unit axis [d] to zero. *)
Lemma axis_projector_kills (d w : vec3 R) :
  dot3 d d = 1 -> cross d w = zero3 -> mv33 (axis_projector d) w = zero3.
Proof.
  destruct d as [a b c], w as [u v w]. vunf. intros Hd E.
  injection E as E1 E2 E3.
  assert (Hu : u * (a * a + b * b + c * c) = u) by (rewrite Hd; ring).
  assert (Hv : v * (a * a + b * b + c * c) = v) by (rewrite Hd; ring).
  assert (Hw : w * (a * a + b * b + c * c) = w) by (rewrite Hd; ring).
  assert (F1 : forall k, k * (b * w - c * v) = 0) by (intros k; rewrite E1; ring).
  assert (F2 : forall k, k * (c * u - a * w) = 0) by (intros k; rewrite E2; ring).
  assert (F3 : forall k, k * (a * v - b * u) = 0) by (intros k; rewrite E3; ring).
  pose proof (F1 a); pose proof (F1 b); pose proof (F1 c).
  pose proof (F2 a); pose proof (F2 b); pose proof (F2 c).
  pose proof (F3 a); pose proof (F3 b); pose proof (F3 c).
  vec_eq; lra.
Qed.

Lemma mv33_sub (m : mat3 R) (u v : vec3 R) :
  mv33 m (v3sub u v) = zero3 -> mv33 m u = mv33 m v.
Proof.
  destruct m as [[] [] []], u, v. vunf. intros E. injection E as E1 E2 E3.
  vec_eq; lra.
Qed.

Lemma adj3_left (m : mat3 R) :
  mm33 (adj3 m) m = diag3 (det3 m) (det3 m) (det3 m).
Proof. destruct m as [[] [] []]. vunf. vec_eq; ring. Qed.

Lemma inv3_apply (m : mat3 R) (x : vec3 R) :
  det3 m <> 0 ->
  mv33 (map3 (map3 (fun a => a / det3 m)) (adj3 m)) (mv33 m x) = x.
Proof.
  intros Hd. pose proof (adj3_left m) as E.
  set (dt := det3 m) in *. clearbody dt.
  destruct m as [[a b c] [d e f] [g h i]], x as [x y z]. revert E. vunf.
  intros E. injection E as E1 E2 E3 E4 E5 E6 E7 E8 E9.
  vec_eq; field_simplify_eq; try assumption; nra.
Qed.


Lemma det3_kernel (m : mat3 R) (d : vec3 R) :
  mv33 m d = zero3 -> d <> zero3 -> det3 m = 0.
Proof.
  intros E Hd. destruct (Req_dec (det3 m) 0) as [H0 | Hn]; [assumption|].
  exfalso. apply Hd. rewrite <- (inv3_apply m d Hn), E.
  destruct (map3 _ (adj3 m)) as [[] [] []]. vunf. vec_eq; ring.
Qed.

Lemma mean3_zero {A} (l : list A) : mean3 (map (fun _ => zero3) l) = zero3.
Proof.
  unfold mean3. set (c := count _). clearbody c.
  assert (E : sum3 (map (fun _ : A => zero3) l) = zero3).
  { induction l as [|p l IH]; cbn [map]; [apply sum3_nil|].
    rewrite sum3_cons, IH. vunf. vec_eq; ring. }
  rewrite E. vunf. vec_eq; unfold Rdiv; ring.
Qed.

Lemma inv3_singular (m : mat3 R) : det3 m = 0 -> inv3 m = Raise LinAlgError.
Proof.
  intros Hd. unfold inv3. destruct m as [[a b c] [d e f] [g h i]].
  change (@seqb R RScalar) with Reqb. change (sofZ 0) with 0.
  rewrite Hd, Reqb_true. reflexivity.
Qed.

Lemma mv33_opp (m : mat3 R) (v : vec3 R) :
  mv33 (map3 v3opp m) v = v3opp (mv33 m v).
Proof. destruct m as [[] [] []], v. vunf. vec_eq; ring. Qed.

Lemma mv33_opp_opp (m : mat3 R) (v : vec3 R) :
  mv33 (map3 v3opp m) (v3opp v) = mv33 m v.
Proof. destruct m as [[] [] []], v. vunf. vec_eq; ring. Qed.

(** X3. When the viewing axes of all poses are unit vectors and pass
    through one point [x], and the averaged projector is invertible,
    [focus_point_fn] returns exactly [x]. *)
Theorem focus_point_of_converging_axes (poses : list (mat34 R)) (x : vec3 R) :
  Forall (fun p => dot3 (zaxis p) (zaxis p) = 1
                   /\ cross (zaxis p) (v3sub (trans p) x) = zero3) poses ->
  det3 (mean33 (map (fun p => axis_projector (zaxis p)) poses)) <> 0 ->
  focus_point_fn poses = Ok x.
Proof.
  intros Hall Hd. unfold focus_point_fn. cbv zeta.
  assert (E1 : map (fun mi => mm33 (transpose33 mi) mi)
                   (map (fun p => axis_projector (zaxis p)) poses)
               = map (fun p => axis_projector (zaxis p)) poses).
  { rewrite map_map. apply map_ext_in. intros p Hp.
    rewrite Forall_forall in Hall. apply axis_projector_idem, (Hall p Hp). }
  assert (E2 : map (fun p => mv33 (mm33 (transpose33 (axis_projector (zaxis p)))
                                         (axis_projector (zaxis p))) (trans p)) poses
               = map (fun p => mv33 (axis_projector (zaxis p)) x) poses).
  { apply map_ext_in. intros p Hp.
    rewrite Forall_forall in Hall. destruct (Hall p Hp) as [Hu Hc].
    rewrite axis_projector_idem by assumption.
    apply mv33_sub, axis_projector_kills; assumption. }
  rewrite E1, E2, mean3_mv33, inv3_ok by assumption. cbn [bind].
  apply f_equal, inv3_apply. assumption.
Qed.

Lemma focus_point_of_converging_axes_witness :
  focus_point_fn
    [V3 (V4 0 0 1 5) (V4 0 1 0 2) (V4 (-1) 0 0 3);
     V3 (V4 1 0 0 1) (V4 0 0 1 (-4)) (V4 0 (-1) 0 3)]
  = Ok (V3 1 2 3).
Proof.
  apply focus_point_of_converging_axes.
  - repeat constructor; vunf; try lra; vec_eq; lra.
  - lunf. vunf. lra.
Defined.

(** X4. In exact arithmetic, when the viewing axes of all poses are unit
    vectors parallel to one direction [d] (in particular for a single
    pose), the matrix [mt_m.mean(0)] that [focus_point_fn] hands to
    [np.linalg.inv] (line 128) has determinant 0: it sends [d] to 0. *)
Theorem focus_point_parallel_axes_singular (poses : list (mat34 R)) (d : vec3 R) :
  poses <> [] -> d <> zero3 ->
  Forall (fun p => dot3 (zaxis p) (zaxis p) = 1
                   /\ cross (zaxis p) d = zero3) poses ->
  let m := map (fun p => axis_projector (zaxis p)) poses in
  let mt_m := map (fun mi => mm33 (transpose33 mi) mi) m in
  mv33 (mean33 mt_m) d = zero3 /\ det3 (mean33 mt_m) = 0.
Proof.
  intros _ Hd Hall. cbv zeta.
  assert (Hk : mv33 (mean33 (map (fun mi => mm33 (transpose33 mi) mi)
                               (map (fun p => axis_projector (zaxis p)) poses))) d
               = zero3); [|split; [exact Hk | now apply det3_kernel with (d := d)]].
  rewrite map_map, <- mean3_mv33.
  rewrite (map_ext_in _ (fun _ => zero3)); [apply mean3_zero|].
  intros p Hp. rewrite Forall_forall in Hall. destruct (Hall p Hp) as [Hu Hc].
  rewrite axis_projector_idem by assumption.
  now apply axis_projector_kills.
Qed.

Lemma focus_point_parallel_axes_singular_witness :
  let poses := [V3 (V4 (4 / 5) 0 (3 / 5) 0) (V4 0 1 0 0) (V4 (-3 / 5) 0 (4 / 5) 0);
                V3 (V4 (-4 / 5) 0 (-3 / 5) 4) (V4 0 1 0 2) (V4 (3 / 5) 0 (-4 / 5) 7)] in
  let m := map (fun p => axis_projector (zaxis p)) poses in
  let mt_m := map (fun mi => mm33 (transpose33 mi) mi) m in
  mv33 (mean33 mt_m) (V3 3 0 4) = zero3 /\ det3 (mean33 mt_m) = 0.
Proof.
  intros poses.
  apply (focus_point_parallel_axes_singular poses (V3 3 0 4)).
  - discriminate.
  - intros E. injection E as E. lra.
  - repeat constructor; vunf; try lra; vec_eq; lra.
Defined.

(** X5. On poses whose viewing axes are unit vectors, [min_line_dist] (the
    nested function of [generate_spherify_path]) and [focus_point_fn]
    compute the same point and fail on the same inputs. *)
Theorem min_line_dist_is_focus_point (poses : list (mat34 R)) :
  Forall (fun p => dot3 (zaxis p) (zaxis p) = 1) poses ->
  min_line_dist poses = focus_point_fn poses.
Proof.
  intros Hall. unfold min_line_dist, focus_point_fn. cbv zeta.
  destruct (inv3 _) as [m_inv | e]; [|reflexivity]. cbn [bind]. apply f_equal.
  rewrite (map_ext_in _ (fun p => v3opp (mv33 (mm33 (transpose33 (axis_projector (zaxis p)))
                                                   (axis_projector (zaxis p))) (trans p)))).
  - rewrite <- (map_map _ v3opp), mean3_opp. apply mv33_opp_opp.
  - intros p Hp. rewrite Forall_forall in Hall.
    rewrite axis_projector_idem by exact (Hall p Hp). apply mv33_opp.
Qed.

Lemma min_line_dist_is_focus_point_witness :
  min_line_dist [V3 (V4 0 0 1 5) (V4 0 1 0 2) (V4 (-1) 0 0 3);
                 V3 (V4 1 0 0 1) (V4 0 0 1 (-4)) (V4 0 (-1) 0 3)]
  = focus_point_fn [V3 (V4 0 0 1 5) (V4 0 1 0 2) (V4 (-1) 0 0 3);
                    V3 (V4 1 0 0 1) (V4 0 0 1 (-4)) (V4 0 (-1) 0 3)].
Proof.
  apply min_line_dist_is_focus_point.
  repeat constructor; vunf; lra.
Defined.

(** ** [transform_poses_pca] *)

Lemma argsort_rev_cases (w : vec3 R) :
  exists i j k,
    argsort_rev w = [i; j; k]
    /\ (In J0 [i; j; k] /\ In J1 [i; j; k] /\ In J2 [i; j; k])
    /\ get3 k w <= get3 j w <= get3 i w.
Proof.
  destruct w as [a b c]. unfold argsort_rev.
  cbn [fold_left argsort_insert get3 vx vy vz].
  change (@sltb R RScalar) with Rltb. unfold Rltb.
  destruct (Rlt_dec b a); cbn [argsort_insert get3 vx vy vz];
    change (@sltb R RScalar) with Rltb; unfold Rltb;
    repeat (destruct (Rlt_dec _ _); cbn [argsort_insert get3 vx vy vz];
            change (@sltb R RScalar) with Rltb; unfold Rltb);
    eexists _, _, _; (split; [reflexivity|]); cbn [In get3 vx vy vz];
    (split; [tauto | lra]).
Qed.

Lemma gram_orthonormal (m : mat3 R) : gram_cols m = eye3 -> orthonormal_cols m.
Proof.
  destruct m as [[] [] []]. unfold orthonormal_cols. vunf.
  intros E. injection E as E1 E2 E3 E4 E5 E6 E7 E8 E9. repeat split; lra.
Qed.

Lemma orthonormal_rows (m : mat3 R) :
  orthonormal_cols m -> mm33 m (transpose33 m) = eye3.
Proof. intros Ho. apply mm33_inverse_comm, (orthonormal_gram m Ho). Qed.

Lemma orthonormal_det (m : mat3 R) :
  orthonormal_cols m -> det3 m = 1 \/ det3 m = -1.
Proof.
  intros Ho. pose proof (orthonormal_gram m Ho) as E. unfold gram_cols in E.
  pose proof (det3_mul (transpose33 m) m) as Hm. rewrite E in Hm.
  assert (Ht : det3 (transpose33 m) = det3 m).
  { destruct m as [[] [] []]. vunf. ring. }
  rewrite Ht in Hm. assert (H1 : det3 (@eye3 R _) = 1) by (vunf; ring).
  rewrite H1 in Hm.
  assert (Hf : (det3 m - 1) * (det3 m + 1) = 0) by lra.
  apply Rmult_integral in Hf. destruct Hf; [left | right]; lra.
Qed.

(** The rows picked from orthonormal eigenvectors are orthonormal. *)
Lemma select_cols_orthonormal (w : vec3 R) (e : mat3 R) :
  orthonormal_cols e -> orthonormal_cols (select_cols_T (argsort_rev w) e).
Proof.
  intros Ho.
  destruct (argsort_rev_cases w) as (i & j & k & -> & (H0 & H1 & H2) & _).
  apply gram_orthonormal. apply mm33_inverse_comm.
  unfold select_cols_T. cbn [nth].
  destruct e as [[e00 e01 e02] [e10 e11 e12] [e20 e21 e22]].
  revert Ho. unfold orthonormal_cols. vunf.
  intros (O1 & O2 & O3 & O4 & O5 & O6).
  cbn [In] in H0, H1, H2.
  destruct i, j, k; try (exfalso; intuition congruence);
    cbn [get3 vx vy vz]; vec_eq; lra.
Qed.

Lemma mean1_opp {A} (f : A -> R) (l : list A) :
  mean1 (map (fun p => - f p) l) = - mean1 (map f l).
Proof.
  unfold mean1. rewrite !count_INR, !length_map.
  rewrite (map_ext _ (fun p => f p * -1)) by (intros; ring).
  rewrite <- (map_map f (fun x => x * -1)), sum1_scale.
  change (@sdiv R RScalar) with Rdiv. unfold Rdiv. ring.
Qed.

Lemma det3_flip_z (m : mat3 R) : det3 (mm33 (diag3 1 1 (-1)) m) = - det3 m.
Proof. destruct m as [[] [] []]. vunf. ring. Qed.

Lemma det3_flip_yz (m : mat3 R) : det3 (mm33 (diag3 1 (-1) (-1)) m) = det3 m.
Proof. destruct m as [[] [] []]. vunf. ring. Qed.

Lemma gram_cols_flip_z (m : mat3 R) :
  gram_cols (mm33 (diag3 1 1 (-1)) m) = gram_cols m.
Proof.
  destruct m as [[m00 m01 m02] [m10 m11 m12] [m20 m21 m22]]. vunf. vec_eq; ring.
Qed.

Lemma gram_cols_flip_yz (m : mat3 R) :
  gram_cols (mm33 (diag3 1 (-1) (-1)) m) = gram_cols m.
Proof.
  destruct m as [[m00 m01 m02] [m10 m11 m12] [m20 m21 m22]]. vunf. vec_eq; ring.
Qed.

(** The shape of [pca_align]: one matrix [A] of non-negative determinant
    acts on the poses, after the mean position has been subtracted; the
    mean of the [2,1] entries of the result is not negative; and [A] is a
    rotation when [eig] returns orthonormal eigenvectors. *)
Lemma pca_align_form eig (poses : list (mat34 R)) :
  exists A,
    let b := mv33 A (v3opp (mean3 (map trans poses))) in
    pca_align eig poses = (map (affine A b) poses, pad_poses (hcat A b))
    /\ 0 <= det3 A
    /\ 0 <= mean1 (map (fun p => wy (vz p)) (map (affine A b) poses))
    /\ ((forall m, orthonormal_cols (snd (eig m))) ->
        orthonormal_cols A /\ det3 A = 1).
Proof.
  unfold pca_align.
  set (tm := mean3 (map trans poses)).
  destruct (eig (gram _)) as [eigval eigvec] eqn:Ee.
  set (rot0 := select_cols_T (argsort_rev eigval) eigvec).
  change (@sltb R RScalar) with Rltb.
  change (sofZ (-1)) with (-1). change (sofZ 1) with 1. change (sofZ 0) with 0.
  set (rot := if Rltb (det3 rot0) 0 then mm33 (diag3 1 1 (-1)) rot0 else rot0).
  assert (Hdet : 0 <= det3 rot).
  { unfold rot, Rltb. destruct (Rlt_dec _ _) as [Hl | Hl].
    - rewrite det3_flip_z. lra.
    - lra. }
  assert (Hort : (forall m, orthonormal_cols (snd (eig m))) ->
                 orthonormal_cols rot /\ det3 rot = 1).
  { intros He. specialize (He (gram (map (fun v => v3sub v tm) (map trans poses)))).
    rewrite Ee in He. cbn [snd] in He.
    pose proof (select_cols_orthonormal eigval eigvec He) as H0. fold rot0 in H0.
    assert (Hr : orthonormal_cols rot).
    { unfold rot. destruct (Rltb _ _); [|assumption].
      apply gram_orthonormal. rewrite gram_cols_flip_z.
      now apply orthonormal_gram. }
    split; [assumption|]. destruct (orthonormal_det rot Hr); lra. }
  clearbody rot. clear rot0 Ee.
  set (recd := map _ poses).
  assert (Erec : recd = map (affine rot (mv33 rot (v3opp tm))) poses) by reflexivity.
  clearbody recd.
  unfold Rltb. destruct (Rlt_dec _ _) as [Hl | Hl].
  - exists (mm33 (diag3 1 (-1) (-1)) rot). cbv zeta.
    assert (Eflip : map (mm33_34 (diag3 1 (-1) (-1))) recd
                    = map (affine (mm33 (diag3 1 (-1) (-1)) rot)
                             (mv33 (mm33 (diag3 1 (-1) (-1)) rot) (v3opp tm))) poses).
    { rewrite Erec, map_map. apply map_ext. intros p.
      destruct rot as [[] [] []], tm, p as [[] [] []]. vunf. vec_eq; ring. }
    rewrite <- Eflip. split; [|split; [|split]].
    + f_equal. destruct rot as [[] [] []], tm. vunf. vec_eq; ring.
    + rewrite det3_flip_yz. assumption.
    + rewrite map_map.
      rewrite (map_ext _ (fun p => - wy (vz p))).
      * rewrite mean1_opp. lra.
      * intros p. destruct p as [[] [] []]. vunf. ring.
    + intros He. destruct (Hort He) as [Ho Hd]. split.
      * apply gram_orthonormal. rewrite gram_cols_flip_yz.
        now apply orthonormal_gram.
      * now rewrite det3_flip_yz.
  - exists rot. cbv zeta. rewrite <- Erec. split; [|split; [|split]].
    + f_equal. destruct rot as [[] [] []], tm. vunf. reflexivity.
    + assumption.
    + lra.
    + assumption.
Qed.

Lemma transform_poses_pca_inv eig (poses recd : list (mat34 R)) (tr : mat4 R) :
  transform_poses_pca eig poses = Ok (recd, tr) ->
  exists m,
    amax (abs_translations (fst (pca_align eig poses))) = Ok m
    /\ recd = map (scale_trans (1 / m)) (fst (pca_align eig poses))
    /\ tr = mm44 (diag4 (1 / m) (1 / m) (1 / m) 1) (snd (pca_align eig poses)).
Proof.
  unfold transform_poses_pca. destruct (pca_align eig poses) as [rec0 tr0].
  cbn [fst snd]. destruct (amax _) as [m | e]; cbn [bind]; [|discriminate].
  intros E. injection E as <- <-. exists m. repeat split.
Qed.

Lemma sum3_affine (A : mat3 R) (b : vec3 R) (s : R) (poses : list (mat34 R)) :
  sum3 (map (fun p => trans (scale_trans s (affine A b p))) poses)
  = v3scale s (v3add (mv33 A (sum3 (map trans poses)))
                     (v3scale (INR (length poses)) b)).
Proof.
  induction poses as [|p l IH].
  - cbn [map length INR]. rewrite !sum3_nil.
    destruct A as [[] [] []], b. vunf. vec_eq; ring.
  - cbn [map]. rewrite !sum3_cons, IH. cbn [length]. rewrite S_INR.
    destruct A as [[] [] []], b, p as [[] [] []], (sum3 (map trans l)). vunf.
    vec_eq; ring.
Qed.

(** X6. [np.argsort(eigval)[::-1]] of line 267: the three indices come
    back, each once, with their keys in non-increasing order. *)
Theorem argsort_rev_sorts (w : vec3 R) :
  exists i j k,
    argsort_rev w = [i; j; k]
    /\ (In J0 [i; j; k] /\ In J1 [i; j; k] /\ In J2 [i; j; k])
    /\ get3 k w <= get3 j w <= get3 i w.
Proof. exact (argsort_rev_cases w). Qed.

(** X7. Let [m] be the greatest absolute coordinate of the aligned camera
    positions, not 0, so that [scale_factor = 1/m] is a number.  When
    [np.linalg.eig] returns orthonormal eigenvectors, the rotation block
    of the transform returned by [transform_poses_pca] is a proper
    rotation [Q] (orthonormal, determinant 1: lines 277-278 undo a
    reflection, lines 287-289 flip two axes) times [1/m], and every
    returned pose has the rotation block [Q @ R] of its input pose: the
    scale acts on the positions only. *)
Theorem pca_transform_scaled_rotation eig (poses recd : list (mat34 R)) (tr : mat4 R)
    (m : R) :
  (forall c, orthonormal_cols (snd (eig c))) ->
  amax (abs_translations (fst (pca_align eig poses))) = Ok m ->
  m <> 0 ->
  transform_poses_pca eig poses = Ok (recd, tr) ->
  exists Q,
    orthonormal_cols Q /\ det3 Q = 1
    /\ rot_block (unpad_poses tr) = m3scale (1 / m) Q
    /\ map rot_block recd = map (fun p => mm33 Q (rot_block p)) poses.
Proof.
  intros He Hmax Hm E.
  rewrite (transform_poses_pca_ok eig poses m Hmax) in E. injection E as <- <-.
  destruct (pca_align_form eig poses) as (A & Ea & _ & _ & Ho). cbv zeta in Ea.
  destruct (Ho He) as [Ho1 Ho2]. rewrite Ea. cbn [fst snd].
  clear Hmax Ea. set (s := 1 / m). clearbody s.
  exists A. repeat split; try apply Ho1; try assumption.
  - set (b := mv33 A _). clearbody b. destruct A as [[] [] []], b. vunf.
    vec_eq; ring.
  - rewrite !map_map. apply map_ext. intros p.
    set (b := mv33 A _). clearbody b.
    destruct A as [[] [] []], b, p as [[] [] []]. vunf. vec_eq; ring.
Qed.

Lemma eig_diag_orthonormal (m : mat3 R) : orthonormal_cols (snd (eig_diag m)).
Proof. cbn [eig_diag snd]. unfold orthonormal_cols. vunf. repeat split; ring. Qed.

Lemma pca_transform_scaled_rotation_witness :
  exists Q,
    orthonormal_cols Q /\ det3 Q = 1
    /\ rot_block (unpad_poses rig_transform) = m3scale (1 / 2) Q
    /\ map rot_block rig_recentered
       = map (fun p => mm33 Q (rot_block p)) (map unpad_poses rig_poses).
Proof.
  apply (pca_transform_scaled_rotation eig_diag (map unpad_poses rig_poses)
           rig_recentered rig_transform 2).
  - exact eig_diag_orthonormal.
  - exact rig_amax.
  - lra.
  - exact rig_pca.
Defined.

(** X8. Lines 287-289: in the poses returned by [transform_poses_pca] the
    mean of the entries [2,1] (the third coordinate of the up axes) is not
    negative, whatever [np.linalg.eig] returns. *)
Theorem pca_mean_up_nonnegative eig (poses recd : list (mat34 R)) (tr : mat4 R) :
  transform_poses_pca eig poses = Ok (recd, tr) ->
  0 <= mean1 (map (fun p => wy (vz p)) recd).
Proof.
  intros E. destruct (transform_poses_pca_inv eig poses recd tr E)
    as (m & _ & -> & _).
  destruct (pca_align_form eig poses) as (A & Ea & _ & Hup & _). cbv zeta in Ea, Hup.
  rewrite Ea. cbn [fst]. rewrite !map_map.
  rewrite map_map in Hup.
  erewrite map_ext; [exact Hup|].
  intros p. cbv beta. destruct (affine _ _ p) as [[] [] []]. reflexivity.
Qed.

Lemma pca_mean_up_nonnegative_witness :
  0 <= mean1 (map (fun p => wy (vz p)) rig_recentered).
Proof. exact (pca_mean_up_nonnegative eig_diag _ _ _ rig_pca). Defined.

(** X9. Lines 260-262 and 282-283, in exact arithmetic: when the greatest
    absolute coordinate [m] of the aligned camera positions is not 0 (the
    cameras are not all at one point, and [scale_factor = 1/m] is a
    number), the camera positions of the poses returned by
    [transform_poses_pca] have their centroid at the origin, whatever
    [np.linalg.eig] returns. *)
Theorem pca_centroid_at_origin eig (poses recd : list (mat34 R)) (tr : mat4 R)
    (m : R) :
  amax (abs_translations (fst (pca_align eig poses))) = Ok m ->
  m <> 0 ->
  transform_poses_pca eig poses = Ok (recd, tr) ->
  mean3 (map trans recd) = zero3.
Proof.
  intros Hm Hm0 E.
  rewrite (transform_poses_pca_ok eig poses m Hm) in E. injection E as <- _.
  destruct (pca_align_form eig poses) as (A & Ea & _). cbv zeta in Ea.
  rewrite Ea in *. cbn [fst] in *.
  assert (Hne : poses <> []).
  { intros ->. cbn in Hm. discriminate. }
  rewrite !map_map. unfold mean3 at 1. rewrite sum3_affine, count_INR, length_map.
  unfold mean3. rewrite count_INR, length_map.
  assert (Hn : INR (length poses) <> 0).
  { destruct poses; [contradiction|]. cbn [length]. rewrite S_INR.
    pose proof (pos_INR (length poses)). lra. }
  clear Hm Hm0 Ea Hne.
  set (n := INR (length poses)) in *. clearbody n.
  set (s := 1 / m). clearbody s.
  destruct A as [[a00 a01 a02] [a10 a11 a12] [a20 a21 a22]],
           (sum3 (map trans poses)) as [s0 s1 s2].
  vunf. vec_eq; field; assumption.
Qed.

Lemma pca_centroid_at_origin_witness : mean3 (map trans rig_recentered) = zero3.
Proof.
  apply (pca_centroid_at_origin eig_diag (map unpad_poses rig_poses)
           rig_recentered rig_transform 2).
  - exact rig_amax.
  - lra.
  - exact rig_pca.
Defined.

(** ** [integrate_weights_np] *)

Lemma sum1_app (l1 l2 : list R) : sum1 (l1 ++ l2) = sum1 l1 + sum1 l2.
Proof.
  induction l1 as [|a l1 IH]; cbn [app].
  - rewrite sum1_nil. ring.
  - rewrite !sum1_cons, IH. ring.
Qed.

Lemma nth_cumsum_from (acc : R) (l : list R) (i : nat) :
  (i < length l)%nat ->
  nth i (cumsum_from acc l) 0 = acc + sum1 (firstn (S i) l).
Proof.
  revert acc i. induction l as [|a l IH]; intros acc i Hi; cbn [length] in Hi; [lia|].
  cbn [cumsum_from]. destruct i as [|i].
  - cbn [nth firstn]. change (@sadd R RScalar) with Rplus.
    rewrite sum1_cons, sum1_nil. ring.
  - cbn [nth]. rewrite IH by lia. change (@sadd R RScalar) with Rplus.
    rewrite (firstn_cons (S i) a l), sum1_cons. ring.
Qed.

Lemma nth_cumsum (l : list R) (i : nat) :
  (i < length l)%nat -> nth i (cumsum l) 0 = sum1 (firstn (S i) l).
Proof.
  destruct l as [|a l]; cbn [length]; intros Hi; [lia|].
  cbn [cumsum]. destruct i as [|i].
  - cbn [nth firstn]. rewrite sum1_cons, sum1_nil. ring.
  - cbn [nth]. rewrite nth_cumsum_from by lia.
    rewrite (firstn_cons (S i) a l), sum1_cons. reflexivity.
Qed.

Lemma sum1_firstn_le (l : list R) (i : nat) :
  Forall (fun a => 0 <= a) l -> sum1 (firstn i l) <= sum1 l.
Proof.
  intros Hl. rewrite <- (firstn_skipn i l) at 2. rewrite sum1_app.
  assert (Hs : Forall (fun a => 0 <= a) (skipn i l)).
  { rewrite Forall_forall in *. intros x Hx. apply Hl.
    rewrite <- (firstn_skipn i l). apply in_or_app. now right. }
  pose proof (sum1_nonneg _ Hs). lra.
Qed.

Lemma integrate_weights_prefix_lemma (w : list R) (i : nat) :
  Forall (fun a => 0 <= a) w -> sum1 w = 1 -> (i <= length w)%nat ->
  nth i (integrate_weights_np w) 0 = sum1 (firstn i w).
Proof.
  intros Hw Hsum Hi. unfold integrate_weights_np.
  cbn [sofZ smin RScalar app].
  assert (Hne : w <> []).
  { intros ->. rewrite sum1_nil in Hsum. lra. }
  pose proof (removelast_length w Hne) as Hlen.
  destruct i as [|i]; [cbn [nth firstn]; now rewrite sum1_nil|].
  cbn [nth].
  destruct (Nat.eq_dec (S i) (length w)) as [Heq | Hlt].
  - rewrite app_nth2 by (rewrite length_map, cumsum_length; lia).
    rewrite length_map, cumsum_length.
    replace (i - length (removelast w))%nat with 0%nat by lia. cbn [nth].
    rewrite Heq, firstn_all. now rewrite Hsum.
  - rewrite app_nth1 by (rewrite length_map, cumsum_length; lia).
    rewrite (nth_indep _ 0 (Rmin 1 0)) by (rewrite length_map, cumsum_length; lia).
    rewrite map_nth, nth_cumsum by lia.
    rewrite removelast_firstn_len, firstn_firstn.
    replace (Nat.min (S i) (Nat.pred (length w))) with (S i) by lia.
    pose proof (sum1_firstn_le w (S i) Hw). apply Rmin_right. lra.
Qed.

(** X10. For weights that are non-negative and sum to 1, entry [i] of the
    result of [integrate_weights_np] is the sum of the first [i] weights:
    the clamp [np.minimum(1, .)] of line 60 changes nothing and the
    literal 1 appended at the end is the total. *)
Theorem integrate_weights_prefix_sums (w : list R) (i : nat) :
  Forall (fun a => 0 <= a) w -> sum1 w = 1 -> (i <= length w)%nat ->
  nth i (integrate_weights_np w) 0 = sum1 (firstn i w).
Proof. exact (integrate_weights_prefix_lemma w i). Qed.

Lemma integrate_weights_prefix_sums_witness :
  nth 2 (integrate_weights_np [1 / 2; 1 / 4; 1 / 4]) 0
  = sum1 (firstn 2 [1 / 2; 1 / 4; 1 / 4]).
Proof.
  apply integrate_weights_prefix_sums.
  - repeat constructor; lra.
  - cbv [sum1 fold_left sadd sofZ RScalar]. lra.
  - cbn [length]. lia.
Defined.



(** X11. The loop that opens every path generator: for a view whose [R] is
    orthonormal the inversion never fails, and the pose it makes is
    [[R diag(1,-1,-1) | -R T]]: the camera axes of [R] with the second and
    third flipped, at the camera centre [-R T], with bottom row
    [0, 0, 0, 1]. *)
Theorem pose_of_view_camera_to_world (view : @View R) :
  orthonormal_cols (view_R view) ->
  pose_of_view view
  = Ok (pad_poses (hcat (mm33 (view_R view) (diag3 1 (-1) (-1)))
                        (v3opp (mv33 (view_R view) (view_T view))))).
Proof.
  intros Ho. pose proof (orthonormal_rows _ Ho) as Hr.
  unfold pose_of_view.
  rewrite (inv4_of_left_inverse _
             (pad_poses (hcat (view_R view) (v3opp (mv33 (view_R view) (view_T view)))))).
  - cbn [bind]. apply f_equal.
    destruct (view_R view) as [[r00 r01 r02] [r10 r11 r12] [r20 r21 r22]],
             (view_T view) as [t0 t1 t2].
    vunf. vec_eq; ring.
  - destruct (view_R view) as [[r00 r01 r02] [r10 r11 r12] [r20 r21 r22]],
             (view_T view) as [t0 t1 t2].
    revert Hr. vunf. intros Hr. injection Hr as E1 E2 E3 E4 E5 E6 E7 E8 E9.
    vec_eq; lra.
Qed.

Lemma pose_of_view_camera_to_world_witness :
  pose_of_view (mkView (V3 (V3 0 (-1) 0) (V3 1 0 0) (V3 0 0 1)) (V3 1 2 3) 1)
  = Ok (pad_poses (hcat (mm33 (V3 (V3 0 (-1) 0) (V3 1 0 0) (V3 0 0 1)) (diag3 1 (-1) (-1)))
                        (v3opp (mv33 (V3 (V3 0 (-1) 0) (V3 1 0 0) (V3 0 0 1)) (V3 1 2 3))))).
Proof.
  apply (pose_of_view_camera_to_world
           (mkView (V3 (V3 0 (-1) 0) (V3 1 0 0) (V3 0 0 1)) (V3 1 2 3) 1)).
  cbn [view_R]. unfold orthonormal_cols. vunf. repeat split; ring.
Defined.

(** ** [generate_ellipse_path]: the up vector of the path *)

Lemma ellipse_up_cases (a : vec3 R) (n : R) :
  0 < n -> a <> zero3 ->
  let a' := map3 (fun c => c / n) a in
  let i := argmax3 (map3 Rabs a') in
  let up := v3scale (sign (get3 i a')) (get3 i eye3) in
  (up = get3 i eye3 \/ up = v3opp (get3 i eye3))
  /\ dot3 up a = Rabs (get3 i a)
  /\ forall j, Rabs (get3 j a) <= Rabs (get3 i a).
Proof.
  intros Hn Ha. destruct a as [x y z].
  assert (Hx : x = x / n * n) by (field; lra).
  assert (Hy : y = y / n * n) by (field; lra).
  assert (Hz : z = z / n * n) by (field; lra).
  assert (Hnz : x / n <> 0 \/ y / n <> 0 \/ z / n <> 0).
  { destruct (Req_dec x 0) as [-> | ?]; [|left; intros E; rewrite E in Hx; lra].
    destruct (Req_dec y 0) as [-> | ?]; [|right; left; intros E; rewrite E in Hy; lra].
    destruct (Req_dec z 0) as [-> | ?]; [|right; right; intros E; rewrite E in Hz; lra].
    now contradiction Ha. }
  revert Hx Hy Hz Hnz. generalize (x / n), (y / n), (z / n). intros x' y' z' -> -> -> Hnz.
  cbv zeta. cbv [map3 vx vy vz].
  replace (x' * n / n) with x' by (field; lra).
  replace (y' * n / n) with y' by (field; lra).
  replace (z' * n / n) with z' by (field; lra).
  unfold argmax3, sign. cbn [vx vy vz get3].
  change (@sltb R RScalar) with Rltb. change (@seqb R RScalar) with Reqb.
  unfold Rltb, Reqb. change (sofZ (-1)) with (-1). change (sofZ 0) with 0.
  change (sofZ 1) with 1.
  assert (Hxa := Rabs_pos x'). assert (Hya := Rabs_pos y'). assert (Hza := Rabs_pos z').
  destruct (Rlt_dec (Rabs x') (Rabs y')); cbn [get3 vx vy vz];
    destruct (Rlt_dec _ (Rabs z')); cbn [get3 vx vy vz];
    (destruct (Rlt_dec _ 0);
     [|destruct (Rlt_dec 0 _);
       [|exfalso; revert Hxa Hya Hza; unfold Rabs in *;
         repeat destruct (Rcase_abs _); intros; lra]]);
    (split; [first [left; vunf; vec_eq; ring | right; vunf; vec_eq; ring]|]);
    (split; [vunf; rewrite Rabs_mult, (Rabs_pos_eq n) by lra;
             unfold Rabs; destruct (Rcase_abs _); nra|]);
    intros [| |]; cbn [get3 vx vy vz]; rewrite !Rabs_mult, !(Rabs_pos_eq n) by lra; nra.
Qed.

(** X12. Lines 355-358: when the mean [a] of the up axes is not zero, the up
    vector of the ellipse path is a coordinate axis or its opposite, the
    one along which [a] has its greatest absolute coordinate, with the sign
    of that coordinate: its dot product with [a] is [max_j |a_j|]. *)
Theorem ellipse_up_signed_axis (poses : list (mat34 R)) :
  mean3 (map yaxis poses) <> zero3 ->
  exists i,
    (ellipse_up poses = get3 i eye3 \/ ellipse_up poses = v3opp (get3 i eye3))
    /\ dot3 (ellipse_up poses) (mean3 (map yaxis poses))
       = Rabs (get3 i (mean3 (map yaxis poses)))
    /\ forall j, Rabs (get3 j (mean3 (map yaxis poses)))
                 <= Rabs (get3 i (mean3 (map yaxis poses))).
Proof.
  intros Ha. unfold ellipse_up. set (a := mean3 (map yaxis poses)) in *.
  pose proof (ellipse_up_cases a (norm a) (norm_pos a Ha) Ha) as Hc.
  cbv zeta in Hc. cbv zeta. change (@sabs R RScalar) with Rabs.
  change (@sdiv R RScalar) with Rdiv.
  eexists. exact Hc.
Qed.

Lemma ellipse_up_signed_axis_witness :
  exists i,
    (ellipse_up rig_recentered = get3 i eye3
     \/ ellipse_up rig_recentered = v3opp (get3 i eye3))
    /\ dot3 (ellipse_up rig_recentered) (mean3 (map yaxis rig_recentered))
       = Rabs (get3 i (mean3 (map yaxis rig_recentered)))
    /\ forall j, Rabs (get3 j (mean3 (map yaxis rig_recentered)))
                 <= Rabs (get3 i (mean3 (map yaxis rig_recentered))).
Proof.
  apply ellipse_up_signed_axis.
  assert (E : mean3 (map yaxis rig_recentered) = V3 0 0 1)
    by (unfold rig_recentered; reval).
  rewrite E. intros H. injection H as H. lra.
Defined.

(** ** [get_rotation_matrix] *)

Lemma orthonormal_mm33 (a b : mat3 R) :
  orthonormal_cols a -> orthonormal_cols b -> orthonormal_cols (mm33 a b).
Proof.
  intros Ha Hb. apply gram_orthonormal.
  rewrite gram_cols_mm33, (orthonormal_gram a Ha), mm33_eye_l.
  exact (orthonormal_gram b Hb).
Qed.

Section RotationFacts.
Import Ascii String.
Local Open Scope string_scope.

Lemma lower_ascii_x (c : ascii) :
  lower_ascii c = "x"%char -> c = "x"%char \/ c = "X"%char.
Proof.
  destruct c as [[] [] [] [] [] [] [] []]; vm_compute; intros E;
    first [discriminate E | now left | now right].
Qed.

Lemma lower_ascii_y (c : ascii) :
  lower_ascii c = "y"%char -> c = "y"%char \/ c = "Y"%char.
Proof.
  destruct c as [[] [] [] [] [] [] [] []]; vm_compute; intros E;
    first [discriminate E | now left | now right].
Qed.

Lemma lower_ascii_z (c : ascii) :
  lower_ascii c = "z"%char -> c = "z"%char \/ c = "Z"%char.
Proof.
  destruct c as [[] [] [] [] [] [] [] []]; vm_compute; intros E;
    first [discriminate E | now left | now right].
Qed.

Lemma lower_single (s : string) (c : ascii) :
  lower s = String c EmptyString ->
  exists c', s = String c' EmptyString /\ lower_ascii c' = c.
Proof.
  destruct s as [|c' [|c'' s'']]; cbn [lower]; intros E; try discriminate E.
  injection E as E. now exists c'.
Qed.

(** The three matrices are rotations. *)
Lemma rotation_x (a : R) :
  let m := V3 (V3 1 0 0) (V3 0 (cos a) (- sin a)) (V3 0 (sin a) (cos a)) in
  orthonormal_cols m /\ det3 m = 1.
Proof.
  cbv zeta. pose proof (sin2_cos2 a) as Hsc. unfold Rsqr in Hsc.
  unfold orthonormal_cols. vunf. repeat split; nra.
Qed.

Lemma rotation_y (a : R) :
  let m := V3 (V3 (cos a) 0 (sin a)) (V3 0 1 0) (V3 (- sin a) 0 (cos a)) in
  orthonormal_cols m /\ det3 m = 1.
Proof.
  cbv zeta. pose proof (sin2_cos2 a) as Hsc. unfold Rsqr in Hsc.
  unfold orthonormal_cols. vunf. repeat split; nra.
Qed.

Lemma rotation_z (a : R) :
  let m := V3 (V3 (cos a) (- sin a) 0) (V3 (sin a) (cos a) 0) (V3 0 0 1) in
  orthonormal_cols m /\ det3 m = 1.
Proof.
  cbv zeta. pose proof (sin2_cos2 a) as Hsc. unfold Rsqr in Hsc.
  unfold orthonormal_cols. vunf. repeat split; nra.
Qed.

Lemma get_rotation_matrix_cases (axis : string) (angle : R) :
  (lower axis = "x" /\ get_rotation_matrix axis angle
     = Ok (V3 (V3 1 0 0) (V3 0 (cos angle) (- sin angle)) (V3 0 (sin angle) (cos angle))))
  \/ (lower axis = "y" /\ get_rotation_matrix axis angle
     = Ok (V3 (V3 (cos angle) 0 (sin angle)) (V3 0 1 0) (V3 (- sin angle) 0 (cos angle))))
  \/ (lower axis = "z" /\ get_rotation_matrix axis angle
     = Ok (V3 (V3 (cos angle) (- sin angle) 0) (V3 (sin angle) (cos angle) 0) (V3 0 0 1)))
  \/ (lower axis <> "x" /\ lower axis <> "y" /\ lower axis <> "z"
      /\ get_rotation_matrix axis angle = Raise ValueError).
Proof.
  unfold get_rotation_matrix. cbv zeta.
  destruct (String.eqb_spec (lower axis) "x") as [Ex | Nx]; [left; now split|].
  destruct (String.eqb_spec (lower axis) "y") as [Ey | Ny]; [right; left; now split|].
  destruct (String.eqb_spec (lower axis) "z") as [Ez | Nz]; [right; right; left; now split|].
  right; right; right. repeat split; assumption.
Qed.

(** X13. [get_rotation_matrix] accepts exactly the axis names [x], [y] and
    [z] in either case, and raises [ValueError] on every other string; what
    it returns is a rotation matrix: orthonormal, of determinant 1. *)
Theorem get_rotation_matrix_accepts (axis : string) (angle : R) :
  (In axis accepted_axes ->
   exists m, get_rotation_matrix axis angle = Ok m
             /\ orthonormal_cols m /\ det3 m = 1)
  /\ (~ In axis accepted_axes -> get_rotation_matrix axis angle = Raise ValueError).
Proof.
  destruct (get_rotation_matrix_cases axis angle)
    as [[El E] | [[El E] | [[El E] | (Nx & Ny & Nz & E)]]].
  - split; [intros _; eexists; split; [exact E | apply rotation_x]|].
    intros Hn. exfalso. apply Hn. destruct (lower_single _ _ El) as (c & -> & Hc).
    destruct (lower_ascii_x c Hc) as [-> | ->]; cbn; tauto.
  - split; [intros _; eexists; split; [exact E | apply rotation_y]|].
    intros Hn. exfalso. apply Hn. destruct (lower_single _ _ El) as (c & -> & Hc).
    destruct (lower_ascii_y c Hc) as [-> | ->]; cbn; tauto.
  - split; [intros _; eexists; split; [exact E | apply rotation_z]|].
    intros Hn. exfalso. apply Hn. destruct (lower_single _ _ El) as (c & -> & Hc).
    destruct (lower_ascii_z c Hc) as [-> | ->]; cbn; tauto.
  - split; [|intros _; exact E].
    intros Hin. exfalso. cbn in Hin.
    destruct Hin as [<- | [<- | [<- | [<- | [<- | [<- | []]]]]]];
      first [now apply Nx | now apply Ny | now apply Nz].
Qed.

(** X14. For one axis, the matrices of [get_rotation_matrix] compose by
    adding their angles, the angle 0 gives the identity, and the opposite
    angle gives the transpose, which is the inverse. *)
Theorem get_rotation_matrix_group (axis : string) (a b : R) (ma mb : mat3 R) :
  get_rotation_matrix axis a = Ok ma ->
  get_rotation_matrix axis b = Ok mb ->
  get_rotation_matrix axis (a + b) = Ok (mm33 ma mb)
  /\ get_rotation_matrix axis 0 = Ok eye3
  /\ get_rotation_matrix axis (- a) = Ok (transpose33 ma)
  /\ mm33 (transpose33 ma) ma = eye3.
Proof.
  intros Ea Eb.
  pose proof (sin2_cos2 a) as Hsc. unfold Rsqr in Hsc.
  destruct (get_rotation_matrix_cases axis a) as [[El E] | [[El E] | [[El E] | (_ & _ & _ & E)]]];
    rewrite E in Ea; [| | |discriminate Ea]; injection Ea as <-;
    (destruct (get_rotation_matrix_cases axis b)
      as [[El' E'] | [[El' E'] | [[El' E'] | (_ & _ & _ & E')]]];
     rewrite E' in Eb; [| | |discriminate Eb]; injection Eb as <-;
     try (rewrite El in El'; discriminate El'));
    (destruct (get_rotation_matrix_cases axis (a + b))
      as [[El1 E1] | [[El1 E1] | [[El1 E1] | (N1 & N2 & N3 & E1)]]];
     try (rewrite El in El1; discriminate El1); try contradiction);
    (destruct (get_rotation_matrix_cases axis 0)
      as [[El2 E2] | [[El2 E2] | [[El2 E2] | (M1 & M2 & M3 & E2)]]];
     try (rewrite El in El2; discriminate El2); try contradiction);
    (destruct (get_rotation_matrix_cases axis (- a))
      as [[El3 E3] | [[El3 E3] | [[El3 E3] | (K1 & K2 & K3 & E3)]]];
     try (rewrite El in El3; discriminate El3); try contradiction);
    rewrite E1, E2, E3, cos_plus, sin_plus, cos_0, sin_0, cos_neg, sin_neg;
    (split; [apply f_equal; vunf; vec_eq; ring|]);
    (split; [apply f_equal; vunf; vec_eq; ring|]);
    (split; [apply f_equal; vunf; vec_eq; ring|]);
    vunf; vec_eq; nra.
Qed.

Lemma get_rotation_matrix_group_witness :
  get_rotation_matrix "Z" (0 + 0) = Ok (mm33 eye3 eye3)
  /\ get_rotation_matrix "Z" 0 = Ok eye3
  /\ get_rotation_matrix "Z" (- 0) = Ok (transpose33 eye3)
  /\ mm33 (transpose33 eye3) eye3 = eye3.
Proof.
  apply get_rotation_matrix_group;
    unfold get_rotation_matrix; cbn [lower]; vm_compute lower_ascii;
    cbn [String.eqb Ascii.eqb Bool.eqb]; cbv zeta; cbn [scos ssin RTrig];
    rewrite cos_0, sin_0; apply f_equal; vunf; vec_eq; ring.
Defined.

(** X15. The matrix [rot_z @ rot_y @ rot_x] that [gaussian_poses] builds
    from its three angles is always obtained, and is a rotation. *)
Theorem combined_rot_rotation (ax ay az : R) :
  exists m, combined_rot ax ay az = Ok m /\ orthonormal_cols m /\ det3 m = 1.
Proof.
  unfold combined_rot.
  destruct (get_rotation_matrix_cases "x" ax) as [[_ E] | [[El _] | [[El _] | (N & _)]]];
    [|discriminate El|discriminate El|now contradiction N].
  destruct (get_rotation_matrix_cases "y" ay) as [[El _] | [[_ E'] | [[El _] | (_ & N & _)]]];
    [discriminate El| |discriminate El|now contradiction N].
  destruct (get_rotation_matrix_cases "z" az) as [[El _] | [[El _] | [[_ E''] | (_ & _ & N & _)]]];
    [discriminate El|discriminate El| |now contradiction N].
  rewrite E, E', E''. cbn [bind]. eexists. split; [reflexivity|].
  destruct (rotation_x ax) as [Hx Dx], (rotation_y ay) as [Hy Dy],
           (rotation_z az) as [Hz Dz]. cbv zeta in *.
  split.
  - apply orthonormal_mm33; [assumption|]. now apply orthonormal_mm33.
  - rewrite !det3_mul, Dx, Dy, Dz. ring.
Qed.

End RotationFacts.

(** ** The spiral and spherical generators *)

Ltac munf := cbv [mv34 hom look_at] in *.

Lemma normalize_idem (w : vec3 R) : w <> zero3 -> normalize (normalize w) = normalize w.
Proof. intros Hw. apply normalize_of_unit, normalize_unit, Hw. Qed.

Lemma norm_normalize (w : vec3 R) : w <> zero3 -> v3scale (norm w) (normalize w) = w.
Proof.
  intros Hw. pose proof (norm_pos w Hw) as Hn. rewrite normalize_as_scale.
  set (n := norm w) in *. clearbody n. destruct w. vunf. vec_eq; field; lra.
Qed.

Lemma look_at_inverse (z up c : vec3 R) :
  cross up z <> zero3 ->
  look_at z up c
  = Ok (mm44 (diag4 1 (-1) (-1) 1) (rigid_inverse (viewmatrix z up c))).
Proof.
  intros Hc. unfold look_at. set (v := viewmatrix z up c).
  assert (Hv : gram_cols (rot_block v) = eye3).
  { apply orthonormal_gram. apply (viewmatrix_rotation z up c Hc). }
  rewrite flip_cols_top_affine by reflexivity.
  apply inv4_of_left_inverse.
  set (D := diag4 1 (-1) (-1) 1).
  assert (HD : mm44 D D = eye4) by (subst D; vunf; vec_eq; ring).
  rewrite !mm44_assoc.
  rewrite <- (mm44_assoc (rigid_inverse v)), (rigid_inverse_left v Hv), mm44_eye_l.
  exact HD.
Qed.

(** The world-to-camera matrix made of a pose [v] with orthonormal rotation
    block: a rotation, which sends the position of [v] to the origin and
    the point at distance [n] against the viewing axis to [(0, 0, n)]. *)
Lemma rigid_view (v : mat34 R) (n : R) :
  orthonormal_cols (rot_block v) -> det3 (rot_block v) = 1 ->
  let M := mm44 (diag4 1 (-1) (-1) 1) (rigid_inverse v) in
  ww M = V4 0 0 0 1
  /\ orthonormal_cols (rot_block (unpad_poses M))
  /\ det3 (rot_block (unpad_poses M)) = 1
  /\ mv34 (unpad_poses M) (hom (trans v)) = zero3
  /\ mv34 (unpad_poses M) (hom (v3sub (trans v) (v3scale n (zaxis v)))) = V3 0 0 n.
Proof.
  intros Ho Hd. pose proof (orthonormal_rows _ Ho) as Hr.
  destruct v as [[a b c t1] [d e f t2] [g h i t3]].
  revert Ho Hd Hr. unfold orthonormal_cols, rigid_inverse. munf. vunf.
  intros (H1 & H2 & H3 & H4 & H5 & H6) Hd Hr.
  injection Hr as E1 E2 E3 E4 E5 E6 E7 E8 E9.
  assert (K1 : n * (a * c + d * f + g * i) = 0) by (rewrite H5; ring).
  assert (K2 : n * (b * c + e * f + h * i) = 0) by (rewrite H6; ring).
  assert (K3 : n * (c * c + f * f + i * i) = n) by (rewrite H3; ring).
  split; [vec_eq; ring|]. split; [repeat split; lra|]. split; [lra|].
  split; vec_eq; lra.
Qed.

Lemma look_at_normalized (w up c : vec3 R) :
  cross up w <> zero3 ->
  exists M,
    look_at (normalize w) up c = Ok M
    /\ ww M = V4 0 0 0 1
    /\ orthonormal_cols (rot_block (unpad_poses M))
    /\ det3 (rot_block (unpad_poses M)) = 1
    /\ mv34 (unpad_poses M) (hom c) = zero3
    /\ mv34 (unpad_poses M) (hom (v3sub c w)) = V3 0 0 (norm w).
Proof.
  intros Hc. pose proof (cross_nonzero_r _ _ Hc) as Hw.
  destruct (viewmatrix_frame w up Hc) as (_ & _ & _ & _ & Hc').
  cbv zeta in Hc'.
  assert (Ev : viewmatrix (normalize w) up c = viewmatrix w up c).
  { unfold viewmatrix. now rewrite normalize_idem. }
  rewrite (look_at_inverse _ up c Hc'), Ev.
  destruct (viewmatrix_rotation w up c Hc) as [Ho Hd].
  destruct (rigid_view (viewmatrix w up c) (norm w) Ho Hd) as (A1 & A2 & A3 & A4 & A5).
  rewrite viewmatrix_trans in A4, A5.
  rewrite viewmatrix_zaxis, (norm_normalize w Hw) in A5.
  eexists. split; [reflexivity|].
  split; [exact A1|]. split; [exact A2|]. split; [exact A3|]. split; [exact A4|exact A5].
Qed.

Lemma v3sub_sub (c l : vec3 R) : v3sub c (v3sub c l) = l.
Proof. destruct c, l. vunf. vec_eq; ring. Qed.

Lemma spiral_render_pose_rigid (c2w : mat34 R) (up : vec3 R) (rads : vec4 R)
    (focal zrate theta : R) :
  cross up (v3sub (mv34 c2w (zip4 Rmult
                      (V4 (cos theta) (- sin theta) (- sin (theta * zrate)) 1) rads))
                  (mv34 c2w (V4 0 0 (- focal) 1))) <> zero3 ->
  exists M,
    spiral_render_pose c2w up rads focal zrate theta = Ok M
    /\ ww M = V4 0 0 0 1
    /\ orthonormal_cols (rot_block (unpad_poses M))
    /\ det3 (rot_block (unpad_poses M)) = 1
    /\ mv34 (unpad_poses M)
         (hom (mv34 c2w (zip4 Rmult
                 (V4 (cos theta) (- sin theta) (- sin (theta * zrate)) 1) rads)))
       = zero3
    /\ mv34 (unpad_poses M) (hom (mv34 c2w (V4 0 0 (- focal) 1)))
       = V3 0 0 (norm (v3sub (mv34 c2w (zip4 Rmult
                      (V4 (cos theta) (- sin theta) (- sin (theta * zrate)) 1) rads))
                  (mv34 c2w (V4 0 0 (- focal) 1)))).
Proof.
  intros Hc. unfold spiral_render_pose. cbv zeta.
  change (@smul R RScalar) with Rmult. change (@sopp R RScalar) with Ropp.
  change (@scos R RTrig) with cos. change (@ssin R RTrig) with sin.
  change (sofZ 1) with 1. change (sofZ 0) with 0.
  set (c := mv34 c2w (zip4 Rmult _ rads)) in *.
  set (l := mv34 c2w (V4 0 0 (- focal) 1)) in *.
  destruct (look_at_normalized (v3sub c l) up c Hc) as (M & E & A1 & A2 & A3 & A4 & A5).
  rewrite v3sub_sub in A5.
  exists M. split; [exact E|].
  split; [exact A1|]. split; [exact A2|]. split; [exact A3|]. split; [exact A4|exact A5].
Qed.

Lemma spherical_render_pose_rigid (c2w : mat34 R) (up : vec3 R) (rads : vec4 R)
    (focal theta phi : R) :
  cross up (v3sub (mv34 c2w (zip4 Rmult rads
                      (V4 (sin phi * cos theta) (sin phi * sin theta) (cos phi) 1)))
                  (mv34 c2w (V4 0 0 (- focal) 1))) <> zero3 ->
  exists M,
    spherical_render_pose c2w up rads focal theta phi = Ok M
    /\ ww M = V4 0 0 0 1
    /\ orthonormal_cols (rot_block (unpad_poses M))
    /\ det3 (rot_block (unpad_poses M)) = 1
    /\ mv34 (unpad_poses M)
         (hom (mv34 c2w (zip4 Rmult rads
                 (V4 (sin phi * cos theta) (sin phi * sin theta) (cos phi) 1))))
       = zero3
    /\ mv34 (unpad_poses M) (hom (mv34 c2w (V4 0 0 (- focal) 1)))
       = V3 0 0 (norm (v3sub (mv34 c2w (zip4 Rmult rads
                      (V4 (sin phi * cos theta) (sin phi * sin theta) (cos phi) 1)))
                  (mv34 c2w (V4 0 0 (- focal) 1)))).
Proof.
  intros Hc. unfold spherical_render_pose. cbv zeta.
  change (@smul R RScalar) with Rmult. change (@sopp R RScalar) with Ropp.
  change (@scos R RTrig) with cos. change (@ssin R RTrig) with sin.
  change (sofZ 1) with 1. change (sofZ 0) with 0.
  set (c := mv34 c2w (zip4 Rmult rads _)) in *.
  set (l := mv34 c2w (V4 0 0 (- focal) 1)) in *.
  destruct (look_at_normalized (v3sub c l) up c Hc) as (M & E & A1 & A2 & A3 & A4 & A5).
  rewrite v3sub_sub in A5.
  exists M. split; [exact E|].
  split; [exact A1|]. split; [exact A2|]. split; [exact A3|]. split; [exact A4|exact A5].
Qed.

(** X16. The loop body of [generate_spiral_path] and [render_path_spiral]:
    with [c] the point of the spiral and [l] the look-at point
    [c2w @ [0, 0, -focal, 1]], as soon as [up] is not along [c - l] the
    inversion succeeds and the matrix appended is a world-to-camera matrix
    with bottom row [0, 0, 0, 1] and a rotation block that is orthonormal of
    determinant 1; it sends [c] to the origin and [l] to [(0, 0, |c - l|)]:
    the camera sits at [c] and has the look-at point straight ahead. *)
Theorem spiral_render_pose_camera (c2w : mat34 R) (up : vec3 R) (rads : vec4 R)
    (focal zrate theta : R) :
  cross up (v3sub (mv34 c2w (zip4 Rmult
                      (V4 (cos theta) (- sin theta) (- sin (theta * zrate)) 1) rads))
                  (mv34 c2w (V4 0 0 (- focal) 1))) <> zero3 ->
  exists M,
    spiral_render_pose c2w up rads focal zrate theta = Ok M
    /\ ww M = V4 0 0 0 1
    /\ orthonormal_cols (rot_block (unpad_poses M))
    /\ det3 (rot_block (unpad_poses M)) = 1
    /\ mv34 (unpad_poses M)
         (hom (mv34 c2w (zip4 Rmult
                 (V4 (cos theta) (- sin theta) (- sin (theta * zrate)) 1) rads)))
       = zero3
    /\ mv34 (unpad_poses M) (hom (mv34 c2w (V4 0 0 (- focal) 1)))
       = V3 0 0 (norm (v3sub (mv34 c2w (zip4 Rmult
                      (V4 (cos theta) (- sin theta) (- sin (theta * zrate)) 1) rads))
                  (mv34 c2w (V4 0 0 (- focal) 1)))).
Proof. exact (spiral_render_pose_rigid c2w up rads focal zrate theta). Qed.

Lemma spiral_render_pose_camera_witness :
  exists M,
    spiral_render_pose (V3 (V4 1 0 0 0) (V4 0 1 0 0) (V4 0 0 1 0)) (V3 0 1 0)
                       (V4 1 1 1 1) 1 0 0 = Ok M
    /\ ww M = V4 0 0 0 1
    /\ orthonormal_cols (rot_block (unpad_poses M))
    /\ det3 (rot_block (unpad_poses M)) = 1
    /\ mv34 (unpad_poses M)
         (hom (mv34 (V3 (V4 1 0 0 0) (V4 0 1 0 0) (V4 0 0 1 0)) (zip4 Rmult
                 (V4 (cos 0) (- sin 0) (- sin (0 * 0)) 1) (V4 1 1 1 1))))
       = zero3
    /\ mv34 (unpad_poses M)
         (hom (mv34 (V3 (V4 1 0 0 0) (V4 0 1 0 0) (V4 0 0 1 0)) (V4 0 0 (- (1)) 1)))
       = V3 0 0 (norm (v3sub (mv34 (V3 (V4 1 0 0 0) (V4 0 1 0 0) (V4 0 0 1 0)) (zip4 Rmult
                      (V4 (cos 0) (- sin 0) (- sin (0 * 0)) 1) (V4 1 1 1 1)))
                  (mv34 (V3 (V4 1 0 0 0) (V4 0 1 0 0) (V4 0 0 1 0)) (V4 0 0 (- (1)) 1)))).
Proof.
  apply spiral_render_pose_camera.
  replace (0 * 0) with 0 by ring. rewrite cos_0, sin_0. munf. vunf.
  intros E. injection E as E1 E2 E3. lra.
Defined.

(** X17. The same for the inner loop body of
    [generate_spherical_sample_path], whose point [c] has the spherical
    coordinates [(theta, phi)] scaled by [rads]. *)
Theorem spherical_render_pose_camera (c2w : mat34 R) (up : vec3 R) (rads : vec4 R)
    (focal theta phi : R) :
  cross up (v3sub (mv34 c2w (zip4 Rmult rads
                      (V4 (sin phi * cos theta) (sin phi * sin theta) (cos phi) 1)))
                  (mv34 c2w (V4 0 0 (- focal) 1))) <> zero3 ->
  exists M,
    spherical_render_pose c2w up rads focal theta phi = Ok M
    /\ ww M = V4 0 0 0 1
    /\ orthonormal_cols (rot_block (unpad_poses M))
    /\ det3 (rot_block (unpad_poses M)) = 1
    /\ mv34 (unpad_poses M)
         (hom (mv34 c2w (zip4 Rmult rads
                 (V4 (sin phi * cos theta) (sin phi * sin theta) (cos phi) 1))))
       = zero3
    /\ mv34 (unpad_poses M) (hom (mv34 c2w (V4 0 0 (- focal) 1)))
       = V3 0 0 (norm (v3sub (mv34 c2w (zip4 Rmult rads
                      (V4 (sin phi * cos theta) (sin phi * sin theta) (cos phi) 1)))
                  (mv34 c2w (V4 0 0 (- focal) 1)))).
Proof. exact (spherical_render_pose_rigid c2w up rads focal theta phi). Qed.

Lemma spherical_render_pose_camera_witness :
  exists M,
    spherical_render_pose (V3 (V4 1 0 0 0) (V4 0 1 0 0) (V4 0 0 1 0)) (V3 0 1 0)
                          (V4 1 1 1 1) 1 0 0 = Ok M
    /\ ww M = V4 0 0 0 1
    /\ orthonormal_cols (rot_block (unpad_poses M))
    /\ det3 (rot_block (unpad_poses M)) = 1
    /\ mv34 (unpad_poses M)
         (hom (mv34 (V3 (V4 1 0 0 0) (V4 0 1 0 0) (V4 0 0 1 0)) (zip4 Rmult (V4 1 1 1 1)
                 (V4 (sin 0 * cos 0) (sin 0 * sin 0) (cos 0) 1))))
       = zero3
    /\ mv34 (unpad_poses M)
         (hom (mv34 (V3 (V4 1 0 0 0) (V4 0 1 0 0) (V4 0 0 1 0)) (V4 0 0 (- (1)) 1)))
       = V3 0 0 (norm (v3sub (mv34 (V3 (V4 1 0 0 0) (V4 0 1 0 0) (V4 0 0 1 0))
                      (zip4 Rmult (V4 1 1 1 1)
                         (V4 (sin 0 * cos 0) (sin 0 * sin 0) (cos 0) 1)))
                  (mv34 (V3 (V4 1 0 0 0) (V4 0 1 0 0) (V4 0 0 1 0)) (V4 0 0 (- (1)) 1)))).
Proof.
  apply spherical_render_pose_camera.
  rewrite cos_0, sin_0. munf. vunf.
  intros E. injection E as E1 E2 E3. lra.
Defined.

(** *** The generators as a whole *)

Lemma mapM_length {A B} (f : A -> result B) (l : list A) (bs : list B) :
  mapM f l = Ok bs -> length bs = length l.
Proof.
  revert bs. induction l as [|a l IH]; intros bs; cbn [mapM].
  - intros E. injection E as <-. reflexivity.
  - destruct (f a) as [b|e]; cbn [bind]; [|discriminate].
    destruct (mapM f l) as [bs'|e]; cbn [bind]; [|discriminate].
    intros E. injection E as <-. cbn [length]. f_equal. now apply IH.
Qed.

Lemma mapM_raise {A B} (f : A -> result B) (l : list A) (e : exn) :
  mapM f l = Raise e -> exists a, In a l /\ f a = Raise e.
Proof.
  induction l as [|a l IH]; cbn [mapM]; [discriminate|].
  destruct (f a) as [b|e'] eqn:Ea; cbn [bind].
  - destruct (mapM f l) as [bs'|e'']; cbn [bind]; [discriminate|].
    intros E. injection E as ->. destruct (IH eq_refl) as (a' & Hin & Ha').
    exists a'. split; [now right | assumption].
  - intros E. injection E as ->. exists a. split; [now left | assumption].
Qed.

Lemma mapM_In {A B} (f : A -> result B) (l : list A) (bs : list B) (b : B) :
  mapM f l = Ok bs -> In b bs -> exists a, In a l /\ f a = Ok b.
Proof.
  revert bs. induction l as [|a l IH]; intros bs; cbn [mapM].
  - intros E. injection E as <-. intros [].
  - destruct (f a) as [b'|e] eqn:Ea; cbn [bind]; [|discriminate].
    destruct (mapM f l) as [bs'|e]; cbn [bind]; [|discriminate].
    intros E. injection E as <-. intros [-> | Hin].
    + exists a. split; [now left | assumption].
    + destruct (IH bs' eq_refl Hin) as (a' & Hin' & Ha').
      exists a'. split; [now right | assumption].
Qed.

Lemma inv4_raise (m : mat4 R) (e : exn) : inv4 m = Raise e -> e = LinAlgError.
Proof.
  unfold inv4. destruct (seqb _ _); [|discriminate]. intros E. now injection E.
Qed.

Lemma inv4_singular (m : mat4 R) : det4 m = 0 -> inv4 m = Raise LinAlgError.
Proof.
  intros Hd. unfold inv4. cbv zeta. change (@seqb R RScalar) with Reqb.
  change (sofZ 0) with 0. now rewrite Hd, Reqb_true.
Qed.

(** What [np.linalg.inv] returns is a left inverse. *)
Lemma inv4_Ok (m n : mat4 R) : inv4 m = Ok n -> mm44 n m = eye4.
Proof.
  intros E. destruct (Req_dec (det4 m) 0) as [Hz | Hnz].
  - rewrite (inv4_singular m Hz) in E. discriminate.
  - rewrite (inv4_ok m Hnz) in E. injection E as <-. now apply inv4_left.
Qed.

Lemma inv3_raise (m : mat3 R) (e : exn) : inv3 m = Raise e -> e = LinAlgError.
Proof.
  unfold inv3. destruct m as [[] [] []]. destruct (seqb _ _); [|discriminate].
  intros E. now injection E.
Qed.

Lemma pose_of_view_raise (v : @View R) (e : exn) :
  pose_of_view v = Raise e -> e = LinAlgError.
Proof.
  unfold pose_of_view. destruct (inv4 _) as [m|e'] eqn:E; cbn [bind]; [discriminate|].
  intros E'. injection E' as <-. exact (inv4_raise _ _ E).
Qed.

(** [poses_of_views]: a pose for each view, and at least one; it fails with
    [ValueError] on no view and with [LinAlgError] otherwise. *)
Lemma poses_of_views_ok (views : list (@View R)) (poses : list (mat4 R)) :
  poses_of_views views = Ok poses ->
  poses <> [] /\ length poses = length views.
Proof.
  unfold poses_of_views. destruct (mapM _ views) as [ps|e] eqn:E; cbn [bind]; [|discriminate].
  destruct ps as [|p ps]; cbn [stack]; [discriminate|].
  intros E'. injection E' as <-. split; [discriminate|]. exact (mapM_length _ _ _ E).
Qed.

Lemma poses_of_views_raise (views : list (@View R)) (e : exn) :
  poses_of_views views = Raise e ->
  (e = ValueError /\ views = []) \/ (e = LinAlgError /\ views <> []).
Proof.
  unfold poses_of_views. destruct (mapM _ views) as [ps|e'] eqn:E; cbn [bind].
  - destruct ps as [|p ps]; cbn [stack]; [|discriminate].
    intros E'. injection E' as <-. left. split; [reflexivity|].
    apply mapM_length in E. destruct views; [reflexivity | discriminate].
  - intros E'. injection E' as <-. right.
    destruct (mapM_raise _ _ _ E) as (v & Hin & Hv).
    split; [exact (pose_of_view_raise _ _ Hv)|]. intros ->. destruct Hin.
Qed.

Lemma np_linspace_length (start stop : R) (num : nat) :
  length (np_linspace start stop num) = num.
Proof. unfold np_linspace. now rewrite length_map, length_seq. Qed.

Lemma angles_length (stop : R) (N : nat) : length (angles stop N) = N.
Proof.
  unfold angles.
  assert (Hne : np_linspace 0 stop (N + 1) <> []).
  { intros E. apply (f_equal (@length R)) in E.
    rewrite np_linspace_length in E. cbn in E. lia. }
  pose proof (removelast_length _ Hne) as Hl. rewrite np_linspace_length in Hl.
  change (sofZ 0) with 0. lia.
Qed.

Lemma look_at_raise (z up c : vec3 R) (e : exn) :
  look_at z up c = Raise e -> e = LinAlgError.
Proof. unfold look_at. apply inv4_raise. Qed.

Lemma spiral_focal_first (v : @View R) (vs : list View) :
  spiral_focal (v :: vs) = get_focal v.
Proof.
  unfold spiral_focal, count. cbn [hd].
  change (fold_left _ (v :: vs) (sofZ 0))
    with (fold_left (fun focal _ => focal + get_focal v) (v :: vs) 0).
  rewrite fold_add_const. cbn [sdiv RScalar sofZ].
  rewrite <- INR_IZR_INZ.
  assert (0 < INR (length (v :: vs))) by (apply lt_0_INR; cbn; lia).
  field. lra.
Qed.

Lemma generate_spiral_path_is_render_path_spiral_lemma percentile90
    (v : @View R) (vs : list View) (focal zrate rots : R) (N : nat) :
  generate_spiral_path percentile90 (v :: vs) focal zrate rots N
  = render_path_spiral percentile90 (v :: vs) (get_focal v) zrate rots N.
Proof.
  unfold generate_spiral_path, render_path_spiral. cbv zeta.
  now rewrite spiral_focal_first.
Qed.

(** X18. [generate_spiral_path] does not read its argument [focal]: on a
    non-empty list of views it is [render_path_spiral] called with the
    [FoVx] of the first view as focal depth (lines 565, 572 and 584). *)
Theorem generate_spiral_path_is_render_path_spiral percentile90
    (v : @View R) (vs : list View) (focal zrate rots : R) (N : nat) :
  generate_spiral_path percentile90 (v :: vs) focal zrate rots N
  = render_path_spiral percentile90 (v :: vs) (get_focal v) zrate rots N.
Proof.
  exact (generate_spiral_path_is_render_path_spiral_lemma percentile90 v vs focal zrate rots N).
Qed.

(** X19. When [generate_spiral_path] returns, it returns exactly [N]
    matrices, whatever the number of views. *)
Theorem generate_spiral_path_frames percentile90 (views : list (@View R))
    (focal zrate rots : R) (N : nat) (render_poses : list (mat4 R)) :
  generate_spiral_path percentile90 views focal zrate rots N = Ok render_poses ->
  length render_poses = N.
Proof.
  unfold generate_spiral_path.
  destruct (poses_of_views views) as [poses|e]; cbn [bind]; [|discriminate].
  destruct (poses_avg poses) as [[c2w hwf]|]; [|discriminate]. cbv zeta.
  intros E. rewrite (mapM_length _ _ _ E). apply angles_length.
Qed.

Lemma normalize_eq (v u : vec3 R) (k : R) :
  0 < k -> dot3 u u = 1 -> v = v3scale k u -> normalize v = u.
Proof.
  intros Hk Hu ->.
  assert (Hnz : u <> zero3).
  { intros ->. revert Hu. vunf. lra. }
  rewrite normalize_scale by assumption. now apply normalize_of_unit.
Qed.

Lemma rig_poses_avg :
  poses_avg rig_poses
  = Some (V3 (V4 1 0 0 0) (V4 0 1 0 0) (V4 0 0 1 0), V3 2 0 0).
Proof.
  unfold poses_avg, rig_poses. cbn [map]. cbv zeta.
  match goal with
  | |- context [mean3 ?l] =>
      assert (Ec : mean3 l = V3 0 0 0) by reval; rewrite Ec; clear Ec
  end.
  match goal with
  | |- context [normalize (sum3 ?l)] =>
      assert (Ez : sum3 l = V3 0 0 (8 / 5)) by reval; rewrite Ez; clear Ez
  end.
  match goal with
  | |- context [viewmatrix _ (sum3 ?l)] =>
      assert (Ey : sum3 l = V3 0 2 0) by reval; rewrite Ey; clear Ey
  end.
  rewrite (normalize_eq (V3 0 0 (8 / 5)) (V3 0 0 1) (8 / 5))
    by (try lra; vunf; try ring; vec_eq; ring).
  unfold viewmatrix.
  rewrite (normalize_eq (V3 0 0 1) (V3 0 0 1) 1)
    by (try lra; vunf; try ring; vec_eq; ring).
  rewrite (normalize_eq (cross (V3 0 2 0) (V3 0 0 1)) (V3 1 0 0) 2)
    by (try lra; vunf; try ring; vec_eq; ring).
  rewrite (normalize_eq (cross (V3 0 0 1) (V3 1 0 0)) (V3 0 1 0) 1)
    by (try lra; vunf; try ring; vec_eq; ring).
  reflexivity.
Qed.

Lemma rig_up_sum :
  normalize (sum3 (map (fun p => yaxis (unpad_poses p)) rig_poses)) = V3 0 1 0.
Proof.
  assert (Ey : sum3 (map (fun p : mat4 R => yaxis (unpad_poses p)) rig_poses) = V3 0 2 0)
    by (unfold rig_poses; reval).
  rewrite Ey. apply (normalize_eq _ _ 2); [lra | vunf; ring | vunf; vec_eq; ring].
Qed.

(** On the two views of [rig_views], with radii 1 and [zrate = 0], every
    frame of the spiral is computed. *)
Lemma rig_spiral (focal rots : R) (N : nat) :
  exists render_poses,
    generate_spiral_path (fun _ => V3 1 1 1) (@rig_views R _) focal 0 rots N
    = Ok render_poses.
Proof.
  unfold generate_spiral_path. rewrite rig_poses_of_views. cbn [bind].
  rewrite rig_poses_avg. cbv zeta. rewrite rig_up_sum.
  unfold rig_views at 1. rewrite spiral_focal_first. cbn [get_focal view_FoVx].
  unfold spiral_rads. cbn [vx vy vz].
  match goal with
  | |- context [mapM ?f ?l] =>
      destruct (mapM_Forall f (fun _ => True) l) as (bs & Hbs & _)
  end.
  - apply Forall_forall. intros theta _.
    destruct (spiral_render_pose_rigid
                (V3 (V4 1 0 0 0) (V4 0 1 0 0) (V4 0 0 1 0)) (V3 0 1 0)
                (V4 1 1 1 1) 1 0 theta) as (M & E & _).
    + replace (theta * 0) with 0 by ring. rewrite sin_0. munf. vunf.
      intros E. injection E as E1 E2 E3. lra.
    + exists M. split; [exact E | exact I].
  - exists bs. exact Hbs.
Qed.

Lemma generate_spiral_path_frames_witness :
  exists render_poses,
    generate_spiral_path (fun _ => V3 1 1 1) (@rig_views R _) (3 / 2) 0 1 600
    = Ok render_poses
    /\ length render_poses = 600%nat.
Proof.
  destruct (rig_spiral (3 / 2) 1 600) as [render_poses E].
  exists render_poses. split; [exact E|].
  exact (generate_spiral_path_frames _ _ _ _ _ _ _ E).
Defined.

(** X20. When [generate_spherical_sample_path] returns, it returns [N * N]
    matrices: one for each pair of an azimuth and a polar angle. *)
Theorem generate_spherical_sample_path_frames percentile90 (views : list (@View R))
    (azimuthal_rots polar_rots : R) (N : nat) (render_poses : list (mat4 R)) :
  generate_spherical_sample_path percentile90 views azimuthal_rots polar_rots N
  = Ok render_poses ->
  length render_poses = (N * N)%nat.
Proof.
  unfold generate_spherical_sample_path.
  destruct (poses_of_views views) as [poses|e]; cbn [bind]; [|discriminate].
  destruct (poses_avg poses) as [[c2w hwf]|]; [|discriminate]. cbv zeta.
  intros E. rewrite (mapM_length _ _ _ E).
  rewrite length_combine, length_seq, length_prod, !angles_length. lia.
Qed.

Lemma angles_one (stop : R) : angles stop 1 = [0].
Proof.
  unfold angles, np_linspace. cbn [Nat.add Nat.sub seq map Nat.ltb Nat.leb Nat.eqb andb
                                   removelast Z.of_nat].
  change (@seqb R RScalar) with Reqb. unfold Reqb.
  destruct (Req_dec_T _ _); f_equal; cbn [sofZ RScalar sadd smul sdiv ssub]; field.
Qed.

Lemma rig_spherical (azimuthal_rots polar_rots : R) :
  exists render_poses,
    generate_spherical_sample_path (fun _ => V3 1 1 1) (@rig_views R _)
      azimuthal_rots polar_rots 1
    = Ok render_poses.
Proof.
  unfold generate_spherical_sample_path. rewrite rig_poses_of_views. cbn [bind].
  rewrite rig_poses_avg. cbv zeta. rewrite rig_up_sum.
  unfold spiral_rads. cbn [vx vy vz]. rewrite !angles_one.
  cbn [length Nat.mul Nat.add seq list_prod map app combine mapM].
  match goal with
  | |- context [nth 0 ?l ?d] => assert (Ef : nth 0 l d = 1 / 2)
  end.
  { unfold np_linspace. cbn [Nat.add Nat.mul Nat.sub seq map Nat.ltb Nat.leb Nat.eqb andb
                               nth Z.of_nat].
    change (@seqb R RScalar) with Reqb. rewrite Reqb_false.
    - cbn [sofZ RScalar sadd smul sdiv ssub]. field.
    - cbn [sofZ RScalar sadd smul sdiv ssub Pos.of_succ_nat]. lra. }
  rewrite Ef.
  destruct (spherical_render_pose_rigid
              (V3 (V4 1 0 0 0) (V4 0 1 0 0) (V4 0 0 1 0)) (V3 0 1 0)
              (V4 1 1 1 1) (1 / 2) 0 0) as (M & E & _).
  - rewrite cos_0, sin_0. munf. vunf.
    intros E. injection E as E1 E2 E3. lra.
  - change (sofZ 0) with 0. change (sofZ 1) with 1. rewrite E. cbn [bind].
    eexists. reflexivity.
Qed.

Lemma generate_spherical_sample_path_frames_witness :
  exists render_poses,
    generate_spherical_sample_path (fun _ => V3 1 1 1) (@rig_views R _) 1 (3 / 4) 1
    = Ok render_poses
    /\ length render_poses = (1 * 1)%nat.
Proof.
  destruct (rig_spherical 1 (3 / 4)) as [render_poses E].
  exists render_poses. split; [exact E|].
  exact (generate_spherical_sample_path_frames _ _ _ _ _ _ E).
Defined.

(** *** Failures of the generators *)

Lemma bind_raise {A B} (r : result A) (k : A -> result B) (e : exn) :
  bind r k = Raise e -> r = Raise e \/ exists a, r = Ok a /\ k a = Raise e.
Proof.
  destruct r as [a|e']; cbn [bind]; intros E.
  - right. now exists a.
  - left. injection E as ->. reflexivity.
Qed.

Lemma min_line_dist_raise (poses : list (mat34 R)) (e : exn) :
  min_line_dist poses = Raise e -> e = LinAlgError.
Proof.
  unfold min_line_dist. cbv zeta. intros E.
  destruct (bind_raise _ _ _ E) as [E1 | (a & _ & E1)]; [|discriminate].
  exact (inv3_raise _ _ E1).
Qed.

Lemma generate_spherify_path_raise (views : list (@View R)) :
  generate_spherify_path views = Raise ValueError -> views = [].
Proof.
  unfold generate_spherify_path. intros E.
  destruct (bind_raise _ _ _ E) as [E1 | ([[rad zh] rc] & _ & E1)]; [|discriminate].
  unfold spherify_orbit in E1.
  destruct (bind_raise _ _ _ E1) as [E2 | (poses & Hp & E2)].
  { destruct (poses_of_views_raise _ _ E2) as [[_ Hv] | [Hv _]];
      [assumption | discriminate]. }
  cbv zeta in E2.
  destruct (bind_raise _ _ _ E2) as [E3 | (center & _ & E3)].
  { apply min_line_dist_raise in E3. discriminate. }
  destruct (bind_raise _ _ _ E3) as [E4 | (c2w_inv & _ & E4)]; [|discriminate].
  apply inv4_raise in E4. discriminate.
Qed.

Lemma poses_avg_some (poses : list (mat4 R)) :
  poses <> [] -> exists c2w hwf, poses_avg poses = Some (c2w, hwf).
Proof.
  destruct poses as [|p0 poses]; [contradiction|]. intros _.
  unfold poses_avg. eexists _, _. reflexivity.
Qed.

Lemma spiral_render_pose_raise (c2w : mat34 R) up rads focal zrate theta (e : exn) :
  spiral_render_pose c2w up rads focal zrate theta = Raise e -> e = LinAlgError.
Proof. unfold spiral_render_pose. cbv zeta. apply look_at_raise. Qed.

Lemma spherical_render_pose_raise (c2w : mat34 R) up rads focal theta phi (e : exn) :
  spherical_render_pose c2w up rads focal theta phi = Raise e -> e = LinAlgError.
Proof. unfold spherical_render_pose. cbv zeta. apply look_at_raise. Qed.

Lemma render_path_spiral_raise percentile90 (views : list (@View R))
    (focal zrate rots : R) (N : nat) :
  render_path_spiral percentile90 views focal zrate rots N = Raise ValueError ->
  views = [].
Proof.
  unfold render_path_spiral. intros E.
  destruct (bind_raise _ _ _ E) as [E1 | (poses & Hp & E1)].
  { destruct (poses_of_views_raise _ _ E1) as [[_ Hv] | [Hv _]];
      [assumption | discriminate]. }
  destruct (poses_of_views_ok _ _ Hp) as [Hne _].
  destruct (poses_avg_some poses Hne) as (c2w & hwf & Ea). rewrite Ea in E1.
  cbv zeta in E1. destruct (mapM_raise _ _ _ E1) as (theta & _ & E2).
  apply spiral_render_pose_raise in E2. discriminate.
Qed.

Lemma generate_spherical_sample_path_raise percentile90 (views : list (@View R))
    (azimuthal_rots polar_rots : R) (N : nat) :
  generate_spherical_sample_path percentile90 views azimuthal_rots polar_rots N
  = Raise ValueError ->
  views = [].
Proof.
  unfold generate_spherical_sample_path. intros E.
  destruct (bind_raise _ _ _ E) as [E1 | (poses & Hp & E1)].
  { destruct (poses_of_views_raise _ _ E1) as [[_ Hv] | [Hv _]];
      [assumption | discriminate]. }
  destruct (poses_of_views_ok _ _ Hp) as [Hne _].
  destruct (poses_avg_some poses Hne) as (c2w & hwf & Ea). rewrite Ea in E1.
  cbv zeta in E1. destruct (mapM_raise _ _ _ E1) as ([index [theta phi]] & _ & E2).
  apply spherical_render_pose_raise in E2. discriminate.
Qed.

(** X21. [generate_spherify_path], [generate_spiral_path],
    [render_path_spiral] and [generate_spherical_sample_path], for a number
    of frames [N >= 0], raise [ValueError] exactly when they are given no
    view ([np.stack] of an empty list): with at least one view their only
    failure is the [LinAlgError] of a matrix inversion. *)
Theorem generators_value_error_iff_no_view percentile90 (views : list (@View R)) :
  (generate_spherify_path views = Raise ValueError <-> views = [])
  /\ (forall focal zrate rots N,
        generate_spiral_path percentile90 views focal zrate rots N = Raise ValueError
        <-> views = [])
  /\ (forall focal zrate rots N,
        render_path_spiral percentile90 views focal zrate rots N = Raise ValueError
        <-> views = [])
  /\ (forall azimuthal_rots polar_rots N,
        generate_spherical_sample_path percentile90 views azimuthal_rots polar_rots N
        = Raise ValueError
        <-> views = []).
Proof.
  split; [|split; [|split]].
  - split; [apply generate_spherify_path_raise | now intros ->].
  - intros focal zrate rots N. split; [|now intros ->].
    destruct views as [|v vs]; [reflexivity|].
    rewrite generate_spiral_path_is_render_path_spiral_lemma.
    apply render_path_spiral_raise.
  - intros focal zrate rots N. split; [apply render_path_spiral_raise | now intros ->].
  - intros azimuthal_rots polar_rots N.
    split; [apply generate_spherical_sample_path_raise | now intros ->].
Qed.

(** ** [average_pose] and [recenter_poses] *)

Lemma frame_cross_z (m : mat3 R) :
  orthonormal_cols m -> det3 m = 1 ->
  cross (vx (cols33 m)) (vy (cols33 m)) = vz (cols33 m).
Proof.
  destruct m as [[a b c] [d e f] [g h i]]. unfold orthonormal_cols.
  intros (H1 & H2 & H3 & H4 & H5 & H6) Hd.
  apply cross_of_frame; try assumption.
  rewrite <- Hd. vunf. ring.
Qed.

(** A rotation commutes with the cross product. *)
Lemma cross_rotation (Q : mat3 R) (u v : vec3 R) :
  orthonormal_cols Q -> det3 Q = 1 ->
  cross (mv33 Q u) (mv33 Q v) = mv33 Q (cross u v).
Proof.
  intros Ho Hd. destruct (frame_cross Q Ho Hd) as [Hx Hy].
  pose proof (frame_cross_z Q Ho Hd) as Hz.
  destruct Q as [[q11 q12 q13] [q21 q22 q23] [q31 q32 q33]].
  destruct u as [u1 u2 u3], v as [v1 v2 v3].
  revert Hx Hy Hz. vunf. intros Hx Hy Hz.
  injection Hx as X1 X2 X3. injection Hy as Y1 Y2 Y3. injection Hz as Z1 Z2 Z3.
  assert (F : forall t x y : R, x = y -> t * x = t * y) by (intros; subst; ring).
  pose proof (F (u2 * v3 - u3 * v2) _ _ X1). pose proof (F (u2 * v3 - u3 * v2) _ _ X2).
  pose proof (F (u2 * v3 - u3 * v2) _ _ X3).
  pose proof (F (u3 * v1 - u1 * v3) _ _ Y1). pose proof (F (u3 * v1 - u1 * v3) _ _ Y2).
  pose proof (F (u3 * v1 - u1 * v3) _ _ Y3).
  pose proof (F (u1 * v2 - u2 * v1) _ _ Z1). pose proof (F (u1 * v2 - u2 * v1) _ _ Z2).
  pose proof (F (u1 * v2 - u2 * v1) _ _ Z3).
  vec_eq; lra.
Qed.

Lemma norm_rotation (Q : mat3 R) (v : vec3 R) :
  orthonormal_cols Q -> norm (mv33 Q v) = norm v.
Proof.
  intros Ho. unfold norm. f_equal.
  destruct Q as [[q11 q12 q13] [q21 q22 q23] [q31 q32 q33]], v as [v1 v2 v3].
  revert Ho. unfold orthonormal_cols. vunf. intros (H1 & H2 & H3 & H4 & H5 & H6).
  assert (F : forall t x y : R, x = y -> t * x = t * y) by (intros; subst; ring).
  pose proof (F (v1 * v1) _ _ H1). pose proof (F (v2 * v2) _ _ H2).
  pose proof (F (v3 * v3) _ _ H3). pose proof (F (2 * v1 * v2) _ _ H4).
  pose proof (F (2 * v1 * v3) _ _ H5). pose proof (F (2 * v2 * v3) _ _ H6).
  lra.
Qed.

Lemma normalize_rotation (Q : mat3 R) (v : vec3 R) :
  orthonormal_cols Q -> normalize (mv33 Q v) = mv33 Q (normalize v).
Proof.
  intros Ho. rewrite !normalize_as_scale, norm_rotation by assumption.
  generalize (/ norm v). intros k.
  destruct Q as [[q11 q12 q13] [q21 q22 q23] [q31 q32 q33]], v as [v1 v2 v3].
  vunf. vec_eq; ring.
Qed.

(** [viewmatrix] commutes with a rigid motion [x -> Q x + b]. *)
Lemma viewmatrix_rigid (Q : mat3 R) (b z up pos : vec3 R) :
  orthonormal_cols Q -> det3 Q = 1 ->
  viewmatrix (mv33 Q z) (mv33 Q up) (v3add (mv33 Q pos) b)
  = affine Q b (viewmatrix z up pos).
Proof.
  intros Ho Hd. unfold viewmatrix.
  rewrite (normalize_rotation Q z Ho).
  rewrite (cross_rotation Q up (normalize z) Ho Hd).
  rewrite (normalize_rotation Q _ Ho).
  rewrite (cross_rotation Q (normalize z) _ Ho Hd).
  rewrite (normalize_rotation Q _ Ho).
  generalize (normalize (cross (normalize z) (normalize (cross up (normalize z))))).
  generalize (normalize (cross up (normalize z))). generalize (normalize z).
  intros [z1 z2 z3] [x1 x2 x3] [y1 y2 y3].
  destruct Q as [[q11 q12 q13] [q21 q22 q23] [q31 q32 q33]], b as [b1 b2 b3],
           pos as [p1 p2 p3].
  vunf. vec_eq; ring.
Qed.

Lemma mean3_mv33_const (M : mat3 R) (l : list (vec3 R)) :
  mean3 (map (mv33 M) l) = mv33 M (mean3 l).
Proof.
  unfold mean3. rewrite !count_INR, !length_map.
  set (c := INR (length l)). clearbody c.
  assert (E : sum3 (map (mv33 M) l) = mv33 M (sum3 l)).
  { induction l as [|p l IH]; cbn [map].
    - rewrite sum3_nil. destruct M as [[] [] []]. vunf. vec_eq; ring.
    - rewrite !sum3_cons, IH. destruct M as [[] [] []], p, (sum3 l). vunf.
      vec_eq; ring. }
  rewrite E. destruct M as [[] [] []], (sum3 l). vunf. vec_eq; unfold Rdiv; ring.
Qed.

Lemma mean3_shift (b : vec3 R) (l : list (vec3 R)) :
  l <> [] -> mean3 (map (fun v => v3add v b) l) = v3add (mean3 l) b.
Proof.
  intros Hne. unfold mean3. rewrite !count_INR, !length_map.
  assert (Hn : INR (length l) <> 0).
  { destruct l; [contradiction|]. cbn [length]. rewrite S_INR.
    pose proof (pos_INR (length l)). lra. }
  assert (E : sum3 (map (fun v => v3add v b) l)
              = v3add (sum3 l) (v3scale (INR (length l)) b)).
  { clear. induction l as [|p l IH]; cbn [map length].
    - rewrite sum3_nil. cbn [INR]. destruct b. vunf. vec_eq; ring.
    - rewrite !sum3_cons, IH, S_INR. destruct b, p, (sum3 l). vunf. vec_eq; ring. }
  rewrite E. set (c := INR (length l)) in *. clearbody c.
  destruct b, (sum3 l). vunf. vec_eq; field; assumption.
Qed.

Lemma average_pose_rigid (Q : mat3 R) (b : vec3 R) (poses : list (mat34 R)) :
  orthonormal_cols Q -> det3 Q = 1 -> poses <> [] ->
  average_pose (map (affine Q b) poses) = affine Q b (average_pose poses).
Proof.
  intros Ho Hd Hne. unfold average_pose. cbv zeta. rewrite !map_map.
  rewrite (map_ext (fun p => trans (affine Q b p))
                   (fun p => v3add (mv33 Q (trans p)) b)).
  2:{ intros p. destruct Q as [[] [] []], b, p as [[] [] []]. vunf. vec_eq; ring. }
  rewrite (map_ext (fun p => zaxis (affine Q b p)) (fun p => mv33 Q (zaxis p))).
  2:{ intros p. destruct Q as [[] [] []], b, p as [[] [] []]. vunf. vec_eq; ring. }
  rewrite (map_ext (fun p => yaxis (affine Q b p)) (fun p => mv33 Q (yaxis p))).
  2:{ intros p. destruct Q as [[] [] []], b, p as [[] [] []]. vunf. vec_eq; ring. }
  rewrite <- (map_map zaxis (mv33 Q)), <- (map_map yaxis (mv33 Q)).
  rewrite <- (map_map (fun p => mv33 Q (trans p)) (fun v => v3add v b)).
  rewrite <- (map_map trans (mv33 Q)).
  rewrite !mean3_mv33_const, mean3_shift, mean3_mv33_const.
  - now apply viewmatrix_rigid.
  - destruct poses; [contradiction | discriminate].
Qed.

Lemma orthonormal_transpose (m : mat3 R) :
  orthonormal_cols m -> orthonormal_cols (transpose33 m).
Proof.
  intros Ho. apply gram_orthonormal. unfold gram_cols.
  replace (transpose33 (transpose33 m)) with m by (destruct m as [[] [] []]; reflexivity).
  now apply orthonormal_rows.
Qed.

Lemma det3_transpose (m : mat3 R) : det3 (transpose33 m) = det3 m.
Proof. destruct m as [[] [] []]. vunf. ring. Qed.


(** X22. [average_pose] commutes with rigid motions: moving every pose by
    the rotation [Q] and the translation [b] moves the average pose in the
    same way. *)
Theorem average_pose_equivariant (Q : mat3 R) (b : vec3 R) (poses : list (mat34 R)) :
  orthonormal_cols Q -> det3 Q = 1 -> poses <> [] ->
  average_pose (map (affine Q b) poses) = affine Q b (average_pose poses).
Proof. exact (average_pose_rigid Q b poses). Qed.

Lemma average_pose_equivariant_witness :
  average_pose (map (affine (V3 (V3 0 (-1) 0) (V3 1 0 0) (V3 0 0 1)) (V3 1 2 3))
                    rig_recentered)
  = affine (V3 (V3 0 (-1) 0) (V3 1 0 0) (V3 0 0 1)) (V3 1 2 3)
           (average_pose rig_recentered).
Proof.
  apply average_pose_equivariant.
  - unfold orthonormal_cols. vunf. repeat split; ring.
  - vunf. ring.
  - discriminate.
Defined.

(** X23. [recenter_poses]: when the mean up axis and the mean viewing axis
    of the poses are not parallel, the function returns; the transform it
    returns is the inverse of the padded average pose, and the average pose
    of the recentered poses is the identity pose [[I | 0]]. *)
Theorem recenter_poses_centers (poses : list (mat34 R)) :
  poses <> [] ->
  cross (mean3 (map yaxis poses)) (mean3 (map zaxis poses)) <> zero3 ->
  exists recentered transform,
    recenter_poses poses = Ok (recentered, transform)
    /\ mm44 transform (pad_poses (average_pose poses)) = eye4
    /\ average_pose recentered = hcat eye3 zero3.
Proof.
  intros Hne Hc. unfold recenter_poses. cbv zeta.
  set (c2w := average_pose poses).
  assert (Hrot : orthonormal_cols (rot_block c2w) /\ det3 (rot_block c2w) = 1).
  { apply viewmatrix_rotation. exact Hc. }
  destruct Hrot as [Ho Hd].
  pose proof (rigid_inverse_left c2w (orthonormal_gram _ Ho)) as Hl.
  rewrite (inv4_of_left_inverse _ _ Hl). cbn [bind].
  eexists _, _. split; [reflexivity|]. split; [exact Hl|].
  rewrite map_map.
  set (Qt := transpose33 (rot_block c2w)).
  set (b := v3opp (mv33 Qt (trans c2w))).
  rewrite (map_ext _ (affine Qt b)).
  2:{ intros p. unfold rigid_inverse. fold Qt. fold b.
      destruct Qt as [[] [] []], b, p as [[] [] []]. vunf. vec_eq; ring. }
  rewrite average_pose_rigid;
    [|now apply orthonormal_transpose | unfold Qt; now rewrite det3_transpose | assumption].
  fold c2w.
  assert (E : affine Qt b c2w = unpad_poses (mm44 (rigid_inverse c2w) (pad_poses c2w))).
  { unfold rigid_inverse. fold Qt. fold b.
    destruct Qt as [[] [] []], b, c2w as [[] [] []]. vunf. vec_eq; ring. }
  rewrite E, Hl. vunf. reflexivity.
Qed.

Lemma recenter_poses_centers_witness :
  exists recentered transform,
    recenter_poses rig_recentered = Ok (recentered, transform)
    /\ mm44 transform (pad_poses (average_pose rig_recentered)) = eye4
    /\ average_pose recentered = hcat eye3 zero3.
Proof.
  apply recenter_poses_centers.
  - discriminate.
  - assert (Ey : mean3 (map yaxis rig_recentered) = V3 0 0 1)
      by (unfold rig_recentered; reval).
    assert (Ez : mean3 (map zaxis rig_recentered) = V3 0 (-4 / 5) 0)
      by (unfold rig_recentered; reval).
    rewrite Ey, Ez. vunf. intros E. injection E as E1 E2 E3. lra.
Defined.

(** ** [generate_spherify_path]: the orbit and its cameras *)

Lemma dot3_cross_l (a b : vec3 R) : dot3 (cross a b) a = 0.
Proof. destruct a, b. vunf. ring. Qed.

Lemma dot3_scale_l (k : R) (u v : vec3 R) : dot3 (v3scale k u) v = k * dot3 u v.
Proof. destruct u, v. vunf. ring. Qed.

Lemma dot3_scale_r (k : R) (u v : vec3 R) : dot3 u (v3scale k v) = k * dot3 u v.
Proof. destruct u, v. vunf. ring. Qed.

Lemma zaxis_stack_cols (a b c d : vec3 R) : zaxis (stack_cols a b c d) = c.
Proof. now destruct c. Qed.

Lemma trans_stack_cols (a b c d : vec3 R) : trans (stack_cols a b c d) = d.
Proof. now destruct d. Qed.

(** Lines 420-432: for a non-zero orbit radius the pose of a camera of the
    orbit has a right-handed orthonormal rotation block, and its viewing
    axis is the direction from the origin to the camera. *)
Lemma spherify_pose_frame (radcircle zh th : R) :
  radcircle <> 0 ->
  let p := unpad_poses (spherify_pose radcircle zh th) in
  ww (spherify_pose radcircle zh th) = V4 0 0 0 1
  /\ orthonormal_cols (rot_block p) /\ det3 (rot_block p) = 1
  /\ trans p = V3 (radcircle * cos th) (radcircle * sin th) zh
  /\ zaxis p = normalize (trans p).
Proof.
  intros Hr. cbv zeta. unfold spherify_pose. cbv zeta.
  change (@scos R RTrig) with cos. change (@ssin R RTrig) with sin.
  change (@smul R RScalar) with Rmult. change (sofZ 0) with 0.
  change (sofZ (-1)) with (-1).
  set (cam := V3 (radcircle * cos th) (radcircle * sin th) zh).
  set (up := V3 0 0 (-1)).
  assert (Hxy : cross cam up <> zero3).
  { subst cam up. vunf. intros E. injection E as E1 E2.
    pose proof (sin2_cos2 th) as Hsc. unfold Rsqr in Hsc. nra. }
  pose proof (cross_nonzero_l _ _ Hxy) as Hcam.
  pose proof (norm_pos cam Hcam) as Hn.
  set (vec2 := normalize cam).
  assert (H2 : dot3 vec2 vec2 = 1) by (apply normalize_unit; assumption).
  assert (Hc2 : cross vec2 up <> zero3).
  { unfold vec2. rewrite normalize_as_scale, cross_scale_l.
    apply v3scale_nonzero; [|assumption]. apply Rinv_neq_0_compat. lra. }
  set (vec0 := normalize (cross vec2 up)).
  assert (H0 : dot3 vec0 vec0 = 1) by (apply normalize_unit; assumption).
  assert (H02 : dot3 vec0 vec2 = 0).
  { unfold vec0. rewrite normalize_as_scale, dot3_scale_l, dot3_cross_l. ring. }
  destruct (frame_of_units vec0 vec2 H0 H2 H02) as (H1 & H01 & H12 & Hd).
  rewrite (normalize_of_unit (cross vec2 vec0) H1).
  set (vec1 := cross vec2 vec0) in *.
  assert (Hrot : orthonormal_cols (rot_block (stack_cols vec0 vec1 vec2 cam))
                 /\ det3 (rot_block (stack_cols vec0 vec1 vec2 cam)) = 1).
  { clearbody vec1 vec0 vec2. clear Hxy Hcam Hn Hc2.
    destruct vec0 as [a b c], vec1 as [d e f], vec2 as [g h i], cam as [c1 c2 c3].
    unfold orthonormal_cols. revert H0 H1 H2 H01 H02 H12 Hd. vunf. intros.
    split; [repeat split; lra | lra]. }
  destruct Hrot as [Ho Hdet].
  split; [reflexivity|]. split; [exact Ho|]. split; [exact Hdet|].
  split; [reflexivity|].
  change (zaxis (stack_cols vec0 vec1 vec2 cam)
          = normalize (trans (stack_cols vec0 vec1 vec2 cam))).
  now rewrite zaxis_stack_cols, trans_stack_cols.
Qed.

Lemma dot3_rotation (Q : mat3 R) (v : vec3 R) :
  orthonormal_cols Q -> dot3 (mv33 Q v) (mv33 Q v) = dot3 v v.
Proof.
  intros Ho.
  destruct Q as [[q11 q12 q13] [q21 q22 q23] [q31 q32 q33]], v as [v1 v2 v3].
  revert Ho. unfold orthonormal_cols. vunf. intros (H1 & H2 & H3 & H4 & H5 & H6).
  assert (F : forall t x y : R, x = y -> t * x = t * y) by (intros; subst; ring).
  pose proof (F (v1 * v1) _ _ H1). pose proof (F (v2 * v2) _ _ H2).
  pose proof (F (v3 * v3) _ _ H3). pose proof (F (2 * v1 * v2) _ _ H4).
  pose proof (F (2 * v1 * v3) _ _ H5). pose proof (F (2 * v2 * v3) _ _ H6).
  lra.
Qed.

Lemma dot3_normalize (v : vec3 R) : v <> zero3 -> dot3 (normalize v) v = norm v.
Proof.
  intros Hv. pose proof (norm_pos v Hv) as Hn. pose proof (norm_sqr v) as Hs.
  rewrite normalize_as_scale, dot3_scale_l, <- Hs. field. lra.
Qed.

(** Lines 371-416 in closed form.  With [center] the point nearest to the
    viewing axes and [up] the mean offset of the cameras from it, the radius
    before rescaling is the root mean square of the distances of the cameras
    to [center], and the height of the orbit is the length of [up] over that
    radius. *)
Lemma spherify_orbit_values (views : list (@View R)) (poses : list (mat4 R))
    (center : vec3 R) :
  poses_of_views views = Ok poses ->
  min_line_dist (map unpad_poses poses) = Ok center ->
  cross (V3 (1 / 10) (2 / 10) (3 / 10))
        (mean3 (map (fun p => v3sub (trans p) center) (map unpad_poses poses)))
    <> zero3 ->
  let offsets := map (fun p => v3sub (trans p) center) (map unpad_poses poses) in
  let rad0 := sqrt (mean1 (map (fun w => dot3 w w) offsets)) in
  let rad := rad0 * (1 / rad0) in
  let zh := norm (mean3 offsets) * (1 / rad0) in
  spherify_orbit views = Ok (rad, zh, sqrt (rad * rad - zh * zh)).
Proof.
  intros Hp Hc Hup. cbv zeta. unfold spherify_orbit.
  rewrite Hp. cbn [bind]. rewrite Hc. cbn [bind]. cbv zeta.
  set (l := map unpad_poses poses) in *.
  set (up := mean3 (map (fun p => v3sub (trans p) center) l)) in *.
  change (stack_cols _ _ _ center)
    with (viewmatrix up (V3 (1 / 10) (2 / 10) (3 / 10)) center).
  set (c2w := viewmatrix up (V3 (1 / 10) (2 / 10) (3 / 10)) center).
  destruct (viewmatrix_rotation up (V3 (1 / 10) (2 / 10) (3 / 10)) center Hup)
    as [Ho Hd]. fold c2w in Ho, Hd.
  pose proof (rigid_inverse_left c2w (orthonormal_gram _ Ho)) as Hl.
  rewrite (inv4_of_left_inverse _ _ Hl). cbn [bind].
  set (Qt := transpose33 (rot_block c2w)).
  assert (HQt : orthonormal_cols Qt) by now apply orthonormal_transpose.
  assert (Hreset : map (fun p => unpad_poses (mm44 (rigid_inverse c2w) (pad_poses p))) l
                   = map (affine Qt (v3opp (mv33 Qt center))) l).
  { apply map_ext. intros p. unfold rigid_inverse. fold Qt.
    replace (trans c2w) with center by (symmetry; apply viewmatrix_trans).
    generalize (v3opp (mv33 Qt center)). intros b.
    destruct Qt as [[] [] []], b, p as [[] [] []]. vunf. vec_eq; ring. }
  rewrite Hreset. clear Hreset.
  assert (Htr : forall p, trans (affine Qt (v3opp (mv33 Qt center)) p)
                          = mv33 Qt (v3sub (trans p) center)).
  { intros p. destruct Qt as [[] [] []], center, p as [[] [] []]. vunf. vec_eq; ring. }
  assert (E1 : map (fun p => dot3 (trans p) (trans p))
                   (map (affine Qt (v3opp (mv33 Qt center))) l)
               = map (fun w => dot3 w w) (map (fun p => v3sub (trans p) center) l)).
  { rewrite !map_map. apply map_ext. intros p. rewrite Htr. now apply dot3_rotation. }
  rewrite E1. clear E1.
  set (rad0 := ssqrt (mean1 _)).
  change (ssqrt (mean1 (map (fun w => dot3 w w) (map (fun p => v3sub (trans p) center) l))))
    with rad0.
  change (sqrt (mean1 (map (fun w => dot3 w w) (map (fun p => v3sub (trans p) center) l))))
    with rad0.
  set (sc := 1 / rad0).
  assert (E2 : vz (mean3 (map trans (map (scale_trans sc)
                     (map (affine Qt (v3opp (mv33 Qt center))) l))))
               = norm up * sc).
  { rewrite !map_map.
    rewrite (map_ext _ (fun p => mv33 (map3 (v3scale sc) Qt) (v3sub (trans p) center))).
    2:{ intros p. cbv beta.
        assert (Es : forall q, trans (scale_trans sc q) = v3scale sc (trans q))
          by (intros [[] [] []]; reflexivity).
        rewrite Es, Htr. generalize (v3sub (trans p) center). intros w.
        destruct Qt as [[] [] []], w. vunf. vec_eq; ring. }
    rewrite <- (map_map (fun p => v3sub (trans p) center) (mv33 _)).
    rewrite mean3_mv33_const. fold up.
    assert (Ez : vz Qt = normalize up).
    { unfold Qt, c2w. rewrite <- (viewmatrix_zaxis up (V3 (1 / 10) (2 / 10) (3 / 10)) center).
      destruct (viewmatrix _ _ _) as [[] [] []]. reflexivity. }
    pose proof (dot3_normalize up (cross_nonzero_r _ _ Hup)) as Hn.
    rewrite <- Ez in Hn. rewrite <- Hn.
    destruct Qt as [r0 r1 [q31 q32 q33]], up as [u1 u2 u3]. vunf. ring. }
  change (@smul R RScalar) with Rmult. change (@ssub R RScalar) with Rminus.
  change (@sdiv R RScalar) with Rdiv. change (sofZ 1) with 1.
  fold sc. rewrite E2. reflexivity.
Qed.

Lemma rig_orbit_value :
  spherify_orbit (@rig_views R _) = Ok (1, 4 / 5, 3 / 5).
Proof.
  rewrite (spherify_orbit_values rig_views rig_poses (V3 0 0 (-8 / 3))
             rig_poses_of_views rig_min_line_dist).
  - assert (Eo : map (fun p => v3sub (trans p) (V3 0 0 (-8 / 3)))
                     (map unpad_poses rig_poses)
                 = [V3 2 0 (8 / 3); V3 (-2) 0 (8 / 3)])
      by (unfold rig_poses; reval).
    rewrite Eo.
    assert (Em : mean1 (map (fun w : vec3 R => dot3 w w)
                            [V3 2 0 (8 / 3); V3 (-2) 0 (8 / 3)])
                 = 10 / 3 * (10 / 3)) by reval.
    assert (Eu : mean3 [V3 2 0 (8 / 3); V3 (-2) 0 (8 / 3)] = V3 0 0 (8 / 3)) by reval.
    rewrite Em, Eu, sqrt_square by lra.
    assert (En : norm (V3 0 0 (8 / 3)) = 8 / 3).
    { unfold norm. cbn [ssqrt RScalar].
      replace (dot3 (V3 0 0 (8 / 3)) (V3 0 0 (8 / 3))) with (8 / 3 * (8 / 3))
        by (vunf; ring).
      apply sqrt_square. lra. }
    rewrite En.
    replace (10 / 3 * (1 / (10 / 3))) with 1 by (field; lra).
    replace (8 / 3 * (1 / (10 / 3))) with (4 / 5) by (field; lra).
    replace (1 * 1 - 4 / 5 * (4 / 5)) with (3 / 5 * (3 / 5)) by lra.
    rewrite sqrt_square by lra. reflexivity.
  - assert (E : mean3 (map (fun p => v3sub (trans p) (V3 0 0 (-8 / 3)))
                        (map unpad_poses rig_poses)) = V3 0 0 (8 / 3))
      by (unfold rig_poses; reval).
    rewrite E. vunf. intros H. injection H as H1 H2. lra.
Qed.

(** X24. Lines 371-416 of [generate_spherify_path] in closed form.  With
    [center] the point nearest to the viewing axes and [up] the mean offset
    of the cameras from it (not along [(0.1, 0.2, 0.3)]), the radius before
    rescaling [rad0] is the root mean square of the distances of the cameras
    to [center]; the function then works with the radius [rad0 / rad0] and
    the orbit height [|up| / rad0]. *)
Theorem spherify_orbit_closed_form (views : list (@View R)) (poses : list (mat4 R))
    (center : vec3 R) :
  poses_of_views views = Ok poses ->
  min_line_dist (map unpad_poses poses) = Ok center ->
  cross (V3 (1 / 10) (2 / 10) (3 / 10))
        (mean3 (map (fun p => v3sub (trans p) center) (map unpad_poses poses)))
    <> zero3 ->
  let offsets := map (fun p => v3sub (trans p) center) (map unpad_poses poses) in
  let rad0 := sqrt (mean1 (map (fun w => dot3 w w) offsets)) in
  let rad := rad0 * (1 / rad0) in
  let zh := norm (mean3 offsets) * (1 / rad0) in
  spherify_orbit views = Ok (rad, zh, sqrt (rad * rad - zh * zh)).
Proof. exact (spherify_orbit_values views poses center). Qed.

Lemma spherify_orbit_closed_form_witness :
  let offsets := map (fun p => v3sub (trans p) (V3 0 0 (-8 / 3)))
                     (map unpad_poses rig_poses) in
  let rad0 := sqrt (mean1 (map (fun w => dot3 w w) offsets)) in
  let rad := rad0 * (1 / rad0) in
  let zh := norm (mean3 offsets) * (1 / rad0) in
  spherify_orbit (@rig_views R _) = Ok (rad, zh, sqrt (rad * rad - zh * zh)).
Proof.
  apply (spherify_orbit_closed_form rig_views rig_poses (V3 0 0 (-8 / 3))
           rig_poses_of_views rig_min_line_dist).
  assert (E : mean3 (map (fun p => v3sub (trans p) (V3 0 0 (-8 / 3)))
                      (map unpad_poses rig_poses)) = V3 0 0 (8 / 3))
    by (unfold rig_poses; reval).
  rewrite E. vunf. intros H. injection H as H1 H2. lra.
Defined.

Lemma sqrt_nonzero (x : R) : sqrt x <> 0 -> 0 < x.
Proof.
  intros Hs. destruct (Rlt_le_dec 0 x) as [Hx | Hx]; [assumption|].
  exfalso. apply Hs. now apply sqrt_neg_0.
Qed.


(** X25. The cameras of [generate_spherify_path]: when the orbit is computed
    with a radius that is not zero, every pose returned has bottom row
    [0, 0, 0, 1] and a right-handed orthonormal rotation block; its camera
    lies on the unit sphere about the origin, and its viewing axis is its
    own position vector, so that the camera faces the origin. *)
Theorem spherify_path_on_unit_sphere (views : list (@View R)) (rad zh radcircle : R) :
  spherify_orbit views = Ok (rad, zh, radcircle) -> radcircle <> 0 ->
  exists new_poses,
    generate_spherify_path views = Ok new_poses
    /\ Forall (fun M =>
         ww M = V4 0 0 0 1
         /\ orthonormal_cols (rot_block (unpad_poses M))
         /\ det3 (rot_block (unpad_poses M)) = 1
         /\ dot3 (trans (unpad_poses M)) (trans (unpad_poses M)) = 1
         /\ zaxis (unpad_poses M) = trans (unpad_poses M)) new_poses.
Proof.
  intros E Hrc.
  destruct (spherify_orbit_bound views rad zh radcircle E) as (Hrad & Hzh & Erc).
  destruct (spherify_orbit_inv views rad zh radcircle E) as (poses_reset & Er & _).
  cbv zeta in Er.
  assert (Hpos : 0 < rad * rad - zh * zh) by (apply sqrt_nonzero; now rewrite <- Erc).
  assert (Hrc2 : radcircle * radcircle = rad * rad - zh * zh).
  { rewrite Erc. apply sqrt_sqrt. lra. }
  assert (Hone : rad = 1).
  { rewrite Er. set (r0 := sqrt (mean1 _)) in *. clearbody r0.
    destruct (Req_dec r0 0) as [Hz | Hnz].
    - exfalso. rewrite Hz in Er. nra.
    - field. assumption. }
  unfold generate_spherify_path. rewrite E. cbn [bind].
  eexists. split; [reflexivity|].
  apply Forall_forall. intros M HM. apply in_map_iff in HM.
  destruct HM as (th & <- & _).
  destruct (spherify_pose_frame radcircle zh th Hrc) as (A1 & A2 & A3 & A4 & A5).
  cbv zeta in A2, A3, A4, A5.
  assert (Hunit : dot3 (trans (unpad_poses (spherify_pose radcircle zh th)))
                       (trans (unpad_poses (spherify_pose radcircle zh th))) = 1).
  { rewrite A4. vunf. pose proof (sin2_cos2 th) as Hsc. unfold Rsqr in Hsc.
    rewrite Hone in Hrc2. nra. }
  split; [exact A1|]. split; [exact A2|]. split; [exact A3|]. split; [exact Hunit|].
  rewrite A5. now apply normalize_of_unit.
Qed.

Lemma spherify_path_on_unit_sphere_witness :
  exists new_poses,
    generate_spherify_path (@rig_views R _) = Ok new_poses
    /\ Forall (fun M =>
         ww M = V4 0 0 0 1
         /\ orthonormal_cols (rot_block (unpad_poses M))
         /\ det3 (rot_block (unpad_poses M)) = 1
         /\ dot3 (trans (unpad_poses M)) (trans (unpad_poses M)) = 1
         /\ zaxis (unpad_poses M) = trans (unpad_poses M)) new_poses.
Proof.
  apply (spherify_path_on_unit_sphere rig_views 1 (4 / 5) (3 / 5) rig_orbit_value).
  lra.
Defined.

(** ** [poses_avg] and [poses_avg_fixed_center] *)

Lemma viewmatrix_scale (z up pos : vec3 R) (a b : R) :
  cross up z <> zero3 -> 0 < a -> 0 < b ->
  viewmatrix (v3scale a z) (v3scale b up) pos = viewmatrix z up pos.
Proof.
  intros Hc Ha Hb.
  assert (Hz : z <> zero3) by (eapply cross_nonzero_r; eauto).
  destruct (viewmatrix_frame z up Hc) as (_ & _ & _ & _ & Hc0). cbv zeta in Hc0.
  unfold viewmatrix. rewrite normalize_scale by auto. rewrite cross_scale_l.
  now rewrite normalize_scale by auto.
Qed.

Lemma mean3_as_scale (l : list (vec3 R)) :
  mean3 l = v3scale (/ INR (length l)) (sum3 l).
Proof. unfold mean3. rewrite count_INR. now destruct (sum3 l). Qed.


(** X26. [poses_avg] and [average_pose] agree: on 4x4 poses whose summed up
    axes and summed viewing axes are not parallel, the 3x4 part of the
    result of [poses_avg] is the average pose of the 3x4 parts, although
    one sums the axes and the other takes their means. *)
Theorem poses_avg_is_average_pose (poses : list (mat4 R)) :
  cross (sum3 (map (fun p => yaxis (unpad_poses p)) poses))
        (sum3 (map (fun p => zaxis (unpad_poses p)) poses)) <> zero3 ->
  exists hwf,
    poses_avg poses = Some (average_pose (map unpad_poses poses), hwf).
Proof.
  intros Hc. destruct poses as [|p0 poses].
  { exfalso. apply Hc. cbn [map]. rewrite !sum3_nil. vunf. vec_eq; ring. }
  set (l := p0 :: poses) in *.
  exists (trans (unpad_poses p0)). unfold poses_avg. fold l. cbv zeta.
  unfold average_pose. rewrite !map_map.
  set (Z := sum3 (map (fun p => zaxis (unpad_poses p)) l)) in *.
  set (U := sum3 (map (fun p => yaxis (unpad_poses p)) l)) in *.
  rewrite (mean3_as_scale (map (fun p => zaxis (unpad_poses p)) l)).
  rewrite (mean3_as_scale (map (fun p => yaxis (unpad_poses p)) l)).
  fold Z U. rewrite !length_map.
  assert (Hn : 0 < / INR (length l)).
  { apply Rinv_0_lt_compat. unfold l. cbn [length]. rewrite S_INR.
    pose proof (pos_INR (length poses)). lra. }
  rewrite (viewmatrix_scale Z U _ _ _ Hc Hn Hn).
  assert (Hz : Z <> zero3) by (eapply cross_nonzero_r; eauto).
  unfold viewmatrix. now rewrite normalize_idem.
Qed.

Lemma poses_avg_is_average_pose_witness :
  exists hwf,
    poses_avg rig_poses = Some (average_pose (map unpad_poses rig_poses), hwf).
Proof.
  apply poses_avg_is_average_pose.
  assert (Ey : sum3 (map (fun p : mat4 R => yaxis (unpad_poses p)) rig_poses) = V3 0 2 0)
    by (unfold rig_poses; reval).
  assert (Ez : sum3 (map (fun p : mat4 R => zaxis (unpad_poses p)) rig_poses)
               = V3 0 0 (8 / 5))
    by (unfold rig_poses; reval).
  rewrite Ey, Ez. vunf. intros E. injection E as E1 E2 E3. lra.
Defined.

(** X27. [poses_avg_fixed_center] returns the same rotation whatever the
    poses are: the camera axes [(0,1,0)], [(0,0,1)], [(1,0,0)].  What
    depends on the poses is the position, which is their mean position, and
    the last column of the first pose. *)
Theorem poses_avg_fixed_center_rotation (p0 : mat4 R) (poses : list (mat4 R)) :
  poses_avg_fixed_center (p0 :: poses)
  = Some (stack_cols (V3 0 1 0) (V3 0 0 1) (V3 1 0 0)
            (mean3 (map (fun p => trans (unpad_poses p)) (p0 :: poses))),
          trans (unpad_poses p0)).
Proof.
  unfold poses_avg_fixed_center. cbv zeta. unfold viewmatrix.
  change (sofZ 1) with 1. change (sofZ 0) with 0.
  rewrite (normalize_eq (V3 1 0 0) (V3 1 0 0) 1)
    by (try lra; vunf; try ring; vec_eq; ring).
  rewrite (normalize_eq (cross (V3 0 0 1) (V3 1 0 0)) (V3 0 1 0) 1)
    by (try lra; vunf; try ring; vec_eq; ring).
  rewrite (normalize_eq (cross (V3 1 0 0) (V3 0 1 0)) (V3 0 0 1) 1)
    by (try lra; vunf; try ring; vec_eq; ring).
  reflexivity.
Qed.

(** ** [invert_cdf_np] and [sample_np] *)

Lemma integrate_weights_valid (w : list R) :
  Forall (fun a => 0 <= a) w -> sum1 w = 1 ->
  nondecreasing (integrate_weights_np w)
  /\ hd_error (integrate_weights_np w) = Some 0
  /\ last (integrate_weights_np w) 0 = 1
  /\ length (integrate_weights_np w) = S (length w).
Proof.
  intros Hw Hsum. unfold integrate_weights_np.
  cbn [sofZ smin RScalar app].
  destruct (cumsum_sorted _ (removelast_Forall _ _ Hw)) as [Hs Hpos].
  split; [|split; [|split]].
  - apply sorted_nondecreasing. constructor.
    + apply sorted_snoc; [now apply clamp_sorted|].
      rewrite Forall_map. apply Forall_forall. intros c _. apply Rmin_l.
    + apply Forall_app. split.
      * rewrite Forall_map. eapply Forall_impl; [|exact Hpos]. cbn beta.
        intros c Hc. apply Rmin_glb; lra.
      * repeat constructor. lra.
  - reflexivity.
  - change (0 :: ?l ++ [1]) with ((0 :: l) ++ [1]). apply last_last.
  - cbn [length]. rewrite length_app, length_map, cumsum_length. cbn [length].
    rewrite Nat.add_1_r. f_equal. apply removelast_length.
    intros ->. cbv in Hsum. lra.
Qed.

Lemma sum1_pos (l : list R) : l <> [] -> Forall (fun a => 0 < a) l -> 0 < sum1 l.
Proof.
  intros Hne Hl. destruct Hl as [|a l Ha Hl]; [contradiction|].
  rewrite sum1_cons.
  assert (0 <= sum1 l).
  { apply sum1_nonneg. eapply Forall_impl; [|exact Hl]. cbn beta. intros; lra. }
  lra.
Qed.

Lemma softmax_weights (w_logits : list R) :
  w_logits <> [] ->
  Forall (fun a => 0 < a) (softmax w_logits) /\ sum1 (softmax w_logits) = 1
  /\ length (softmax w_logits) = length w_logits.
Proof.
  intros Hne. unfold softmax. cbv zeta. cbn [sexp RExp].
  set (e := map exp w_logits).
  assert (He : Forall (fun a => 0 < a) e).
  { unfold e. rewrite Forall_map. apply Forall_forall. intros x _. apply exp_pos. }
  assert (Hne' : e <> []).
  { unfold e. destruct w_logits; [contradiction | discriminate]. }
  pose proof (sum1_pos e Hne' He) as Hs.
  split; [|split].
  - rewrite Forall_map. eapply Forall_impl; [|exact He]. cbn beta.
    intros a Ha. change (@sdiv R RScalar) with Rdiv. apply Rdiv_lt_0_compat; assumption.
  - change (@sdiv R RScalar) with Rdiv. unfold Rdiv. rewrite sum1_scale. field. lra.
  - unfold e. now rewrite !length_map.
Qed.

(** X28. [invert_cdf_np] calls [integrate_weights_np] as its docstring asks:
    for at least one logit the weights [exp(w_logits) / sum] are positive and
    sum to 1, so the CDF handed to [np.interp] has one entry more than there
    are logits, starts at 0, ends at 1, does not decrease, and its entry [i]
    is the sum of the first [i] weights. *)
Theorem invert_cdf_np_cdf interp (u t w_logits : list R) :
  w_logits <> [] ->
  exists cw,
    invert_cdf_np interp u t w_logits = interp u cw t
    /\ length cw = S (length w_logits)
    /\ nondecreasing cw /\ hd_error cw = Some 0 /\ last cw 0 = 1
    /\ forall i, (i <= length w_logits)%nat ->
                 nth i cw 0 = sum1 (firstn i (softmax w_logits)).
Proof.
  intros Hne. destruct (softmax_weights w_logits Hne) as (Hpos & Hsum & Hlen).
  assert (Hnn : Forall (fun a => 0 <= a) (softmax w_logits)).
  { eapply Forall_impl; [|exact Hpos]. cbn beta. intros; lra. }
  destruct (integrate_weights_valid _ Hnn Hsum) as (H1 & H2 & H3 & H4).
  exists (integrate_weights_np (softmax w_logits)).
  split; [reflexivity|]. split; [now rewrite H4, Hlen|].
  split; [exact H1|]. split; [exact H2|]. split; [exact H3|].
  intros i Hi. apply integrate_weights_prefix_lemma; try assumption. now rewrite Hlen.
Qed.

Lemma invert_cdf_np_cdf_witness :
  exists cw,
    invert_cdf_np (fun u cw t => u) [1 / 2] [0; 1] [0; 0] = (fun u cw t => u) [1 / 2] cw [0; 1]
    /\ length cw = S (length [0; 0])
    /\ nondecreasing cw /\ hd_error cw = Some 0 /\ last cw 0 = 1
    /\ forall i, (i <= length [0; 0])%nat ->
                 nth i cw 0 = sum1 (firstn i (softmax [0; 0])).
Proof.
  apply (invert_cdf_np_cdf (fun u cw t => u) [1 / 2] [0; 1] [0; 0]). discriminate.
Defined.

(** The entries of [np.linspace] lie between its two ends. *)
Lemma np_linspace_between (start stop : R) (num : nat) :
  start <= stop ->
  Forall (fun x => start <= x <= stop) (np_linspace start stop num).
Proof.
  intros Hle. unfold np_linspace. cbv zeta. rewrite Forall_map.
  apply Forall_forall. intros i Hi. apply in_seq in Hi.
  change (@seqb R RScalar) with Reqb. cbn [sofZ RScalar sadd smul sdiv ssub].
  destruct (Nat.ltb 1 num && Nat.eqb i (num - 1)) eqn:Elast; [lra|].
  destruct (Nat.ltb 0 (num - 1)) eqn:Ediv.
  - apply Nat.ltb_lt in Ediv.
    assert (Hi' : (i < num - 1)%nat).
    { apply andb_false_iff in Elast. destruct Elast as [E | E].
      - apply Nat.ltb_ge in E. lia.
      - apply Nat.eqb_neq in E. lia. }
    assert (Hd : 0 < IZR (Z.of_nat (num - 1))) by (apply IZR_lt; lia).
    assert (Hi0 : 0 <= IZR (Z.of_nat i)) by (apply IZR_le; lia).
    assert (Hid : IZR (Z.of_nat i) <= IZR (Z.of_nat (num - 1))) by (apply IZR_le; lia).
    set (d := IZR (Z.of_nat (num - 1))) in *. set (k := IZR (Z.of_nat i)) in *.
    clearbody d k.
    assert (Hq : 0 <= k / d <= 1).
    { split; [apply Rle_mult_inv_pos; lra|].
      apply (Rmult_le_reg_r d); [lra|]. unfold Rdiv.
      rewrite Rmult_assoc, Rinv_l by lra. lra. }
    assert (Es : k * ((stop - start) / d) = k / d * (stop - start)) by (field; lra).
    unfold Reqb. destruct (Req_dec_T _ _); [|rewrite Es]; nra.
  - apply Nat.ltb_ge in Ediv.
    replace i with 0%nat by lia. cbn [Z.of_nat]. lra.
Qed.

Lemma sample_u_range (rand : bool) (noise : list R) (num_samples : nat)
    (single_jitter deterministic_center : bool) (u : list R) :
  (1 <= num_samples)%nat ->
  (rand = true ->
   (2 <= num_samples)%nat /\ (Z.of_nat num_samples <= 8388607)%Z /\ Forall (fun r => 0 <= r < 1) noise
   /\ noise <> []) ->
  sample_u rand noise num_samples single_jitter deterministic_center = Some u ->
  Forall (fun x => 0 <= x < 1) u.
Proof.
  intros Hn Hrand. unfold sample_u, eps32. cbv zeta.
  cbn [sofZ RScalar sadd smul sdiv ssub].
  set (eps := 1 / 8388608).
  assert (Heps : 0 < eps < 1 / 4) by (unfold eps; lra).
  destruct rand; cbn [negb].
  - destruct (Hrand eq_refl) as (Hn2 & Hmax & Hnoise & Hne). clear Hrand.
    assert (HN2 : 2 <= IZR (Z.of_nat num_samples)) by (apply IZR_le; lia).
    assert (HNmax : IZR (Z.of_nat num_samples) <= 8388607) by (apply IZR_le; exact Hmax).
    rewrite minus_IZR.
    set (N := IZR (Z.of_nat num_samples)) in *. clearbody N.
    set (q := (1 - eps) / N).
    assert (Hq : q * N = 1 - eps) by (unfold q; field; lra).
    assert (Hq0 : eps <= q).
    { apply (Rmult_le_reg_r N); [lra|]. rewrite Hq. unfold eps. lra. }
    assert (Eum : 1 - (eps + q) = q * (N - 1)) by lra.
    assert (Emj : (1 - (eps + q)) / (N - 1) - eps = q - eps).
    { rewrite Eum. field. lra. }
    rewrite Emj.
    assert (Hbase : Forall (fun x => 0 <= x <= 1 - (eps + q))
                           (np_linspace 0 (1 - (eps + q)) num_samples)).
    { apply np_linspace_between. nra. }
    destruct single_jitter; intros E; injection E as <-.
    + rewrite Forall_map. eapply Forall_impl; [|exact Hbase]. cbn beta.
      intros b Hb. destruct noise as [|r noise]; [contradiction|].
      apply Forall_inv in Hnoise. cbn [hd]. nra.
    + rewrite Forall_map. apply Forall_forall. intros [b r] Hin.
      pose proof (in_combine_l _ _ _ _ Hin) as Hb.
      pose proof (in_combine_r _ _ _ _ Hin) as Hr.
      rewrite Forall_forall in Hbase, Hnoise.
      specialize (Hbase b Hb). specialize (Hnoise r Hr). cbn beta in *. nra.
  - clear Hrand. destruct deterministic_center.
    + destruct num_samples as [|n]; [lia|]. intros E. injection E as <-.
      change (Z.pos (Pos.of_succ_nat n)~0) with (2 * Z.of_nat (S n))%Z.
      rewrite mult_IZR.
      destruct n as [|n].
      * (* one sample: [stop < start], and the only entry is [start] *)
        unfold np_linspace. cbn [Nat.sub seq map Nat.ltb Nat.leb Nat.eqb andb Z.of_nat].
        cbn [sofZ RScalar sadd smul sdiv ssub].
        constructor; [|constructor]. cbn. lra.
      * assert (HN : 2 <= IZR (Z.of_nat (S (S n)))) by (apply IZR_le; lia).
        set (N := IZR (Z.of_nat (S (S n)))) in *. clearbody N.
        assert (Hpad : 0 < 1 / (2 * N) <= 1 / 4).
        { split; [apply Rdiv_lt_0_compat; lra|].
          apply (Rmult_le_reg_r (2 * N)); [lra|]. unfold Rdiv.
          rewrite Rmult_assoc, Rinv_l by lra. lra. }
        set (pad := 1 / (2 * N)) in *. clearbody pad.
        assert (Hle : pad <= 1 - pad - eps) by lra.
        eapply Forall_impl; [|exact (np_linspace_between _ _ (S (S n)) Hle)].
        cbn beta. intros x Hx. lra.
    + intros E. injection E as <-.
      eapply Forall_impl; [|exact (np_linspace_between 0 (1 - eps) num_samples ltac:(lra))].
      cbn beta. intros x Hx. lra.
Qed.

(** X29. [sample_np] interpolates at quantiles in [[0, 1)], as the comment at
    line 99 says: for at least one sample without random jitter, and for 2
    to 8388607 samples with a jitter drawn from [[0, 1)], every quantile
    [u] passed to [invert_cdf_np] satisfies [0 <= u < 1].  (The bound on
    [num_samples] keeps [max_jitter] from being negative.) *)
Theorem sample_np_quantiles interp (rand : bool) (noise t w_logits : list R)
    (num_samples : nat) (single_jitter deterministic_center : bool) (t_new : list R) :
  (1 <= num_samples)%nat ->
  (rand = true ->
   (2 <= num_samples)%nat /\ (Z.of_nat num_samples <= 8388607)%Z
   /\ Forall (fun r => 0 <= r < 1) noise /\ noise <> []) ->
  sample_np interp rand noise t w_logits num_samples single_jitter deterministic_center
  = Some t_new ->
  exists u,
    t_new = invert_cdf_np interp u t w_logits /\ Forall (fun x => 0 <= x < 1) u.
Proof.
  intros Hn Hrand. unfold sample_np.
  destruct (sample_u rand noise num_samples single_jitter deterministic_center)
    as [u|] eqn:Eu; [|discriminate].
  intros E. injection E as <-. exists u. split; [reflexivity|].
  exact (sample_u_range _ _ _ _ _ _ Hn Hrand Eu).
Qed.

Lemma sample_np_quantiles_witness :
  exists t_new u,
    sample_np (fun u cw t => u) true [1 / 2; 1 / 4] [0; 1] [0; 0] 2 false false
    = Some t_new
    /\ t_new = invert_cdf_np (fun u cw t => u) u [0; 1] [0; 0]
    /\ Forall (fun x => 0 <= x < 1) u.
Proof.
  assert (H : exists t_new,
             sample_np (fun u cw t => u) true [1 / 2; 1 / 4] [0; 1] [0; 0] 2 false false
             = Some t_new)
    by (unfold sample_np, sample_u; cbn [negb]; eexists; reflexivity).
  destruct H as [t_new E]. exists t_new.
  destruct (sample_np_quantiles (fun u cw t => u) true [1 / 2; 1 / 4] [0; 1] [0; 0]
              2 false false t_new) as (u & Hu & Hr).
  - lia.
  - intros _. split; [lia|]. split; [lia|]. split; [|discriminate].
    repeat constructor; lra.
  - exact E.
  - exists u. split; [exact E|]. split; [exact Hu | exact Hr].
Defined.

(** ** [normalize] *)

(** X30. [normalize] of a non-zero vector is a unit vector along it: its
    length is 1, it gives the vector back when multiplied by the norm,
    normalising again changes nothing, and a positive factor on the vector
    is lost.  The function has no test for the zero vector: in float64 it
    divides 0 by 0 and returns NaN in every coordinate. *)
Theorem normalize_unit_vector :
  (forall v : vec3 R, v <> zero3 ->
     dot3 (normalize v) (normalize v) = 1
     /\ v3scale (norm v) (normalize v) = v
     /\ normalize (normalize v) = normalize v
     /\ forall k, 0 < k -> normalize (v3scale k v) = normalize v)
  /\ map3 PrimFloat.is_nan (normalize (V3 0%float 0%float 0%float))
     = V3 true true true.
Proof.
  split; [|vm_compute; reflexivity].
  intros v Hv. split; [now apply normalize_unit|].
  split; [now apply norm_normalize|].
  split; [now apply normalize_idem|].
  intros k Hk. now apply normalize_scale.
Qed.
